(** * prometheus-sql: the metric registry of a query worker

    A shallow embedding of [QueryResult] (registerMetric, setValueForResult,
    SetMetrics, RegisterMetrics) and of [Worker.SetMetrics], with the
    properties of the reconciliation between a decoded result set and the
    gauges a worker holds; of the loading of the configuration and of the
    queries, up to the point where [main] starts the workers; and of
    [Fetch] and [Start], the loop of a worker.

    Conventions of the embedding.
    - A Go map that the program only looks up, inserts into or deletes from
      ([r.Result], [facetsWithResult], [facet], [labels]) is a [gmap].
    - A Go map that the program walks with [range] and may leave early
      (a [record], the sub-metric map) is the list of its entries in the
      order in which [range] visits them.  Go leaves that order open: the
      statements hold for every list, and [SetMetrics] walks a list in the
      same order each time it ranges over it.  The part on visiting orders
      removes that restriction: there every walk has an order of its own.
    - A [prometheus.Gauge] is a pointer: the state carries the gauges
      created so far, and a handle is the index of a gauge among them.
    - The calls [prometheus.Unregister] and [prometheus.MustRegister] are
      recorded, in order, in the state; what the client library does with
      them is outside this development.
    - Floating point numbers, their parsing and their printing belong to the
      Go runtime: they are the operations of the class [GoFloat].
    - Files, the environment and the YAML decoder are the operations of the
      class [Loader.Host]; the HTTP request and the JSON decoder those of
      the class [Agent]. What a worker meets while it runs (the reply to a
      request, the case a [select] takes) is a list of events. *)

From Stdlib Require Import ZArith String Ascii List DecimalString.
From stdpp Require Import base option list gmap strings sorting.

Local Open Scope string_scope.
Local Open Scope list_scope.

(** ** The Go runtime: floats, fmt, strings, encoding/json *)

Class GoFloat := {
  float64 : Type;
  (** the value of a gauge that was never set *)
  float64_zero : float64;
  (** the conversion [float64(t)] of an [int] *)
  float64_of_int : Z → float64;
  (** [strconv.ParseFloat(t, 64)], [None] when it returns an error *)
  ParseFloat : string → option float64;
  (** the verb [%v] of package fmt on a float64 *)
  FormatFloat : float64 → string;
  (** encoding/json on a float64, [None] when it reports an unsupported value *)
  MarshalFloat : float64 → option string
}.

Section Registry.
Context `{GoFloat}.

(** The dynamic types an [interface{}] column value is inspected for:
    string, int and float64 are told apart by [setValueForResult]; bool and
    nil stand for its default branch. *)
Inductive value :=
  | VString (s : string)
  | VInt (n : Z)
  | VFloat (f : float64)
  | VBool (b : bool)
  | VNil.

Definition Itoa (n : Z) : string := NilZero.string_of_int (Z.to_int n).

(** [fmt.Sprintf("%v", v)] *)
Definition Sprint (v : value) : string :=
  match v with
  | VString s => s
  | VInt n => Itoa n
  | VFloat f => FormatFloat f
  | VBool true => "true"
  | VBool false => "false"
  | VNil => "<nil>"
  end.

(** [strings.ToLower], on the ASCII letters; other bytes are kept. *)
Definition lower_ascii (c : ascii) : ascii :=
  let n := nat_of_ascii c in
  if (65 <=? n)%nat && (n <=? 90)%nat then ascii_of_nat (n + 32) else c.

Fixpoint ToLower (s : string) : string :=
  match s with
  | EmptyString => EmptyString
  | String c s' => String (lower_ascii c) (ToLower s')
  end.

(** *** encoding/json *)

Definition dquote : ascii := "034"%char.
Definition backslash : ascii := "092"%char.

Definition hex_digit (n : nat) : ascii :=
  default "0"%char (list_ascii_of_string "0123456789abcdef" !! n).

(** One byte of a string inside a JSON string literal, with the escaping of
    HTML-sensitive characters that [json.Marshal] applies. Bytes from 128 up
    are copied: the text is taken to be valid UTF-8 without the separators
    U+2028 and U+2029, which the encoder would rewrite. *)
Definition json_escape (c : ascii) : string :=
  let n := nat_of_ascii c in
  if decide (c = dquote) then String backslash (String dquote EmptyString)
  else if decide (c = backslash) then String backslash (String backslash EmptyString)
  else if decide (n = 10) then String backslash "n"
  else if decide (n = 13) then String backslash "r"
  else if decide (n = 9) then String backslash "t"
  else if decide (n < 32 ∨ n = 60 ∨ n = 62 ∨ n = 38) then
    String backslash ("u00" +:+ String (hex_digit (n / 16)) (String (hex_digit (n mod 16)) EmptyString))
  else String c EmptyString.

Fixpoint json_escape_string (s : string) : string :=
  match s with
  | EmptyString => EmptyString
  | String c s' => json_escape c +:+ json_escape_string s'
  end.

Definition MarshalString (s : string) : string :=
  String dquote (json_escape_string s +:+ String dquote EmptyString).

Definition MarshalValue (v : value) : option string :=
  match v with
  | VString s => Some (MarshalString s)
  | VInt n => Some (Itoa n)
  | VFloat f => MarshalFloat f
  | VBool true => Some "true"
  | VBool false => Some "false"
  | VNil => Some "null"
  end.

(** The keys of a map in the order in which [json.Marshal] writes them:
    sorted as byte strings. *)
Definition sorted_keys {A} (m : gmap string A) : list string :=
  merge_sort String.le (elements (dom m)).

Definition MarshalEntry (m : gmap string value) (k : string) : option string :=
  v ← m !! k; j ← MarshalValue v; Some (MarshalString k +:+ ":" +:+ j).

Fixpoint join (sep : string) (l : list string) : string :=
  match l with
  | [] => EmptyString
  | [x] => x
  | x :: l' => x +:+ sep +:+ join sep l'
  end.

(** [json.Marshal(facets)] for a [map[string]interface{}] *)
Definition Marshal (m : gmap string value) : option string :=
  l ← mapM (MarshalEntry m) (sorted_keys m);
  Some ("{" +:+ join "," l +:+ "}").

(** ** The data of the program *)

Inductive metricStatus := registered | unregistered.

Global Instance metricStatus_eq_dec : EqDecision metricStatus.
Proof. solve_decision. Defined.

(** The fields of [Query] that the registry reads. *)
Record Query := {
  Name : string;
  DataField : string;
  SubMetrics : list (string * string)
}.

(** [record] and [records] *)
Abbreviation record := (list (string * value)).
Abbreviation records := (list (list (string * value))).

Abbreviation handle := nat.

(** A gauge made by [prometheus.NewGauge(prometheus.GaugeOpts{...})]
    together with the value last given to [Set]. *)
Record Gauge := {
  gauge_Name : string;
  gauge_Help : string;
  gauge_ConstLabels : gmap string string;
  gauge_value : float64
}.

Definition NewGauge (name help : string) (labels : gmap string string) : Gauge :=
  {| gauge_Name := name; gauge_Help := help; gauge_ConstLabels := labels;
     gauge_value := float64_zero |}.

Definition Set_ (f : float64) (g : Gauge) : Gauge :=
  {| gauge_Name := gauge_Name g; gauge_Help := gauge_Help g;
     gauge_ConstLabels := gauge_ConstLabels g; gauge_value := f |}.

(** A call to the default registry of the prometheus client. *)
Inductive call := Unregister (m : handle) | MustRegister (m : handle).

(** [Result] is the field [r.Result]; [gauges] are the gauges created so
    far, in order of creation; [calls] are the calls made to the prometheus
    registry so far. *)
Record state := {
  Result : gmap string handle;
  gauges : list Gauge;
  calls : list call
}.

(** [NewQueryResult(q)]: no entry yet. *)
Definition NewQueryResult : state :=
  {| Result := ∅; gauges := []; calls := [] |}.

Inductive error :=
  | ErrMultipleRowsSingleColumn
  | ErrSubMetricsWithDataField
  | ErrDataFieldNotSpecified
  | ErrDataFieldNotFound
  | ErrParseFloat (s : string)
  | ErrUnhandledType (v : value)
  | PanicNilGauge.

(** The text of the errors built with [errors.New]. *)
Definition error_text (e : error) : string :=
  match e with
  | ErrMultipleRowsSingleColumn =>
      "There is more than one row in the query result - with a single column"
  | ErrSubMetricsWithDataField => "sub-metrics are not compatible with data-field"
  | ErrDataFieldNotSpecified => "Data field not specified for multi-column query"
  | ErrDataFieldNotFound => "Data field not found in result set"
  | ErrParseFloat s => "strconv.ParseFloat: parsing " +:+ s
  | ErrUnhandledType v => "Unhandled type " +:+ Sprint v
  | PanicNilGauge => "invalid memory address or nil pointer dereference"
  end.

Inductive result (A : Type) := Ok (a : A) | Err (e : error).
Global Arguments Ok {A} a.
Global Arguments Err {A} e.

(** ** registerMetric *)

Definition metricName (q : Query) (suffix : string) : string :=
  if decide (suffix = EmptyString) then Name q else Name q +:+ "_" +:+ suffix.

(** [string(jsonData)]: the error of [json.Marshal] is dropped, and
    [jsonData] is then nil. *)
Definition jsonData (facets : gmap string value) : string :=
  default EmptyString (Marshal facets).

Definition resultKey (q : Query) (facets : gmap string value) (suffix : string) : string :=
  metricName q suffix +:+ jsonData facets.

Definition facet_labels (facets : gmap string value) : gmap string string :=
  (λ v, ToLower (Sprint v)) <$> facets.

Definition registerMetric (q : Query) (facets : gmap string value) (suffix : string)
    (st : state) : (string * metricStatus) * state :=
  let labels := facet_labels facets in
  let key := resultKey q facets suffix in
  match Result st !! key with
  | Some _ => ((key, registered), st)
  | None =>
      let g := NewGauge ("query_result_" +:+ metricName q suffix)
                        "Result of an SQL query" labels in
      ((key, unregistered),
       {| Result := <[key := length (gauges st)]> (Result st);
          gauges := gauges st ++ [g];
          calls := calls st |})
  end.

(** ** setValueForResult *)

(** [r.Set(f)]; [r] is nil when the map lookup that produced it missed. *)
Definition gauge_Set (r : option handle) (f : float64) (st : state) : option error * state :=
  match r with
  | None => (Some PanicNilGauge, st)
  | Some m =>
      (None, {| Result := Result st; gauges := alter (Set_ f) m (gauges st);
                calls := calls st |})
  end.

Definition setValueForResult (r : option handle) (v : value) (st : state)
    : option error * state :=
  match v with
  | VString t =>
      match ParseFloat t with
      | None => (Some (ErrParseFloat t), st)
      | Some f => gauge_Set r f st
      end
  | VInt t => gauge_Set r (float64_of_int t) st
  | VFloat t => gauge_Set r t st
  | _ => (Some (ErrUnhandledType v), st)
  end.

(** ** SetMetrics *)

(** The innermost loop: is the lower-cased column name the value column of
    some sub-metric? *)
Definition is_submetric (submetrics : list (string * string)) (k : string) : bool :=
  foldl (λ submetric sn, if decide (ToLower k = sn.2) then true else submetric)
        false submetrics.

(** The loop over the columns of [row]; [n] is [len(row)]. *)
Fixpoint range_row (n : nat) (datafield : string) (submetrics : list (string * string))
    (cols : record) (facet : gmap string value) (dataVal : value) (dataFound : bool)
    : result (gmap string value * value * bool) :=
  match cols with
  | [] => Ok (facet, dataVal, dataFound)
  | (k, v) :: cols' =>
      if decide (1 < n ∧ ToLower k ≠ datafield) then
        if is_submetric submetrics k
        then range_row n datafield submetrics cols' facet dataVal dataFound
        else range_row n datafield submetrics cols' (<[ToLower k := v]> facet) dataVal dataFound
      else
        if dataFound then Err ErrDataFieldNotSpecified
        else range_row n datafield submetrics cols' facet v true
  end.

(** The body of the loop over the sub-metrics, for one row. *)
Definition submetric_body (q : Query) (submetrics : list (string * string)) (row : record)
    (suffix datafield : string) (facetsWithResult : gmap string metricStatus) (st : state)
    : result (gmap string metricStatus) * state :=
  match range_row (length row) datafield submetrics row ∅ VNil false with
  | Err e => (Err e, st)
  | Ok (facet, dataVal, dataFound) =>
      if dataFound then
        let '((key, status), st1) := registerMetric q facet suffix st in
        match setValueForResult (Result st1 !! key) dataVal st1 with
        | (Some err, st2) => (Err err, st2)
        | (None, st2) => (Ok (<[key := status]> facetsWithResult), st2)
        end
      else (Err ErrDataFieldNotFound, st)
  end.

Fixpoint range_submetrics (q : Query) (submetrics : list (string * string)) (row : record)
    (todo : list (string * string)) (facetsWithResult : gmap string metricStatus)
    (st : state) : result (gmap string metricStatus) * state :=
  match todo with
  | [] => (Ok facetsWithResult, st)
  | (suffix, datafield) :: todo' =>
      match submetric_body q submetrics row suffix datafield facetsWithResult st with
      | (Err e, st') => (Err e, st')
      | (Ok fwr, st') => range_submetrics q submetrics row todo' fwr st'
      end
  end.

Fixpoint range_recs (q : Query) (submetrics : list (string * string)) (recs : records)
    (facetsWithResult : gmap string metricStatus) (st : state)
    : result (gmap string metricStatus) * state :=
  match recs with
  | [] => (Ok facetsWithResult, st)
  | row :: recs' =>
      match range_submetrics q submetrics row submetrics facetsWithResult st with
      | (Err e, st') => (Err e, st')
      | (Ok fwr, st') => range_recs q submetrics recs' fwr st'
      end
  end.

(** The sub-metric map the loops run over. *)
Definition effective_submetrics (q : Query) : list (string * string) :=
  if decide (0 < length (SubMetrics q)) then SubMetrics q
  else [(EmptyString, DataField q)].

Definition SetMetrics (q : Query) (recs : records) (st : state)
    : result (gmap string metricStatus) * state :=
  if decide (1 < length recs ∧ length (default [] (recs !! 0)) = 1) then
    (Err ErrMultipleRowsSingleColumn, st)
  else if decide (DataField q ≠ EmptyString ∧ 0 < length (SubMetrics q)) then
    (Err ErrSubMetricsWithDataField, st)
  else
    range_recs q (effective_submetrics q) recs ∅ st.

(** ** RegisterMetrics *)

(** One turn of the loop over [r.Result]; [deferred] is the stack of the
    deferred registrations. *)
Definition RegisterMetrics_step (facetsWithResult : gmap string metricStatus)
    (acc : state * list handle) (entry : string * handle) : state * list handle :=
  let '(st, deferred) := acc in
  let '(key, m) := entry in
  match facetsWithResult !! key with
  | None =>
      ({| Result := delete key (Result st); gauges := gauges st;
          calls := calls st ++ [Unregister m] |}, deferred)
  | Some unregistered => (st, m :: deferred)
  | Some registered => (st, deferred)
  end.

(** The deferred calls run when the function returns, last deferred first. *)
Definition run_deferred (deferred : list handle) (st : state) : state :=
  {| Result := Result st; gauges := gauges st;
     calls := calls st ++ (MustRegister <$> deferred) |}.

Definition RegisterMetrics (facetsWithResult : gmap string metricStatus) (st : state) : state :=
  let '(st', deferred) :=
    foldl (RegisterMetrics_step facetsWithResult) (st, []) (map_to_list (Result st)) in
  run_deferred deferred st'.

(** ** Worker.SetMetrics *)

Definition Worker_SetMetrics (q : Query) (recs : records) (st : state) : state :=
  match SetMetrics q recs st with
  | (Err _, st') => st'
  | (Ok list, st') => RegisterMetrics list st'
  end.

End Registry.

Abbreviation handle := nat.
Abbreviation record := (list (string * value)).
Abbreviation records := (list (list (string * value))).

(** ** Configuration and query files

    What a call returns: a value, an [error] (its message), or a panic. *)
Inductive outcome (A : Type) :=
  | Success (a : A)
  | Failure (err : string)
  | Panicked.
Global Arguments Success {A} a.
Global Arguments Failure {A} err.
Global Arguments Panicked {A}.

(** [strings.HasSuffix] *)
Definition HasSuffix (s suffix : string) : bool :=
  let n := String.length s in
  let m := String.length suffix in
  if (m <=? n)%nat then bool_decide (substring (n - m) m s = suffix) else false.

(** [strings.TrimRight(s, cutset)], for a cutset of ASCII characters. *)
Fixpoint TrimRight (s cutset : string) : string :=
  match s with
  | EmptyString => EmptyString
  | String c s' =>
      match TrimRight s' cutset with
      | EmptyString =>
          if bool_decide (c ∈ list_ascii_of_string cutset) then EmptyString
          else String c EmptyString
      | t => String c t
      end
  end.

(** The full [Query] of the configuration, of which the registry reads
    three fields. *)
Abbreviation RegistryQuery := Query.

Definition registry_Query (name datafield : string) (submetrics : list (string * string))
    : Query :=
  {| Name := name; DataField := datafield; SubMetrics := submetrics |}.

Module Config.
Section Config.
Context `{GoFloat}.

(** [time.Duration]: a number of nanoseconds. *)
Definition Duration := Z.
Definition Minute : Duration := 60000000000%Z.

Definition DefaultHost : string := EmptyString.
Definition DefaultTimeout : Duration := Minute.
Definition DefaultInterval : Duration := (Minute * 5)%Z.
Definition DefaultService : string := EmptyString.
Definition DefaultQueriesFile : string := "queries.yml".
Definition DefaultQueriesDir : string := EmptyString.
Definition DefaultPort : Z := 8080.
Definition DefaultConfFile : string := EmptyString.
Definition DefaultTolerateInvalidQueryDirFiles : bool := false.

Record DefaultsData := {
  DataSourceRef : string;
  QueryInterval : Duration;
  QueryTimeout : Duration;
  QueryValueOnError : string
}.

Record DataSource := {
  Driver : string;
  Properties : gmap string value
}.

Record Config := {
  Defaults : DefaultsData;
  DataSources : gmap string DataSource
}.

Definition createDefaultsData : DefaultsData :=
  {| DataSourceRef := EmptyString; QueryInterval := DefaultInterval;
     QueryTimeout := DefaultTimeout; QueryValueOnError := EmptyString |}.

Definition newConfig : Config :=
  {| Defaults := createDefaultsData; DataSources := ∅ |}.

Definition appendDefaults (c : Config) : Config :=
  let d := Defaults c in
  let d1 :=
    if decide (QueryInterval d = 0%Z) then
      {| DataSourceRef := DataSourceRef d; QueryInterval := DefaultInterval;
         QueryTimeout := QueryTimeout d; QueryValueOnError := QueryValueOnError d |}
    else d in
  let d2 :=
    if decide (QueryTimeout d1 = 0%Z) then
      {| DataSourceRef := DataSourceRef d1; QueryInterval := QueryInterval d1;
         QueryTimeout := DefaultTimeout; QueryValueOnError := QueryValueOnError d1 |}
    else d1 in
  {| Defaults := d2; DataSources := DataSources c |}.

(** The loop of [validateConfig] over the data sources, in the order in
    which [range] visits them. *)
Fixpoint validateConfig_range (entries : list (string * DataSource)) : option string :=
  match entries with
  | [] => None
  | (name, ds) :: entries' =>
      if decide (Driver ds = EmptyString) then
        Some ("Driver is not defined for data source [" +:+ name +:+ "]")
      else if decide (size (Properties ds) = 0) then
        Some ("Properties are not defined for data source [" +:+ name +:+ "]")
      else validateConfig_range entries'
  end.

Definition validateConfig (c : Config) : option string :=
  validateConfig_range (map_to_list (DataSources c)).

End Config.
End Config.

(** What [ioutil.ReadAll] returns on an [io.Reader]. *)
Inductive reader :=
  | Reads (b : string)
  | ReadError (err : string).

Module Loader.
Section Loader.
Context `{GoFloat}.

Record Query := {
  Name : string;
  DataSourceRef : string;
  Driver : string;
  Connection : gmap string value;
  SQL : string;
  Params : gmap string value;
  Interval : Config.Duration;
  Timeout : Config.Duration;
  DataField : string;
  SubMetrics : list (string * string);
  ValueOnError : string
}.

(** The [Query] that [QueryResult] reads. *)
Definition registry (q : Query) : RegistryQuery :=
  registry_Query (Name q) (DataField q) (SubMetrics q).

Definition validateQuery (q : Query) : option string :=
  if decide (Name q = EmptyString) then Some "Query is not named"
  else if decide (Driver q = EmptyString) then
    Some ("No data source or driver is specified for query [" +:+ Name q +:+ "]")
  else if decide (SQL q = EmptyString) then
    Some ("SQL statement required for query [" +:+ Name q +:+ "]")
  else if decide (Timeout q = 0%Z) then
    Some ("Timeout must be greater than zero for query [" +:+ Name q +:+ "]")
  else if decide (Interval q = 0%Z) then
    Some ("Interval must be greater than zero for query [" +:+ Name q +:+ "]")
  else None.

(** The zero value that a lookup in [config.DataSources] gives for a
    missing key. *)
Definition zero_DataSource : Config.DataSource :=
  {| Config.Driver := EmptyString; Config.Properties := ∅ |}.

(** The assignments that [decodeQueries] makes to the query [q] found
    under the key [k], before it validates it. *)
Definition fill (config : Config.Config) (k : string) (q : Query) : Query :=
  let dataSourceRef :=
    if decide (DataSourceRef q = EmptyString)
    then Config.DataSourceRef (Config.Defaults config) else DataSourceRef q in
  let ds := default zero_DataSource (Config.DataSources config !! dataSourceRef) in
  let from_source :=
    bool_decide (Driver q = EmptyString ∧ dataSourceRef ≠ EmptyString ∧
                 0 < size (Config.DataSources config)) in
  {| Name := k;
     DataSourceRef := dataSourceRef;
     Driver := if from_source then Config.Driver ds else Driver q;
     Connection := if from_source then Config.Properties ds else Connection q;
     SQL := SQL q;
     Params := Params q;
     Interval := if decide (Interval q = 0%Z)
                 then Config.QueryInterval (Config.Defaults config) else Interval q;
     Timeout := if decide (Timeout q = 0%Z)
                then Config.QueryTimeout (Config.Defaults config) else Timeout q;
     DataField := ToLower (DataField q);
     SubMetrics := SubMetrics q;
     ValueOnError :=
       if decide (ValueOnError q = EmptyString ∧
                  Config.QueryValueOnError (Config.Defaults config) ≠ EmptyString)
       then Config.QueryValueOnError (Config.Defaults config) else ValueOnError q |}.

(** The loop over one parsed map; an entry is a pointer, [None] when it
    is nil. *)
Fixpoint range_data (config : Config.Config) (data : list (string * option Query))
    (queries : list Query) : outcome (list Query) :=
  match data with
  | [] => Success queries
  | (k, None) :: _ => Panicked
  | (k, Some q) :: data' =>
      let q' := fill config k q in
      match validateQuery q' with
      | Some err => Failure err
      | None => range_data config data' (queries ++ [q'])
      end
  end.

Fixpoint range_parsedQueries (config : Config.Config)
    (parsedQueries : list (list (string * option Query))) (queries : list Query)
    : outcome (list Query) :=
  match parsedQueries with
  | [] => Success queries
  | data :: parsedQueries' =>
      match range_data config data queries with
      | Success queries' => range_parsedQueries config parsedQueries' queries'
      | Failure err => Failure err
      | Panicked => Panicked
      end
  end.

(** The files, the environment and the YAML decoder. *)
Class Host := {
  ReadFile : string → outcome string;
  ExpandEnv : string → string;
  (** [yaml.Unmarshal(b, &c)] for a zero [Config] *)
  Unmarshal_Config : string → outcome Config.Config;
  (** [yaml.Unmarshal(b, &parsedQueries)]; each map in the order in which
      [range] visits it *)
  Unmarshal_Queries : string → outcome (list (list (string * option Query)));
  (** the names of the entries of a directory *)
  ReadDir : string → outcome (list string);
  Open : string → outcome reader
}.
Context `{Host}.

Definition decodeQueries (r : reader) (config : option Config.Config)
    : outcome (list Query) :=
  match config with
  | None => Failure "Bug! Config must not be nil"
  | Some config =>
      match r with
      | ReadError err => Failure err
      | Reads b =>
          match Unmarshal_Queries b with
          | Failure err => Failure err
          | Panicked => Panicked
          | Success parsedQueries => range_parsedQueries config parsedQueries []
          end
      end
  end.

Definition loadConfig (file : string) : outcome Config.Config :=
  match ReadFile file with
  | Failure err => Failure ("Error reading config file: " +:+ err)
  | Panicked => Panicked
  | Success b =>
      match Unmarshal_Config (ExpandEnv b) with
      | Failure err => Failure ("Error decoding config file: " +:+ err)
      | Panicked => Panicked
      | Success c =>
          let c := Config.appendDefaults c in
          match Config.validateConfig c with
          | Some err => Failure err
          | None => Success c
          end
      end
  end.

Definition loadQueryConfig (queriesFile : string) (config : Config.Config)
    : outcome (list Query) :=
  match Open queriesFile with
  | Failure err => Failure ("Error opening queries file: " +:+ err)
  | Panicked => Panicked
  | Success file => decodeQueries file (Some config)
  end.

(** The loop of [loadQueriesInDir] over the entries of the directory. *)
Fixpoint range_files (path : string) (config : Config.Config) (allowFileErrors : bool)
    (files : list string) (queries : list Query) : outcome (list Query) :=
  match files with
  | [] => Success queries
  | fn :: files' =>
      if HasSuffix fn ".yml" then
        match Open (TrimRight path "/" +:+ "/" +:+ fn) with
        | Failure err => Failure err
        | Panicked => Panicked
        | Success file =>
            match decodeQueries file (Some config) with
            | Success q => range_files path config allowFileErrors files' (queries ++ q)
            | Failure err =>
                if allowFileErrors
                then range_files path config allowFileErrors files' queries
                else Failure err
            | Panicked => Panicked
            end
        end
      else range_files path config allowFileErrors files' queries
  end.

Definition loadQueriesInDir (path : string) (config : Config.Config)
    (allowFileErrors : bool) : outcome (list Query) :=
  match ReadDir path with
  | Failure err => Failure err
  | Panicked => Panicked
  | Success files => range_files path config allowFileErrors files []
  end.

(** The command line of [main]. *)
Record flags := {
  host : string;
  port : Z;
  service : string;
  queriesFile : string;
  queryDir : string;
  confFile : string;
  tolerateInvalidQueryDirFiles : bool
}.

(** [main] up to the point where it starts the workers: the configuration
    and the queries they are started with, or the message of
    [log.Fatal]. *)
Definition main (f : flags) : outcome (Config.Config * list Query) :=
  if decide (service f = EmptyString) then
    Failure "Error: URL to SQL Agent service required."
  else
    let queriesFile :=
      if decide (queriesFile f = Config.DefaultQueriesFile ∧ queryDir f ≠ EmptyString)
      then EmptyString else queriesFile f in
    if decide (queriesFile ≠ EmptyString ∧ queryDir f ≠ EmptyString) then
      Failure "Error: You can specify either -queries or -queryDir"
    else
      let config :=
        if decide (confFile f ≠ EmptyString) then loadConfig (confFile f)
        else Success Config.newConfig in
      match config with
      | Failure err => Failure err
      | Panicked => Panicked
      | Success config =>
          let queries :=
            if decide (queryDir f ≠ EmptyString)
            then loadQueriesInDir (queryDir f) config (tolerateInvalidQueryDirFiles f)
            else loadQueryConfig queriesFile config in
          match queries with
          | Failure err => Failure err
          | Panicked => Panicked
          | Success queries =>
              if decide (length queries = 0) then Failure "No queries loaded!"
              else Success (config, queries)
          end
      end.

End Loader.
End Loader.

(** ** The worker of a query: Fetch and Start *)

(** What [w.client.Do(req)] returns: an error, or a response with its
    status code and its body. *)
Inductive reply :=
  | TransportError (err : string)
  | Response (StatusCode : Z) (Body : string).

(** What the worker meets, in order: the reply to a request, and the case
    that a [select] statement takes. *)
Inductive event :=
  | Reply (r : reply)
  | TimeAfter
  | CtxDone
  | TickerC.

Section Worker.
Context `{GoFloat}.

(** The HTTP request and the JSON decoder. *)
Class Agent := {
  (** the error of [http.NewRequest("POST", url, ...)], if any *)
  NewRequest : string → option string;
  (** [json.NewDecoder(resp.Body).Decode(&recs)] *)
  Decode : string → outcome records
}.
Context `{!Agent}.

(** The fields of [Worker] that change, with its query: [result_] is the
    field [result], the registry; [backoff] counts the calls of
    [w.backoff.Duration()] since the last [Reset]; [wg] counts the calls of
    [wg.Done()]. The payload, the client and the logger are left out. *)
Record Worker := {
  query : Loader.Query;
  result_ : state;
  backoff : nat;
  wg : nat
}.

Definition NewWorker (q : Loader.Query) : Worker :=
  {| query := q; result_ := NewQueryResult; backoff := 0; wg := 0 |}.

(** [Worker.SetMetrics] on the worker. *)
Definition SetMetrics_of (w : Worker) (recs : records) : Worker :=
  {| query := query w;
     result_ := Worker_SetMetrics (Loader.registry (query w)) recs (result_ w);
     backoff := backoff w; wg := wg w |}.

(** The record set that stands for a failed request. *)
Definition error_record (w : Worker) : records :=
  [[("error", VString (Loader.ValueOnError (query w)))]].

(** The error of an attempt: that of the transport, or a status code
    other than 200. *)
Definition attempt_error (r : reply) : option string :=
  match r with
  | TransportError err => Some err
  | Response code body => if decide (code ≠ 200%Z) then Some body else None
  end.

Definition body_of (r : reply) : string :=
  match r with
  | TransportError _ => EmptyString
  | Response _ body => body
  end.

(** [Fetch]: [None] when the events end before the function returns. It
    returns its value, the worker, and the events that are left. *)
Fixpoint Fetch (url : string) (events : list event) (w : Worker)
    : option (outcome records * Worker * list event) :=
  match NewRequest url with
  | Some _ => Some (Panicked, w, events)
  | None =>
      match events with
      | Reply r :: events' =>
          match attempt_error r with
          | None =>
              let w := {| query := query w; result_ := result_ w; backoff := 0;
                          wg := wg w |} in
              match Decode (body_of r) with
              | Success recs => Some (Success recs, SetMetrics_of w recs, events')
              | Failure err => Some (Failure err, w, events')
              | Panicked => Some (Panicked, w, events')
              end
          | Some _ =>
              let w :=
                if decide (Loader.ValueOnError (query w) ≠ EmptyString)
                then SetMetrics_of w (error_record w) else w in
              let w := {| query := query w; result_ := result_ w;
                          backoff := S (backoff w); wg := wg w |} in
              match events' with
              | TimeAfter :: events'' => Fetch url events'' w
              | CtxDone :: events'' =>
                  Some (Failure "Execution was canceled", w, events'')
              | _ => None
              end
          end
      | _ => None
      end
  end.

(** The loop of [Start] after the first tick; [n] bounds the number of
    turns. *)
Fixpoint Start_loop (n : nat) (url : string) (events : list event) (w : Worker)
    : option (outcome Worker) :=
  match n with
  | 0 => None
  | S n' =>
      match events with
      | CtxDone :: _ =>
          Some (Success {| query := query w; result_ := result_ w;
                           backoff := backoff w; wg := S (wg w) |})
      | TickerC :: events' =>
          match Fetch url events' w with
          | None => None
          | Some (Panicked, _, _) => Some Panicked
          | Some (_, w', events'') => Start_loop n' url events'' w'
          end
      | _ => None
      end
  end.

(** [Start]; [time.NewTicker] panics when the interval is not positive. *)
Definition Start (url : string) (events : list event) (w : Worker)
    : option (outcome Worker) :=
  match Fetch url events w with
  | None => None
  | Some (Panicked, _, _) => Some Panicked
  | Some (_, w', events') =>
      if decide (Loader.Interval (query w') ≤ 0)%Z then Some Panicked
      else Start_loop (length events') url events' w'
  end.

End Worker.

(** ** A runtime to execute the model on examples

    Decimal numbers [m * 10^-k], written and read back in the plain decimal
    notation, stand for the floats of the examples. *)
Module Fixture.

Definition digits_pad (k : nat) (s : string) : string :=
  string_of_list_ascii (replicate (S k - String.length s) "0"%char) +:+ s.

Definition print (d : Z * nat) : string :=
  let s := digits_pad d.2 (NilZero.string_of_uint (N.to_uint (Z.abs_N d.1))) in
  let n := (String.length s - d.2)%nat in
  (if decide (d.1 < 0)%Z then "-" else EmptyString) +:+
  substring 0 n s +:+
  (if decide (d.2 = 0%nat) then EmptyString else "." +:+ substring n d.2 s).

Fixpoint split_dot (s : string) : string * option string :=
  match s with
  | EmptyString => (EmptyString, None)
  | String c s' =>
      if decide (c = "."%char) then (EmptyString, Some s')
      else let '(a, b) := split_dot s' in (String c a, b)
  end.

Definition parse_unsigned (s : string) : option (Z * nat) :=
  let '(a, b) := split_dot s in
  let f := default EmptyString b in
  if decide (a +:+ f = EmptyString) then None
  else d ← NilEmpty.uint_of_string (a +:+ f); Some (Z.of_uint d, String.length f).

Definition parse (s : string) : option (Z * nat) :=
  match s with
  | String "-" s' => d ← parse_unsigned s'; Some (- d.1, d.2)%Z
  | _ => parse_unsigned s
  end.

#[export] Instance decimal : GoFloat := {|
  float64 := Z * nat;
  float64_zero := (0%Z, 0%nat);
  float64_of_int n := (n, 0%nat);
  ParseFloat := parse;
  FormatFloat := print;
  MarshalFloat d := Some (print d)
|}.

(** A query with a data field, and record sets with one label column. *)
Definition q0 : Query :=
  {| Name := "q"; DataField := "count"; SubMetrics := [] |}.

Definition row_of (region : string) (count : value) : record :=
  [("region", VString region); ("count", count)].

Definition recsAB : records := [row_of "A" (VInt 1); row_of "B" (VInt 2)].
Definition recsA : records := [row_of "A" (VString "12.5")].
Definition recsBad : records := [row_of "A" (VInt 1); row_of "B" (VString "abc")].
Definition recsCase : records := [row_of "A" (VInt 1); row_of "a" (VInt 2)].

(** Two rows with the same labels, as the decoder of encoding/json delivers
    them: numbers are float64. *)
Definition recsTwice : records :=
  [row_of "A" (VFloat (1%Z, 0)); row_of "A" (VFloat (2%Z, 0))].

Definition qBoth : Query :=
  {| Name := "q"; DataField := "count"; SubMetrics := [("total", "count")] |}.
Definition recsNoValue : records := [[("a", VInt 1); ("b", VInt 2)]].

(** A query with two sub-metrics, a row for it, and two ways to visit the
    sub-metrics and the columns of that row. *)
Definition qSub : Query :=
  {| Name := "q"; DataField := EmptyString;
     SubMetrics := [("total", "count"); ("failed", "errors")] |}.
Definition rowSub : record :=
  [("region", VString "A"); ("count", VInt 3); ("errors", VInt 1)].
Definition visitA : list (record * (string * string)) :=
  [(rowSub, ("total", "count")); (rowSub, ("failed", "errors"))].
Definition visitB : list (record * (string * string)) :=
  [([("count", VInt 3); ("region", VString "A"); ("errors", VInt 1)], ("failed", "errors"));
   ([("region", VString "A"); ("errors", VInt 1); ("count", VInt 3)], ("total", "count"))].

(** A sub-metric whose column is written with a capital. *)
Definition qUpper : Query :=
  {| Name := "q"; DataField := EmptyString; SubMetrics := [("total", "Count")] |}.

(** A configuration, a file of queries and a directory of such files. *)
Definition source0 : Config.DataSource :=
  {| Config.Driver := "postgresql"; Config.Properties := {[ "host" := VString "db" ]} |}.

Definition config0 : Config.Config :=
  {| Config.Defaults :=
       {| Config.DataSourceRef := "main"; Config.QueryInterval := 0%Z;
          Config.QueryTimeout := 0%Z; Config.QueryValueOnError := "-1" |};
     Config.DataSources := {[ "main" := source0 ]} |}.

Definition entry0 : Loader.Query :=
  {| Loader.Name := EmptyString; Loader.DataSourceRef := EmptyString;
     Loader.Driver := EmptyString; Loader.Connection := ∅;
     Loader.SQL := "select region, count(*) as count from t group by region";
     Loader.Params := ∅; Loader.Interval := 0%Z; Loader.Timeout := 0%Z;
     Loader.DataField := "Count"; Loader.SubMetrics := [];
     Loader.ValueOnError := EmptyString |}.

#[export] Instance files0 : Loader.Host := {|
  Loader.ReadFile f :=
    if decide (f = "prometheus-sql.yml") then Success "config"
    else Failure "open: no such file or directory";
  Loader.ExpandEnv b := b;
  Loader.Unmarshal_Config b :=
    if decide (b = "config") then Success config0 else Failure "yaml: unmarshal errors";
  Loader.Unmarshal_Queries b :=
    if decide (b = "queries") then Success [[("q", Some entry0)]]
    else Failure "yaml: unmarshal errors";
  Loader.ReadDir p :=
    if decide (p = "queries.d/") then Success ["a.yml"; "notes.txt"; "b.yml"]
    else Failure "open: no such file or directory";
  Loader.Open fn :=
    if decide (fn = "queries.yml" ∨ fn = "queries.d/a.yml") then Success (Reads "queries")
    else if decide (fn = "queries.d/b.yml") then Success (Reads "broken")
    else Failure "open: no such file or directory"
|}.

Definition loaded0 : Config.Config := Config.appendDefaults config0.
Definition query0 : Loader.Query := Loader.fill loaded0 "q" entry0.

Definition flags0 : Loader.flags :=
  {| Loader.host := EmptyString; Loader.port := 8080%Z;
     Loader.service := "http://sql-agent:5000"; Loader.queriesFile := "queries.yml";
     Loader.queryDir := EmptyString; Loader.confFile := "prometheus-sql.yml";
     Loader.tolerateInvalidQueryDirFiles := false |}.

Definition flagsBoth : Loader.flags :=
  {| Loader.host := EmptyString; Loader.port := 8080%Z;
     Loader.service := "http://sql-agent:5000"; Loader.queriesFile := "other.yml";
     Loader.queryDir := "queries.d/"; Loader.confFile := EmptyString;
     Loader.tolerateInvalidQueryDirFiles := false |}.

(** A query with a negative interval. *)
Definition queryNeg : Loader.Query :=
  {| Loader.Name := "q"; Loader.DataSourceRef := EmptyString;
     Loader.Driver := "postgresql"; Loader.Connection := ∅;
     Loader.SQL := "select 1"; Loader.Params := ∅; Loader.Interval := (-5)%Z;
     Loader.Timeout := 1%Z; Loader.DataField := EmptyString; Loader.SubMetrics := [];
     Loader.ValueOnError := EmptyString |}.

(** An agent that answers with two record sets. *)
#[export] Instance agent0 : Agent := {|
  NewRequest url := None;
  Decode b :=
    if decide (b = "AB") then Success recsAB
    else if decide (b = "A") then Success recsA
    else Failure "invalid character"
|}.

Definition events0 : list event :=
  [Reply (Response 200 "AB"); TickerC; Reply (Response 200 "A"); CtxDone].

Definition is_Success {A} (o : outcome A) : bool :=
  match o with
  | Success _ => true
  | _ => false
  end.

Definition from_Success {A} (d : A) (o : outcome A) : A :=
  match o with
  | Success a => a
  | _ => d
  end.

Definition returned {A} (o : option (outcome A)) : bool :=
  match o with
  | Some (Success _) => true
  | _ => false
  end.

Definition value_of {A} (d : A) (o : option (outcome A)) : A :=
  match o with
  | Some (Success a) => a
  | _ => d
  end.

Definition keyA : string := resultKey q0 {[ "region" := VString "A" ]} EmptyString.
Definition keyB : string := resultKey q0 {[ "region" := VString "B" ]} EmptyString.

Definition from_Ok {A} (d : A) (r : result A) : A :=
  match r with
  | Ok a => a
  | Err _ => d
  end.

Definition is_Ok {A} (r : result A) : bool :=
  match r with
  | Ok _ => true
  | Err _ => false
  end.

Definition error_of {A} (r : result A) : option error :=
  match r with
  | Ok _ => None
  | Err e => Some e
  end.

End Fixture.

(** ** Derived notions used to state the properties *)

Section Notions.
Context `{GoFloat}.

(** What [setValueForResult] hands to [Set], or the error it returns. *)
Definition coerce (v : value) : result float64 :=
  match v with
  | VString t =>
      match ParseFloat t with
      | None => Err (ErrParseFloat t)
      | Some f => Ok f
      end
  | VInt t => Ok (float64_of_int t)
  | VFloat t => Ok t
  | _ => Err (ErrUnhandledType v)
  end.

(** The branch taken for column [k] of a row of [n] columns: the else
    branch, which treats the column as the gauge data. *)
Definition is_value_column (n : nat) (datafield k : string) : Prop :=
  ¬ (1 < n ∧ ToLower k ≠ datafield).

Global Instance is_value_column_dec n datafield k : Decision (is_value_column n datafield k).
Proof. unfold is_value_column. apply _. Defined.

Definition value_columns (datafield : string) (row : record) : record :=
  filter (λ kv, is_value_column (length row) datafield kv.1) row.

(** The (row, sub-metric) pairs in the order in which the two outer loops
    of [SetMetrics] reach them. *)
Definition pairs (submetrics : list (string * string)) (recs : records)
    : list (record * (string * string)) :=
  row ← recs; (λ sd, (row, sd)) <$> submetrics.

(** The facet and the value that steps 4 to 6 extract for a pair. *)
Definition pair_plan (submetrics : list (string * string)) (p : record * (string * string))
    : result (gmap string value * value) :=
  match range_row (length p.1) p.2.2 submetrics p.1 ∅ VNil false with
  | Err e => Err e
  | Ok (facet, dataVal, dataFound) =>
      if dataFound then Ok (facet, dataVal) else Err ErrDataFieldNotFound
  end.

(** The Series Key of a pair, when its columns partition well. *)
Definition pair_key (q : Query) (submetrics : list (string * string))
    (p : record * (string * string)) : option string :=
  match pair_plan submetrics p with
  | Ok (facet, _) => Some (resultKey q facet p.2.1)
  | Err _ => None
  end.

(** The float a pair sets its series to. *)
Definition pair_float (submetrics : list (string * string))
    (p : record * (string * string)) : option float64 :=
  match pair_plan submetrics p with
  | Ok (_, v) => match coerce v with Ok f => Some f | Err _ => None end
  | Err _ => None
  end.

(** The two outer loops as one loop over the pairs. *)
Fixpoint range_pairs (q : Query) (submetrics : list (string * string))
    (ps : list (record * (string * string))) (facetsWithResult : gmap string metricStatus)
    (st : state) : result (gmap string metricStatus) * state :=
  match ps with
  | [] => (Ok facetsWithResult, st)
  | (row, (suffix, datafield)) :: ps' =>
      match submetric_body q submetrics row suffix datafield facetsWithResult st with
      | (Err e, st') => (Err e, st')
      | (Ok fwr, st') => range_pairs q submetrics ps' fwr st'
      end
  end.

(** The two structural checks that open [SetMetrics]. *)
Definition validation (q : Query) (recs : records) : option error :=
  if decide (1 < length recs ∧ length (default [] (recs !! 0)) = 1) then
    Some ErrMultipleRowsSingleColumn
  else if decide (DataField q ≠ EmptyString ∧ 0 < length (SubMetrics q)) then
    Some ErrSubMetricsWithDataField
  else None.

(** Every entry of the registry points to a gauge that exists, and no two
    entries share a gauge. *)
Definition wf (st : state) : Prop :=
  (∀ k m, Result st !! k = Some m → m < length (gauges st)) ∧
  (∀ k1 k2 m, Result st !! k1 = Some m → Result st !! k2 = Some m → k1 = k2).

(** The state after [Set] on the series of [key]. *)
Definition set_series (key : string) (f : float64) (st : state) : state :=
  {| Result := Result st;
     gauges := match Result st !! key with
               | Some m => alter (Set_ f) m (gauges st)
               | None => gauges st
               end;
     calls := calls st |}.

Definition same_descriptor (g g' : Gauge) : Prop :=
  gauge_Name g' = gauge_Name g ∧ gauge_Help g' = gauge_Help g ∧
  gauge_ConstLabels g' = gauge_ConstLabels g.

(** From [st] to [st']: no call to the prometheus registry, every entry
    keeps its key and its handle, every gauge keeps its name, help and
    labels. *)
Definition extends (st st' : state) : Prop :=
  calls st' = calls st ∧
  (∀ k m, Result st !! k = Some m → Result st' !! k = Some m) ∧
  (∀ m g, gauges st !! m = Some g → ∃ g', gauges st' !! m = Some g' ∧ same_descriptor g g').

(** The float of the last pair, in processing order, whose key is [k]. *)
Fixpoint last_float (q : Query) (subs : list (string * string))
    (ps : list (record * (string * string))) (k : string) : option float64 :=
  match ps with
  | [] => None
  | p :: ps' =>
      match last_float q subs ps' k with
      | Some f => Some f
      | None => if decide (pair_key q subs p = Some k) then pair_float subs p else None
      end
  end.

Definition produced (q : Query) (subs : list (string * string))
    (ps : list (record * (string * string))) (k : string) : Prop :=
  ∃ p, p ∈ ps ∧ pair_key q subs p = Some k.

Global Instance produced_dec q subs ps k : Decision (produced q subs ps k).
Proof.
  refine (cast_if (decide (Exists (λ p, pair_key q subs p = Some k) ps)));
    unfold produced; by rewrite <-?Exists_exists.
Defined.

(** The facet that the loop over the columns builds from [cols]. *)
Definition row_facet (n : nat) (datafield : string) (subs : list (string * string))
    (cols : record) (facet : gmap string value) : gmap string value :=
  foldl (λ fa kv,
           if decide (is_value_column n datafield kv.1) then fa
           else if is_submetric subs kv.1 then fa
           else <[ToLower kv.1 := kv.2]> fa) facet cols.

(** [r] is the outcome of a [Set] of [f] on gauge [m] in [st]. *)
Definition sets_gauge (m : handle) (f : float64) (st : state)
    (r : option error * state) : Prop :=
  r.1 = None ∧ Result r.2 = Result st ∧ calls r.2 = calls st ∧
  length (gauges r.2) = length (gauges st) ∧
  gauge_value <$> gauges r.2 !! m = Some f ∧
  (∀ i, i ≠ m → gauges r.2 !! i = gauges st !! i).

Definition hex_value (c : ascii) : option nat :=
  list_find (λ d, d = c) (list_ascii_of_string "0123456789abcdef") ≫= λ r, Some r.1.

(** Reads one byte of the content of a string literal off the front of a
    text; [None] at the closing quote. *)
Definition json_unescape (s : string) : option (ascii * string) :=
  match s with
  | EmptyString => None
  | String c rest =>
      if decide (c = dquote) then None
      else if decide (c = backslash) then
        match rest with
        | String d rest' =>
            if decide (d = dquote) then Some (dquote, rest')
            else if decide (d = backslash) then Some (backslash, rest')
            else if decide (d = "n"%char) then Some (ascii_of_nat 10, rest')
            else if decide (d = "r"%char) then Some (ascii_of_nat 13, rest')
            else if decide (d = "t"%char) then Some (ascii_of_nat 9, rest')
            else match rest' with
                 | String _ (String _ (String h (String l rest''))) =>
                     hi ← hex_value h; lo ← hex_value l;
                     Some (ascii_of_nat (16 * hi + lo), rest'')
                 | _ => None
                 end
        | EmptyString => None
        end
      else Some (c, rest)
  end.

(** What follows the first element of a joined list. *)
Fixpoint join_tail (sep : string) (l : list string) : string :=
  match l with
  | [] => EmptyString
  | x :: l' => sep +:+ x +:+ join_tail sep l'
  end.






Definition row_facet_step (n : nat) (df : string) (subs : list (string * string))
    (fa : gmap string value) (kv : string * value) : gmap string value :=
  if decide (is_value_column n df kv.1) then fa
  else if is_submetric subs kv.1 then fa
  else <[ToLower kv.1 := kv.2]> fa.

(** The state after a sequence of polls, each a record set handed to
    [Worker.SetMetrics]. *)
Definition polls (q : Query) (rounds : list records) (st : state) : state :=
  foldl (λ st recs, Worker_SetMetrics q recs st) st rounds.


(** *** Visiting orders

    [range] over a Go map visits its entries in an order that the language
    leaves open. The pairs that a pass over [recs] may process: the rows in
    the order of the slice; for each row every sub-metric once, in some
    order; for each of them the columns of the row, in some order. *)
Definition visits_row (subs : list (string * string)) (row : record)
    (ps : list (record * (string * string))) : Prop :=
  ps.*2 ≡ₚ subs ∧ Forall (λ p, p.1 ≡ₚ row) ps.

Inductive visits (subs : list (string * string))
    : records → list (record * (string * string)) → Prop :=
  | visits_nil : visits subs [] []
  | visits_cons row recs ps_row ps :
      visits_row subs row ps_row → visits subs recs ps →
      visits subs (row :: recs) (ps_row ++ ps).

(** [SetMetrics] on [recs] when its loops visit the pairs as [ps] lists
    them, and [Worker.SetMetrics] on top of it. *)
Definition SetMetrics_visiting (q : Query) (recs : records)
    (ps : list (record * (string * string))) (st : state)
    : result (gmap string metricStatus) * state :=
  match validation q recs with
  | Some e => (Err e, st)
  | None => range_pairs q (effective_submetrics q) ps ∅ st
  end.

Definition Worker_SetMetrics_visiting (q : Query) (recs : records)
    (ps : list (record * (string * string))) (st : state) : state :=
  match SetMetrics_visiting q recs ps st with
  | (Err _, st') => st'
  | (Ok list, st') => RegisterMetrics list st'
  end.

Definition same_outcome (q : Query) (subs : list (string * string))
    (p p' : record * (string * string)) : Prop :=
  pair_key q subs p = pair_key q subs p' ∧ pair_float subs p = pair_float subs p'.

(** The keys of the pairs that have one. *)
Definition keys_of (q : Query) (subs : list (string * string))
    (ps : list (record * (string * string))) : list string :=
  omap (pair_key q subs) ps.

(** The facet of a row, the same for all its sub-metrics. *)
Definition common_facet (subs : list (string * string)) (row : record)
    : gmap string value :=
  foldl (λ fa kv, if decide (length row ≤ 1)%nat then fa
                  else if is_submetric subs kv.1 then fa
                  else <[ToLower kv.1 := kv.2]> fa) ∅ row.

(** Every entry of the registry has the gauge that [registerMetric] builds
    for its key. *)
Definition described (q : Query) (st : state) : Prop :=
  ∀ k m, Result st !! k = Some m →
    ∃ g facets suffix,
      gauges st !! m = Some g ∧ k = resultKey q facets suffix ∧
      suffix ∈ (effective_submetrics q).*1 ∧
      gauge_Name g = "query_result_" +:+ metricName q suffix ∧
      gauge_Help g = "Result of an SQL query" ∧
      gauge_ConstLabels g = facet_labels facets ∧
      (∀ l, is_Some (facets !! l) → ToLower l = l).

(** The handles that the calls publish, and those they retire. *)
Definition published (cs : list call) : list handle :=
  omap (λ c, match c with MustRegister m => Some m | Unregister _ => None end) cs.

Definition retired (cs : list call) : list handle :=
  omap (λ c, match c with Unregister m => Some m | MustRegister _ => None end) cs.

(** No gauge is published or retired twice, none is published after it was
    retired, and the registry holds no retired gauge. *)
Definition call_order (st : state) : Prop :=
  wf st ∧
  (∀ m, Unregister m ∈ calls st ∨ MustRegister m ∈ calls st → m < length (gauges st)) ∧
  NoDup (published (calls st)) ∧ NoDup (retired (calls st)) ∧
  (∀ k m, Result st !! k = Some m → Unregister m ∉ calls st) ∧
  (∀ i j m, calls st !! i = Some (Unregister m) → calls st !! j = Some (MustRegister m) →
            j < i).

End Notions.

(** ** Notions for the loader and the worker *)

Section LoaderNotions.
Context `{GoFloat} `{!Loader.Host}.

(** A data source that [validateConfig] lets through. *)
Definition DataSource_ok (ds : Config.DataSource) : Prop :=
  Config.Driver ds ≠ EmptyString ∧ Config.Properties ds ≠ ∅.

(** The data source that a query refers to, by itself or by default. *)
Definition source_of (c : Config.Config) (q : Loader.Query) : string :=
  if decide (Loader.DataSourceRef q = EmptyString)
  then Config.DataSourceRef (Config.Defaults c) else Loader.DataSourceRef q.

(** An entry of a query file that [decodeQueries] accepts, when the
    defaults of the configuration are set. *)
Definition accepted (c : Config.Config) (e : string * Loader.Query) : Prop :=
  e.1 ≠ EmptyString ∧ Loader.SQL e.2 ≠ EmptyString ∧
  (Loader.Driver e.2 ≠ EmptyString ∨
   (source_of c e.2 ≠ EmptyString ∧
    ∃ ds, Config.DataSources c !! source_of c e.2 = Some ds ∧
          Config.Driver ds ≠ EmptyString)).

(** A query that [validateQuery] lets through. *)
Definition valid_query (q : Loader.Query) : Prop :=
  Loader.Name q ≠ EmptyString ∧ Loader.Driver q ≠ EmptyString ∧
  Loader.SQL q ≠ EmptyString ∧ Loader.Timeout q ≠ 0%Z ∧ Loader.Interval q ≠ 0%Z.

(** What [decodeQueries] returns went through [fill] and [validateQuery]. *)
Definition loaded (c : Config.Config) (q : Loader.Query) : Prop :=
  valid_query q ∧ ∃ k q0, q = Loader.fill c k q0.

(** The queries that one entry of the directory contributes. *)
Definition contribution (path : string) (c : Config.Config) (fn : string)
    : option (list Loader.Query) :=
  match Loader.Open (TrimRight path "/" +:+ "/" +:+ fn) with
  | Success file =>
      match Loader.decodeQueries file (Some c) with
      | Success q => Some q
      | _ => None
      end
  | _ => None
  end.

(** The entries of a directory that [loadQueriesInDir] reads. *)
Definition is_yml (fn : string) : Prop := HasSuffix fn ".yml" = true.

End LoaderNotions.

Section WorkerNotions.
Context `{GoFloat} `{!Agent}.

(** What a failed attempt does to the registry. *)
Definition placeholder (q : Loader.Query) (st : state) : state :=
  if decide (Loader.ValueOnError q ≠ EmptyString)
  then Worker_SetMetrics (Loader.registry q)
         [[("error", VString (Loader.ValueOnError q))]] st
  else st.



(** The record sets that a worker hands to its registry. *)
Definition round_of (q : Loader.Query) (recs : records) : Prop :=
  recs = [[("error", VString (Loader.ValueOnError q))]] ∨
  ∃ body, Decode body = Success recs.

End WorkerNotions.

(** ** Properties *)

Section Properties.
Context `{GoFloat}.
Implicit Types (q : Query) (st : state) (recs : records) (row : record)
  (fwr : gmap string metricStatus) (facet facets : gmap string value).

Lemma wf_NewQueryResult : wf NewQueryResult.
Proof. split; intros ?; intros; simplify_map_eq. Qed.

(** *** registerMetric *)

Lemma registerMetric_key q facets suffix st :
  (registerMetric q facets suffix st).1.1 = resultKey q facets suffix.
Proof. unfold registerMetric. by destruct (Result st !! _). Qed.

Lemma registerMetric_status q facets suffix st :
  (registerMetric q facets suffix st).1.2 =
  match Result st !! resultKey q facets suffix with
  | Some _ => registered
  | None => unregistered
  end.
Proof. unfold registerMetric. by destruct (Result st !! _). Qed.

Lemma registerMetric_present q facets suffix st m :
  Result st !! resultKey q facets suffix = Some m →
  registerMetric q facets suffix st = ((resultKey q facets suffix, registered), st).
Proof. unfold registerMetric. by intros ->. Qed.

Lemma registerMetric_absent q facets suffix st :
  Result st !! resultKey q facets suffix = None →
  registerMetric q facets suffix st =
  ((resultKey q facets suffix, unregistered),
   {| Result := <[resultKey q facets suffix := length (gauges st)]> (Result st);
      gauges := gauges st ++
        [NewGauge ("query_result_" +:+ metricName q suffix) "Result of an SQL query"
                  (facet_labels facets)];
      calls := calls st |}).
Proof. unfold registerMetric. by intros ->. Qed.

Lemma registerMetric_lookup q facets suffix st :
  is_Some (Result (registerMetric q facets suffix st).2 !! resultKey q facets suffix).
Proof.
  destruct (Result st !! resultKey q facets suffix) as [m|] eqn:E.
  - rewrite (registerMetric_present _ _ _ _ _ E). eauto.
  - rewrite (registerMetric_absent _ _ _ _ E). simpl. rewrite lookup_insert_eq. eauto.
Qed.

Lemma registerMetric_wf q facets suffix st :
  wf st → wf (registerMetric q facets suffix st).2.
Proof.
  intros [Hlt Hinj].
  destruct (Result st !! resultKey q facets suffix) as [m|] eqn:E.
  - rewrite (registerMetric_present _ _ _ _ _ E). by split.
  - rewrite (registerMetric_absent _ _ _ _ E). split; simpl.
    + intros k m. rewrite length_app. simpl. rewrite lookup_insert.
      case_decide; intros ?; simplify_eq; [lia|]. apply Hlt in H1. lia.
    + intros k1 k2 m. rewrite !lookup_insert.
      repeat case_decide; intros ??; simplify_eq; try done.
      * apply Hlt in H3. lia.
      * apply Hlt in H2. lia.
      * eauto.
Qed.

(** *** setValueForResult *)

Lemma setValueForResult_coerce (m : handle) (v : value) st :
  setValueForResult (Some m) v st =
  match coerce v with
  | Err e => (Some e, st)
  | Ok f => (None, {| Result := Result st; gauges := alter (Set_ f) m (gauges st);
                      calls := calls st |})
  end.
Proof. destruct v as [t|t|t|b|]; simpl; try done. by destruct (ParseFloat t). Qed.

(** *** One (row, sub-metric) pair *)

Lemma submetric_body_eq q subs row suffix df fwr st :
  submetric_body q subs row suffix df fwr st =
  match pair_plan subs (row, (suffix, df)) with
  | Err e => (Err e, st)
  | Ok (facet, v) =>
      let r := registerMetric q facet suffix st in
      match coerce v with
      | Err e => (Err e, r.2)
      | Ok f => (Ok (<[resultKey q facet suffix := r.1.2]> fwr),
                 set_series (resultKey q facet suffix) f r.2)
      end
  end.
Proof.
  unfold submetric_body, pair_plan. simpl.
  destruct (range_row _ _ _ _ _ _ _) as [[[facet v] found]|e]; [|done].
  destruct found; [|done].
  pose proof (registerMetric_key q facet suffix st) as Hk.
  pose proof (registerMetric_lookup q facet suffix st) as [m Hm].
  destruct (registerMetric q facet suffix st) as [[key status] st1] eqn:E.
  simpl in *. subst key. rewrite Hm, setValueForResult_coerce.
  unfold set_series. rewrite Hm. by destruct (coerce v).
Qed.

(** *** The loops over rows and sub-metrics are one loop over the pairs *)

Lemma range_pairs_app q subs ps1 ps2 fwr st :
  range_pairs q subs (ps1 ++ ps2) fwr st =
  match range_pairs q subs ps1 fwr st with
  | (Err e, st') => (Err e, st')
  | (Ok fwr', st') => range_pairs q subs ps2 fwr' st'
  end.
Proof.
  revert fwr st. induction ps1 as [|[row [suffix df]] ps1 IH]; intros fwr st; simpl; [done|].
  destruct (submetric_body _ _ _ _ _ _ _) as [[fwr'|e] st']; [apply IH|done].
Qed.

Lemma range_submetrics_pairs q subs row todo fwr st :
  range_submetrics q subs row todo fwr st =
  range_pairs q subs ((λ sd, (row, sd)) <$> todo) fwr st.
Proof.
  revert fwr st. induction todo as [|[suffix df] todo IH]; intros fwr st; simpl; [done|].
  destruct (submetric_body _ _ _ _ _ _ _) as [[fwr'|e] st']; [apply IH|done].
Qed.

Lemma range_recs_pairs q subs recs fwr st :
  range_recs q subs recs fwr st = range_pairs q subs (pairs subs recs) fwr st.
Proof.
  revert fwr st. induction recs as [|row recs IH]; intros fwr st; simpl; [done|].
  unfold pairs. simpl. rewrite range_pairs_app, range_submetrics_pairs.
  destruct (range_pairs _ _ _ _ _) as [[fwr'|e] st']; [apply IH|done].
Qed.

Lemma SetMetrics_eq q recs st :
  SetMetrics q recs st =
  match validation q recs with
  | Some e => (Err e, st)
  | None => range_pairs q (effective_submetrics q) (pairs (effective_submetrics q) recs) ∅ st
  end.
Proof.
  unfold SetMetrics, validation. repeat case_decide; try done. apply range_recs_pairs.
Qed.

(** *** What a pass of [SetMetrics] keeps, whether it fails or not *)

Lemma same_descriptor_refl g : same_descriptor g g.
Proof. by repeat split. Qed.

Lemma same_descriptor_trans g1 g2 g3 :
  same_descriptor g1 g2 → same_descriptor g2 g3 → same_descriptor g1 g3.
Proof. unfold same_descriptor. intros (?&?&?) (?&?&?). repeat split; congruence. Qed.

Lemma same_descriptor_Set f g : same_descriptor g (Set_ f g).
Proof. by repeat split. Qed.

Lemma same_descriptor_value_eq g g' :
  same_descriptor g g' → gauge_value g' = gauge_value g → g' = g.
Proof. destruct g, g'. unfold same_descriptor. simpl. intros (?&?&?) ?. by subst. Qed.

Lemma extends_refl st : extends st st.
Proof. repeat split; eauto using same_descriptor_refl. Qed.

Lemma extends_trans st1 st2 st3 : extends st1 st2 → extends st2 st3 → extends st1 st3.
Proof.
  intros (Hc1 & Hr1 & Hg1) (Hc2 & Hr2 & Hg2). split; [congruence|]. split; [eauto|].
  intros m g Hm. destruct (Hg1 _ _ Hm) as (g' & Hm' & Hd).
  destruct (Hg2 _ _ Hm') as (g'' & Hm'' & Hd'). eauto using same_descriptor_trans.
Qed.

Lemma registerMetric_extends q facets suffix st :
  extends st (registerMetric q facets suffix st).2.
Proof.
  destruct (Result st !! resultKey q facets suffix) as [m|] eqn:E.
  - rewrite (registerMetric_present _ _ _ _ _ E). apply extends_refl.
  - rewrite (registerMetric_absent _ _ _ _ E). split; [done|]. split; simpl.
    + intros k m Hk. rewrite lookup_insert_ne; [done|]. congruence.
    + intros m g Hm. exists g. split; [|apply same_descriptor_refl].
      by apply lookup_app_l_Some.
Qed.

Lemma set_series_gauges key f st i :
  gauges (set_series key f st) !! i =
  if decide (Result st !! key = Some i) then Set_ f <$> gauges st !! i else gauges st !! i.
Proof.
  unfold set_series. simpl. destruct (Result st !! key) as [m|] eqn:E.
  - case_decide; simplify_eq.
    + by rewrite list_lookup_alter_eq.
    + rewrite list_lookup_alter_ne; [done|]. intros ->. done.
  - by case_decide.
Qed.

Lemma set_series_length key f st :
  length (gauges (set_series key f st)) = length (gauges st).
Proof. unfold set_series. simpl. destruct (Result st !! key); by rewrite ?length_alter. Qed.

Lemma set_series_extends key f st : extends st (set_series key f st).
Proof.
  split; [done|]. split; [done|]. intros m g Hm. rewrite set_series_gauges, Hm.
  case_decide; eauto using same_descriptor_refl, same_descriptor_Set.
Qed.

Lemma set_series_wf key f st : wf st → wf (set_series key f st).
Proof. intros [Hlt Hinj]. split; [|done]. intros k m. rewrite set_series_length. apply Hlt. Qed.

Lemma submetric_body_frame q subs row suffix df fwr st r st' :
  submetric_body q subs row suffix df fwr st = (r, st') →
  wf st → wf st' ∧ extends st st'.
Proof.
  rewrite submetric_body_eq. destruct (pair_plan _ _) as [[facet v]|e]; simpl.
  - destruct (coerce v); intros [= <- <-] Hwf.
    + split; [by apply set_series_wf, registerMetric_wf|].
      eapply extends_trans; [apply registerMetric_extends|apply set_series_extends].
    + split; [by apply registerMetric_wf|apply registerMetric_extends].
  - intros [= <- <-] Hwf. split; [done|apply extends_refl].
Qed.

Lemma range_pairs_frame q subs ps fwr st r st' :
  range_pairs q subs ps fwr st = (r, st') →
  wf st → wf st' ∧ extends st st'.
Proof.
  revert fwr st. induction ps as [|[row [suffix df]] ps IH]; intros fwr st; simpl.
  - intros [= <- <-] ?. split; [done|apply extends_refl].
  - destruct (submetric_body _ _ _ _ _ _ _) as [[fwr1|e] st1] eqn:E; intros Hr Hwf.
    + destruct (submetric_body_frame _ _ _ _ _ _ _ _ _ E Hwf) as [Hwf1 Hext1].
      destruct (IH _ _ Hr Hwf1) as [Hwf' Hext']. eauto using extends_trans.
    + simplify_eq. eapply submetric_body_frame; eauto.
Qed.

Lemma SetMetrics_frame q recs st r st' :
  SetMetrics q recs st = (r, st') → wf st → wf st' ∧ extends st st'.
Proof.
  rewrite SetMetrics_eq. destruct (validation q recs).
  - intros [= <- <-] ?. split; [done|apply extends_refl].
  - apply range_pairs_frame.
Qed.

(** *** The value a successful pass leaves in each series *)

Lemma registerMetric_Result_ne q facets suffix st k :
  k ≠ resultKey q facets suffix →
  Result (registerMetric q facets suffix st).2 !! k = Result st !! k.
Proof.
  intros Hk. destruct (Result st !! resultKey q facets suffix) as [m|] eqn:E.
  - by rewrite (registerMetric_present _ _ _ _ _ E).
  - rewrite (registerMetric_absent _ _ _ _ E). simpl. by rewrite lookup_insert_ne.
Qed.

(** A pair that succeeds: its facet, value and float, and the state it
    leaves. *)
Lemma submetric_body_Ok q subs row suffix df fwr st fwr' st' :
  submetric_body q subs row suffix df fwr st = (Ok fwr', st') →
  ∃ facet v f,
    pair_plan subs (row, (suffix, df)) = Ok (facet, v) ∧ coerce v = Ok f ∧
    fwr' = <[resultKey q facet suffix := (registerMetric q facet suffix st).1.2]> fwr ∧
    st' = set_series (resultKey q facet suffix) f (registerMetric q facet suffix st).2.
Proof.
  rewrite submetric_body_eq. destruct (pair_plan _ _) as [[facet v]|e]; [|done]. simpl.
  destruct (coerce v) as [f|e] eqn:Ev; [|done]. intros [= <- <-]. by exists facet, v, f.
Qed.

Lemma pair_step_set q facet suffix f st :
  wf st →
  let st' := set_series (resultKey q facet suffix) f (registerMetric q facet suffix st).2 in
  ∃ m g, Result st' !! resultKey q facet suffix = Some m ∧
         gauges st' !! m = Some g ∧ gauge_value g = f.
Proof.
  intros Hwf st'. destruct (registerMetric_lookup q facet suffix st) as [m Hm].
  destruct (registerMetric_wf q facet suffix st Hwf) as [Hlt _].
  destruct (lookup_lt_is_Some_2 _ _ (Hlt _ _ Hm)) as [g Hg].
  exists m, (Set_ f g). split; [done|]. subst st'. rewrite set_series_gauges.
  rewrite decide_True by done. by rewrite Hg.
Qed.

Lemma pair_step_other q facet suffix f st i g g' :
  let st' := set_series (resultKey q facet suffix) f (registerMetric q facet suffix st).2 in
  gauges st !! i = Some g → gauges st' !! i = Some g' →
  gauge_value g' = gauge_value g ∨
  (Result st' !! resultKey q facet suffix = Some i ∧ gauge_value g' = f).
Proof.
  intros st' Hg. subst st'. rewrite set_series_gauges.
  destruct (registerMetric_extends q facet suffix st) as (_ & _ & Hgs).
  destruct (Hgs _ _ Hg) as (g1 & Hg1 & _).
  assert (g1 = g) as ->.
  { destruct (Result st !! resultKey q facet suffix) as [m|] eqn:E.
    - rewrite (registerMetric_present _ _ _ _ _ E) in Hg1. simpl in Hg1. congruence.
    - rewrite (registerMetric_absent _ _ _ _ E) in Hg1. simpl in Hg1.
      rewrite lookup_app_l in Hg1 by (by eapply lookup_lt_Some). congruence. }
  rewrite Hg1. case_decide; intros [= <-]; [right|left]; done.
Qed.

Lemma pair_key_plan q subs p facet v :
  pair_plan subs p = Ok (facet, v) → pair_key q subs p = Some (resultKey q facet p.2.1).
Proof. unfold pair_key. by intros ->. Qed.

Lemma pair_float_plan subs p facet v f :
  pair_plan subs p = Ok (facet, v) → coerce v = Ok f → pair_float subs p = Some f.
Proof. unfold pair_float. by intros -> ->. Qed.

Lemma range_pairs_values q subs ps fwr st fwr' st' :
  wf st → range_pairs q subs ps fwr st = (Ok fwr', st') →
  (∀ k m f g, Result st' !! k = Some m → last_float q subs ps k = Some f →
              gauges st' !! m = Some g → gauge_value g = f) ∧
  (∀ m g g', gauges st !! m = Some g → gauges st' !! m = Some g' →
             gauge_value g' = gauge_value g ∨
             ∃ k f, Result st' !! k = Some m ∧ last_float q subs ps k = Some f ∧
                    gauge_value g' = f).
Proof.
  revert fwr st. induction ps as [|[row [suffix df]] ps IH]; intros fwr st Hwf; simpl.
  { intros [= <- <-]. split; [done|]. intros m g g' ??. left. congruence. }
  destruct (submetric_body _ _ _ _ _ _ _) as [[fwr1|e] st1] eqn:E; [|done]. intros Hr.
  destruct (submetric_body_frame _ _ _ _ _ _ _ _ _ E Hwf) as [Hwf1 (_ & _ & Hext1)].
  destruct (range_pairs_frame _ _ _ _ _ _ _ Hr Hwf1) as [Hwf' (_ & Hres' & _)].
  destruct (IH _ _ Hwf1 Hr) as [IH1 IH2].
  apply submetric_body_Ok in E as (facet & v & f & Hplan & Hv & -> & Est1).
  pose proof (pair_key_plan q subs _ _ _ Hplan) as Hkey. simpl in Hkey.
  pose proof (pair_float_plan subs _ _ _ _ Hplan Hv) as Hfl.
  destruct (pair_step_set q facet suffix f st Hwf) as (m0 & g0 & Hm0 & Hg0 & Hf0).
  rewrite <-Est1 in Hm0, Hg0.
  assert (∀ k m f' g, Result st' !! k = Some m →
    last_float q subs ((row, (suffix, df)) :: ps) k = Some f' →
    gauges st' !! m = Some g → gauge_value g = f') as V1.
  { intros k m f' g Hk Hl Hg. simpl in Hl.
    destruct (last_float q subs ps k) as [f2|] eqn:El; [simplify_eq; eauto|].
    case_decide as Hd; [|done]. rewrite Hkey in Hd. simplify_eq.
    apply Hres' in Hm0 as Hm0'. simplify_eq.
    destruct (IH2 _ _ _ Hg0 Hg) as [->|(k2 & f2 & Hk2 & Hl2 & _)]; [done|].
    destruct Hwf' as [_ Hinj]. rewrite (Hinj _ _ _ Hk2 Hk) in Hl2. congruence. }
  split; [done|]. intros m g g' Hg Hg'.
  destruct (Hext1 _ _ Hg) as (g1 & Hg1 & _).
  pose proof (pair_step_other q facet suffix f st m g g1 Hg) as Hstep.
  rewrite <-Est1 in Hstep. specialize (Hstep Hg1).
  destruct (IH2 _ _ _ Hg1 Hg') as [Hsame|(k2 & f2 & Hk2 & Hl2 & Hv2)].
  - destruct Hstep as [Hsame1|[Hm Hv1]]; [left; congruence|]. right.
    exists (resultKey q facet suffix). apply Hres' in Hm.
    destruct (last_float q subs ((row, (suffix, df)) :: ps) (resultKey q facet suffix))
      as [f3|] eqn:El.
    + exists f3. split; [done|]. split; [done|]. eauto.
    + simpl in El. destruct (last_float q subs ps _); [done|].
      rewrite decide_True in El by done. congruence.
  - right. exists k2, f2. simpl. rewrite Hl2. done.
Qed.

(** *** The keys and the statuses a successful pass records *)

Lemma produced_cons q subs p ps k :
  produced q subs (p :: ps) k ↔ pair_key q subs p = Some k ∨ produced q subs ps k.
Proof.
  unfold produced. split.
  - intros (p' & Hin & Hk). apply elem_of_cons in Hin as [->|Hin]; eauto.
  - intros [Hk|(p' & Hin & Hk)]; [exists p|exists p']; split; auto; by constructor.
Qed.

Lemma produced_nil q subs k : ¬ produced q subs [] k.
Proof. intros (p & Hin & _). by apply not_elem_of_nil in Hin. Qed.

Lemma range_pairs_keys q subs ps fwr st fwr' st' :
  wf st → range_pairs q subs ps fwr st = (Ok fwr', st') →
  Forall (λ p, is_Some (pair_key q subs p) ∧ is_Some (pair_float subs p)) ps ∧
  (∀ k, is_Some (Result st' !! k) ↔ is_Some (Result st !! k) ∨ produced q subs ps k) ∧
  (∀ k, is_Some (fwr' !! k) ↔ is_Some (fwr !! k) ∨ produced q subs ps k) ∧
  (∀ k, ¬ produced q subs ps k → fwr' !! k = fwr !! k) ∧
  (∀ k, produced q subs ps k → fwr' !! k = Some unregistered → Result st !! k = None).
Proof.
  revert fwr st. induction ps as [|[row [suffix df]] ps IH]; intros fwr st Hwf; simpl.
  { intros [= <- <-]. pose proof (produced_nil q subs) as Hnil. split; [constructor|].
    split; [|split; [|split]]; try naive_solver. }
  destruct (submetric_body _ _ _ _ _ _ _) as [[fwr1|e] st1] eqn:E; [|done]. intros Hr.
  destruct (submetric_body_frame _ _ _ _ _ _ _ _ _ E Hwf) as [Hwf1 (_ & Hres1 & _)].
  destruct (IH _ _ Hwf1 Hr) as (IHa & IHr & IHf & IHn & IHu).
  apply submetric_body_Ok in E as (facet & v & f & Hplan & Hv & -> & Est1).
  pose proof (pair_key_plan q subs _ _ _ Hplan) as Hkey. simpl in Hkey.
  pose proof (pair_float_plan subs _ _ _ _ Hplan Hv) as Hfl.
  set (key := resultKey q facet suffix) in *.
  assert (∀ k, is_Some (Result st1 !! k) ↔ is_Some (Result st !! k) ∨ k = key) as Hst1.
  { intros k. rewrite Est1. simpl. destruct (decide (k = key)) as [->|Hne].
    - split; [auto|]. intros _. apply registerMetric_lookup.
    - rewrite registerMetric_Result_ne by done. naive_solver. }
  split; [constructor; [rewrite Hkey, Hfl; eauto|done]|].
  split; [|split; [|split]].
  - intros k. rewrite IHr, Hst1, produced_cons, Hkey. naive_solver.
  - intros k. rewrite IHf, produced_cons, Hkey. rewrite lookup_insert.
    case_decide; subst; split; intros; try naive_solver; left; eauto.
  - intros k Hnp. rewrite produced_cons, Hkey in Hnp.
    rewrite IHn by tauto. rewrite lookup_insert_ne; [done|]. intros <-. tauto.
  - intros k Hp Hu. destruct (decide (produced q subs ps k)) as [Hps|Hps].
    + specialize (IHu _ Hps Hu). destruct (Result st !! k) eqn:Ek; [|done].
      apply Hres1 in Ek. congruence.
    + rewrite IHn in Hu by done. apply produced_cons in Hp as [Hp|?]; [|done].
      rewrite Hkey in Hp. simplify_eq. rewrite lookup_insert_eq in Hu.
      rewrite registerMetric_status in Hu. by destruct (Result st !! _).
Qed.

(** A pass whose keys are all in the registry creates nothing. *)
Lemma range_pairs_no_creation q subs ps fwr st fwr' st' :
  (∀ k, produced q subs ps k → is_Some (Result st !! k)) →
  range_pairs q subs ps fwr st = (Ok fwr', st') →
  Result st' = Result st ∧ length (gauges st') = length (gauges st).
Proof.
  revert fwr st. induction ps as [|[row [suffix df]] ps IH]; intros fwr st Hall; simpl.
  { by intros [= <- <-]. }
  destruct (submetric_body _ _ _ _ _ _ _) as [[fwr1|e] st1] eqn:E; [|done]. intros Hr.
  apply submetric_body_Ok in E as (facet & v & f & Hplan & Hv & -> & Est1).
  pose proof (pair_key_plan q subs _ _ _ Hplan) as Hkey. simpl in Hkey.
  destruct (Hall (resultKey q facet suffix)) as [m Hm].
  { apply produced_cons. by left. }
  rewrite (registerMetric_present _ _ _ _ _ Hm) in Est1. simpl in Est1.
  assert (Result st1 = Result st) as HR by (by subst st1).
  assert (length (gauges st1) = length (gauges st)) as HL.
  { subst st1. apply set_series_length. }
  assert (∀ k, produced q subs ps k → is_Some (Result st1 !! k)) as Hall1.
  { intros k Hk. rewrite HR. apply Hall, produced_cons. by right. }
  destruct (IH _ _ Hall1 Hr) as [-> ->]. done.
Qed.

(** *** RegisterMetrics *)

Lemma RegisterMetrics_step_eq fwr st (d : list handle) k m :
  RegisterMetrics_step fwr (st, d) (k, m) =
  match fwr !! k with
  | None =>
      ({| Result := delete k (Result st); gauges := gauges st;
          calls := calls st ++ [Unregister m] |}, d)
  | Some unregistered => (st, m :: d)
  | Some registered => (st, d)
  end.
Proof. done. Qed.

Lemma RegisterMetrics_loop fwr (l : list (string * handle)) st d :
  foldl (RegisterMetrics_step fwr) (st, d) l =
  ({| Result := foldl (λ R e, match fwr !! e.1 with
                              | None => delete e.1 R
                              | Some _ => R
                              end) (Result st) l;
      gauges := gauges st;
      calls := calls st ++
        ((λ e, Unregister e.2) <$> filter (λ e, fwr !! e.1 = None) l) |},
   reverse (snd <$> filter (λ e, fwr !! e.1 = Some unregistered) l) ++ d).
Proof.
  revert st d. induction l as [|[k m] l IH]; intros st d.
  { simpl. rewrite app_nil_r. by destruct st. }
  change (foldl (RegisterMetrics_step fwr) (st, d) ((k, m) :: l))
    with (foldl (RegisterMetrics_step fwr) (RegisterMetrics_step fwr (st, d) (k, m)) l).
  rewrite RegisterMetrics_step_eq.
  destruct (fwr !! k) as [[]|] eqn:Ek; rewrite IH; simpl.
  - rewrite !filter_cons. simpl. rewrite Ek.
    rewrite decide_False by done. rewrite decide_False by done. done.
  - rewrite !filter_cons. simpl. rewrite Ek.
    rewrite decide_False by done. rewrite decide_True by done. simpl.
    rewrite reverse_cons, <-app_assoc. done.
  - rewrite !filter_cons. simpl. rewrite Ek.
    rewrite decide_True by done. rewrite decide_False by done. simpl.
    rewrite <-app_assoc. done.
Qed.

Lemma retire_lookup fwr (l : list (string * handle)) (R : gmap string handle) k :
  foldl (λ R e, match fwr !! e.1 with
                | None => delete e.1 R
                | Some _ => R
                end) R l !! k =
  if decide (fwr !! k = None ∧ k ∈ l.*1) then None else R !! k.
Proof.
  revert R. induction l as [|[k' m] l IH]; intros R; simpl.
  { rewrite decide_False; [done|]. intros [_ ?%not_elem_of_nil]. done. }
  rewrite IH. destruct (fwr !! k') eqn:Ek'.
  - repeat case_decide; try done.
    + exfalso. destruct H0 as [? Hin]. apply H1. split; [done|]. by right.
    + exfalso. destruct H1 as [? Hin]. apply elem_of_cons in Hin as [->|?]; [congruence|].
      apply H0. done.
  - repeat case_decide; try done.
    + exfalso. destruct H0 as [? Hin]. apply H1. split; [done|]. by right.
    + destruct H1 as [? Hin]. apply elem_of_cons in Hin as [->|?]; [|tauto].
      apply lookup_delete_eq.
    + apply lookup_delete_ne. intros ->. apply H1. split; [done|]. by left.
Qed.

Lemma RegisterMetrics_spec fwr st :
  let st' := RegisterMetrics fwr st in
  gauges st' = gauges st ∧
  (∀ k, Result st' !! k = match fwr !! k with
                          | None => None
                          | Some _ => Result st !! k
                          end) ∧
  ∃ cs, calls st' = calls st ++ cs ∧
    (∀ m, Unregister m ∈ cs ↔ ∃ k, Result st !! k = Some m ∧ fwr !! k = None) ∧
    (∀ m, MustRegister m ∈ cs ↔
          ∃ k, Result st !! k = Some m ∧ fwr !! k = Some unregistered).
Proof.
  unfold RegisterMetrics. rewrite RegisterMetrics_loop. simpl. rewrite app_nil_r.
  split; [done|]. split.
  - intros k. rewrite retire_lookup. destruct (fwr !! k) eqn:Ek.
    + rewrite decide_False; [done|]. by intros [? _].
    + case_decide as Hd; [done|]. destruct (Result st !! k) as [m|] eqn:Em; [|done].
      exfalso. apply Hd. split; [done|]. apply list_elem_of_fmap.
      exists (k, m). split; [done|]. by apply elem_of_map_to_list.
  - eexists. split; [by rewrite <-app_assoc|]. split; intros m.
    + rewrite elem_of_app. split.
      * intros [Hin|Hin].
        -- apply list_elem_of_fmap in Hin as ([k m'] & [= ->] & Hin).
           apply list_elem_of_filter in Hin as [Hf Hin]. simpl in Hf.
           apply elem_of_map_to_list in Hin. eauto.
        -- apply list_elem_of_fmap in Hin as (? & ? & _). done.
      * intros (k & Hk & Hf). left. apply list_elem_of_fmap. exists (k, m).
        split; [done|]. apply list_elem_of_filter. split; [done|].
        by apply elem_of_map_to_list.
    + rewrite elem_of_app. split.
      * intros [Hin|Hin].
        -- apply list_elem_of_fmap in Hin as (? & ? & _). done.
        -- apply list_elem_of_fmap in Hin as (m' & [= ->] & Hin).
           apply elem_of_reverse, list_elem_of_fmap in Hin as ([k m2] & -> & Hin).
           apply list_elem_of_filter in Hin as [Hf Hin]. simpl in Hf.
           apply elem_of_map_to_list in Hin. eauto.
      * intros (k & Hk & Hf). right. apply list_elem_of_fmap. exists m.
        split; [done|]. apply elem_of_reverse, list_elem_of_fmap. exists (k, m).
        split; [done|]. apply list_elem_of_filter. split; [done|].
        by apply elem_of_map_to_list.
Qed.

(** *** Where a failing pass stops *)

Lemma range_pairs_Err q subs ps fwr st e st2 :
  range_pairs q subs ps fwr st = (Err e, st2) →
  ∃ ps1 p ps2 fwr1 st1,
    ps = ps1 ++ p :: ps2 ∧
    range_pairs q subs ps1 fwr st = (Ok fwr1, st1) ∧
    submetric_body q subs p.1 p.2.1 p.2.2 fwr1 st1 = (Err e, st2).
Proof.
  revert fwr st. induction ps as [|[row [suffix df]] ps IH]; intros fwr st; simpl; [done|].
  destruct (submetric_body _ _ _ _ _ _ _) as [[fwr1|e1] st1] eqn:E.
  - intros Hr. destruct (IH _ _ Hr) as (ps1 & p & ps2 & fwr2 & st3 & -> & Hps1 & Hp).
    exists ((row, (suffix, df)) :: ps1), p, ps2, fwr2, st3. simpl. by rewrite E.
  - intros [= <- <-]. by exists [], (row, (suffix, df)), ps, fwr, st.
Qed.

Lemma range_pairs_stops q subs ps1 p ps2 fwr st fwr1 st1 e st2 :
  range_pairs q subs ps1 fwr st = (Ok fwr1, st1) →
  submetric_body q subs p.1 p.2.1 p.2.2 fwr1 st1 = (Err e, st2) →
  range_pairs q subs (ps1 ++ p :: ps2) fwr st = (Err e, st2).
Proof.
  intros H1 H2. rewrite range_pairs_app, H1. destruct p as [row [suffix df]]. simpl in *.
  by rewrite H2.
Qed.

Lemma submetric_body_Err q subs row suffix df fwr st e st' :
  submetric_body q subs row suffix df fwr st = (Err e, st') →
  (pair_plan subs (row, (suffix, df)) = Err e ∧ st' = st) ∨
  (∃ facet v, pair_plan subs (row, (suffix, df)) = Ok (facet, v) ∧ coerce v = Err e ∧
              st' = (registerMetric q facet suffix st).2).
Proof.
  rewrite submetric_body_eq. destruct (pair_plan _ _) as [[facet v]|e1]; simpl.
  - destruct (coerce v) eqn:Ev; [done|]. intros [= <- <-]. right. by exists facet, v.
  - intros [= <- <-]. by left.
Qed.

(** *** The columns of a row *)

Lemma range_row_spec n df subs cols facet dv found :
  range_row n df subs cols facet dv found =
  match filter (λ kv, is_value_column n df kv.1) cols with
  | [] => Ok (row_facet n df subs cols facet, dv, found)
  | kv :: rest =>
      if found then Err ErrDataFieldNotSpecified
      else match rest with
           | [] => Ok (row_facet n df subs cols facet, kv.2, true)
           | _ :: _ => Err ErrDataFieldNotSpecified
           end
  end.
Proof.
  revert facet dv found. induction cols as [|[k v] cols IH]; intros facet dv found; [done|].
  rewrite filter_cons. cbn [range_row row_facet foldl fst snd].
  destruct (decide (1 < n ∧ ToLower k ≠ df)) as [Hf|Hv].
  - rewrite !(decide_False (P := is_value_column n df k))
      by (unfold is_value_column; tauto).
    destruct (is_submetric subs k); apply IH.
  - rewrite !(decide_True (P := is_value_column n df k)) by done.
    destruct found; [done|]. rewrite IH.
    by destruct (filter _ cols).
Qed.

Lemma pair_plan_spec subs row suffix df :
  pair_plan subs (row, (suffix, df)) =
  match value_columns df row with
  | [] => Err ErrDataFieldNotFound
  | [kv] => Ok (row_facet (length row) df subs row ∅, kv.2)
  | _ :: _ :: _ => Err ErrDataFieldNotSpecified
  end.
Proof.
  unfold pair_plan, value_columns. simpl. rewrite range_row_spec.
  by destruct (filter _ row) as [|kv [|kv' rest]].
Qed.

Lemma range_pairs_plans q subs ps fwr st fwr' st' :
  range_pairs q subs ps fwr st = (Ok fwr', st') →
  Forall (λ p, ∃ facet v f, pair_plan subs p = Ok (facet, v) ∧ coerce v = Ok f) ps.
Proof.
  revert fwr st. induction ps as [|[row [suffix df]] ps IH]; intros fwr st; simpl.
  { constructor. }
  destruct (submetric_body _ _ _ _ _ _ _) as [[fwr1|e] st1] eqn:E; [|done]. intros Hr.
  apply submetric_body_Ok in E as (facet & v & f & Hplan & Hv & _).
  constructor; eauto.
Qed.

Lemma elem_of_pairs subs recs row sd :
  (row, sd) ∈ pairs subs recs ↔ row ∈ recs ∧ sd ∈ subs.
Proof.
  unfold pairs. rewrite list_elem_of_bind. split.
  - intros (row' & Hin & Hrow). apply list_elem_of_fmap in Hin as (sd' & [= -> ->] & Hsd).
    done.
  - intros [Hrow Hsd]. exists row. split; [|done]. apply list_elem_of_fmap. eauto.
Qed.

Lemma validation_Some_state q recs st e :
  validation q recs = Some e → SetMetrics q recs st = (Err e, st).
Proof. rewrite SetMetrics_eq. by intros ->. Qed.

Lemma jsonData_empty : jsonData ∅ = "{}".
Proof. reflexivity. Qed.

(** *** The claims on the structural checks *)

(** C3. A record set of more than one row whose first row has exactly one
    column makes [SetMetrics] fail with the error on several rows and a
    single column, and the state is the one it was called in: no entry was
    created and no gauge was set. *)
Theorem SetMetrics_multiple_rows_single_column q row recs st :
  length row = 1 → recs ≠ [] →
  SetMetrics q (row :: recs) st = (Err ErrMultipleRowsSingleColumn, st) ∧
  error_text ErrMultipleRowsSingleColumn =
    "There is more than one row in the query result - with a single column".
Proof.
  intros Hrow Hrecs. split; [|done]. unfold SetMetrics. rewrite decide_True; [done|].
  simpl. split; [|done]. destruct recs; [done|]. simpl. lia.
Qed.

(** C5. When both [DataField] and [SubMetrics] are set, [SetMetrics] fails
    and leaves the state as it was; when [SubMetrics] is empty, the
    sub-metric map the loops run over is the single pair of the empty
    suffix and [DataField]. *)
Theorem SetMetrics_data_field_excludes_sub_metrics q recs st :
  (DataField q ≠ EmptyString → SubMetrics q ≠ [] →
   ∃ e, SetMetrics q recs st = (Err e, st) ∧
        (e = ErrMultipleRowsSingleColumn ∨ e = ErrSubMetricsWithDataField) ∧
        (¬ (1 < length recs ∧ length (default [] (recs !! 0)) = 1) →
         e = ErrSubMetricsWithDataField)) ∧
  (SubMetrics q = [] →
   effective_submetrics q = [(EmptyString, DataField q)] ∧
   (validation q recs = None →
    SetMetrics q recs st = range_recs q [(EmptyString, DataField q)] recs ∅ st)).
Proof.
  split.
  - intros Hdf Hsub. unfold SetMetrics.
    destruct (decide (1 < length recs ∧ length (default [] (recs !! 0)) = 1)).
    + exists ErrMultipleRowsSingleColumn. split; [done|]. split; [by left|done].
    + rewrite decide_True.
      * exists ErrSubMetricsWithDataField. split; [done|]. split; [by right|done].
      * split; [done|]. destruct (SubMetrics q); [done|]. simpl. lia.
  - intros Hsub. assert (effective_submetrics q = [(EmptyString, DataField q)]) as Heff.
    { unfold effective_submetrics. by rewrite Hsub. }
    split; [done|]. unfold validation, SetMetrics. rewrite Heff.
    repeat case_decide; done.
Qed.

(** C9. A record set of one row with one column, under the default
    sub-metric map: the column is the value column of the empty-suffix
    sub-metric whatever its name, the facet is empty, the key is the query
    name followed by the encoding of the empty map, and the gauge that is
    created carries no label. *)
Theorem SetMetrics_single_cell q k v st :
  SubMetrics q = [] →
  pair_plan (effective_submetrics q) ([(k, v)], (EmptyString, DataField q)) = Ok (∅, v) ∧
  resultKey q ∅ EmptyString = Name q +:+ "{}" ∧
  facet_labels ∅ = ∅ ∧
  SetMetrics q [[(k, v)]] st =
    (let r := registerMetric q ∅ EmptyString st in
     match coerce v with
     | Err e => (Err e, r.2)
     | Ok f => (Ok {[resultKey q ∅ EmptyString := r.1.2]},
                set_series (resultKey q ∅ EmptyString) f r.2)
     end) ∧
  (Result st !! (Name q +:+ "{}") = None →
   ∃ g, gauges (SetMetrics q [[(k, v)]] st).2 !! length (gauges st) = Some g ∧
        Result (SetMetrics q [[(k, v)]] st).2 !! (Name q +:+ "{}") = Some (length (gauges st)) ∧
        gauge_Name g = "query_result_" +:+ Name q ∧
        gauge_ConstLabels g = ∅).
Proof.
  intros Hsub.
  assert (effective_submetrics q = [(EmptyString, DataField q)]) as Heff.
  { unfold effective_submetrics. by rewrite Hsub. }
  assert (pair_plan (effective_submetrics q) ([(k, v)], (EmptyString, DataField q))
          = Ok (∅, v)) as Hplan.
  { by unfold pair_plan. }
  assert (resultKey q ∅ EmptyString = Name q +:+ "{}") as Hkey.
  { unfold resultKey, metricName. rewrite decide_True by done. by rewrite jsonData_empty. }
  assert (SetMetrics q [[(k, v)]] st =
    (let r := registerMetric q ∅ EmptyString st in
     match coerce v with
     | Err e => (Err e, r.2)
     | Ok f => (Ok {[resultKey q ∅ EmptyString := r.1.2]},
                set_series (resultKey q ∅ EmptyString) f r.2)
     end)) as Hset.
  { unfold SetMetrics. rewrite decide_False by (simpl; lia).
    rewrite decide_False by (rewrite Hsub; simpl; lia).
    rewrite Heff. simpl. rewrite submetric_body_eq, <-Heff, Hplan. simpl.
    by destruct (coerce v). }
  split; [done|]. split; [done|]. split; [apply fmap_empty|]. split; [done|].
  intros Hnone. rewrite Hset. simpl. rewrite <-Hkey in Hnone.
  rewrite (registerMetric_absent _ _ _ _ Hnone). rewrite <-Hkey.
  destruct (coerce v) as [f|e]; simpl.
  - rewrite !lookup_insert_eq. eexists. split.
    + rewrite list_lookup_alter_eq, lookup_app_r, Nat.sub_diag by lia. done.
    + split; [done|]. simpl. unfold metricName. rewrite decide_True by done.
      split; [done|]. apply fmap_empty.
  - rewrite !lookup_insert_eq. eexists. split.
    + rewrite lookup_app_r, Nat.sub_diag by lia. done.
    + split; [done|]. simpl. unfold metricName. rewrite decide_True by done.
      split; [done|]. apply fmap_empty.
Qed.

Lemma submetric_body_extends q subs row suffix df fwr st r st' :
  submetric_body q subs row suffix df fwr st = (r, st') → extends st st'.
Proof.
  rewrite submetric_body_eq. destruct (pair_plan _ _) as [[facet v]|e]; simpl.
  - destruct (coerce v); intros [= <- <-].
    + eapply extends_trans; [apply registerMetric_extends|apply set_series_extends].
    + apply registerMetric_extends.
  - intros [= <- <-]. apply extends_refl.
Qed.

Lemma range_pairs_extends q subs ps fwr st r st' :
  range_pairs q subs ps fwr st = (r, st') → extends st st'.
Proof.
  revert fwr st. induction ps as [|[row [suffix df]] ps IH]; intros fwr st; simpl.
  - intros [= <- <-]. apply extends_refl.
  - destruct (submetric_body _ _ _ _ _ _ _) as [[fwr1|e] st1] eqn:E; intros Hr.
    + eapply extends_trans; [by eapply submetric_body_extends|by eapply IH].
    + simplify_eq. by eapply submetric_body_extends.
Qed.

Lemma SetMetrics_extends q recs st r st' :
  SetMetrics q recs st = (r, st') → extends st st'.
Proof.
  rewrite SetMetrics_eq. destruct (validation q recs).
  - intros [= <- <-]. apply extends_refl.
  - apply range_pairs_extends.
Qed.

Lemma gauge_Set_sets m g f st :
  gauges st !! m = Some g → sets_gauge m f st (gauge_Set (Some m) f st).
Proof.
  intros Hg. unfold sets_gauge. simpl. rewrite length_alter.
  repeat split; try done.
  - by rewrite list_lookup_alter_eq, Hg.
  - intros i Hi. by rewrite list_lookup_alter_ne.
Qed.

(** *** The claims on the value column and its coercion *)

(** C4. For a row and a sub-metric, a column is taken as the value column
    when the row has exactly one column or the lower-cased name of the
    column is the value column of the sub-metric. With no such column the
    pair fails with the error that the data field was not found, with more
    than one with the error that it is not specified; and a record set that
    holds such a pair makes [SetMetrics] return an error, which is the
    error of that pair when the pairs before it went through. *)
Theorem SetMetrics_exactly_one_value_column q recs st row suffix df :
  (∀ k v, (k, v) ∈ row →
     is_value_column (length row) df k ↔ length row = 1 ∨ ToLower k = df) ∧
  (∀ fwr st0, value_columns df row = [] →
     submetric_body q (effective_submetrics q) row suffix df fwr st0 =
     (Err ErrDataFieldNotFound, st0)) ∧
  (∀ fwr st0, 1 < length (value_columns df row) →
     submetric_body q (effective_submetrics q) row suffix df fwr st0 =
     (Err ErrDataFieldNotSpecified, st0)) ∧
  (row ∈ recs → (suffix, df) ∈ effective_submetrics q →
   length (value_columns df row) ≠ 1 →
   ∃ e st', SetMetrics q recs st = (Err e, st')) ∧
  (∀ ps1 ps2 fwr1 st1,
     validation q recs = None →
     pairs (effective_submetrics q) recs = ps1 ++ (row, (suffix, df)) :: ps2 →
     range_pairs q (effective_submetrics q) ps1 ∅ st = (Ok fwr1, st1) →
     length (value_columns df row) ≠ 1 →
     SetMetrics q recs st =
     (Err (if decide (value_columns df row = []) then ErrDataFieldNotFound
           else ErrDataFieldNotSpecified), st1)) ∧
  error_text ErrDataFieldNotFound = "Data field not found in result set" ∧
  error_text ErrDataFieldNotSpecified = "Data field not specified for multi-column query".
Proof.
  assert (∀ fwr st0, value_columns df row = [] →
     submetric_body q (effective_submetrics q) row suffix df fwr st0 =
     (Err ErrDataFieldNotFound, st0)) as Hnone.
  { intros fwr st0 Hv. by rewrite submetric_body_eq, pair_plan_spec, Hv. }
  assert (∀ fwr st0, 1 < length (value_columns df row) →
     submetric_body q (effective_submetrics q) row suffix df fwr st0 =
     (Err ErrDataFieldNotSpecified, st0)) as Hmany.
  { intros fwr st0 Hv. rewrite submetric_body_eq, pair_plan_spec.
    destruct (value_columns df row) as [|kv [|kv' rest]]; simpl in Hv; [lia..|done]. }
  split; [|split; [done|split; [done|split; [|split; [|done]]]]].
  - intros k v Hin. unfold is_value_column.
    assert (0 < length row).
    { destruct row; [by apply not_elem_of_nil in Hin|simpl; lia]. }
    destruct (decide (ToLower k = df)); [tauto|].
    destruct (decide (1 < length row)); [|split; [lia|tauto]].
    split; [tauto|]. intros [?|?]; [lia|done].
  - intros Hrow Hsd Hlen.
    destruct (SetMetrics q recs st) as [[fwr'|e] st'] eqn:E; [|eauto].
    exfalso. rewrite SetMetrics_eq in E. destruct (validation q recs); [done|].
    apply range_pairs_plans in E. rewrite Forall_forall in E.
    destruct (E (row, (suffix, df))) as (facet & v & f & Hplan & _).
    { by apply elem_of_pairs. }
    rewrite pair_plan_spec in Hplan.
    destruct (value_columns df row) as [|kv [|kv' rest]]; simpl in Hlen; done.
  - intros ps1 ps2 fwr1 st1 Hval Hps Hps1 Hlen. rewrite SetMetrics_eq, Hval, Hps.
    eapply range_pairs_stops; [done|]. simpl.
    destruct (value_columns df row) as [|kv [|kv' rest]] eqn:Ev.
    + rewrite <-Ev in *. rewrite decide_True by done. by apply Hnone.
    + done.
    + rewrite decide_False by done. apply Hmany. rewrite ?Ev. simpl. lia.
Qed.

(** C6. [setValueForResult] sets the gauge to the float that
    [strconv.ParseFloat] reads from a string, to the value itself for an
    int or a float64, and returns an error, leaving the state as it is, for
    a string that does not parse and for a value of any other type. In
    [SetMetrics] the float of a pair is in its series once the pair is
    processed, and the error of a pair is the result of the whole call. *)
Theorem setValueForResult_coercion q recs st m g v :
  (gauges st !! m = Some g →
   match v with
   | VString t =>
       match ParseFloat t with
       | Some f => sets_gauge m f st (setValueForResult (Some m) v st)
       | None => setValueForResult (Some m) v st = (Some (ErrParseFloat t), st)
       end
   | VInt n => sets_gauge m (float64_of_int n) st (setValueForResult (Some m) v st)
   | VFloat f => sets_gauge m f st (setValueForResult (Some m) v st)
   | VBool _ | VNil => setValueForResult (Some m) v st = (Some (ErrUnhandledType v), st)
   end) ∧
  coerce v =
    match v with
    | VString t =>
        match ParseFloat t with
        | Some f => Ok f
        | None => Err (ErrParseFloat t)
        end
    | VInt n => Ok (float64_of_int n)
    | VFloat f => Ok f
    | VBool _ | VNil => Err (ErrUnhandledType v)
    end ∧
  (∀ ps1 row suffix df ps2 fwr1 st1 facet,
     validation q recs = None →
     pairs (effective_submetrics q) recs = ps1 ++ (row, (suffix, df)) :: ps2 →
     range_pairs q (effective_submetrics q) ps1 ∅ st = (Ok fwr1, st1) →
     pair_plan (effective_submetrics q) (row, (suffix, df)) = Ok (facet, v) →
     match coerce v with
     | Err e => SetMetrics q recs st = (Err e, (registerMetric q facet suffix st1).2)
     | Ok f =>
         wf st →
         ∃ fwr2 st2 m2 g2,
           range_pairs q (effective_submetrics q) (ps1 ++ [(row, (suffix, df))]) ∅ st =
             (Ok fwr2, st2) ∧
           Result st2 !! resultKey q facet suffix = Some m2 ∧
           gauges st2 !! m2 = Some g2 ∧ gauge_value g2 = f
     end).
Proof.
  split; [|split].
  - intros Hg. destruct v as [t|n|f|b|]; simpl; try done.
    + destruct (ParseFloat t); [|done]. by eapply gauge_Set_sets.
    + by eapply gauge_Set_sets.
    + by eapply gauge_Set_sets.
  - by destruct v as [t|n|f|[]|].
  - intros ps1 row suffix df ps2 fwr1 st1 facet Hval Hps Hps1 Hplan.
    destruct (coerce v) as [f|e] eqn:Ev.
    + intros Hwf. destruct (range_pairs_frame _ _ _ _ _ _ _ Hps1 Hwf) as [Hwf1 _].
      destruct (pair_step_set q facet suffix f st1 Hwf1) as (m2 & g2 & Hm2 & Hg2 & Hf2).
      eexists _, _, m2, g2. split; [|done].
      rewrite range_pairs_app, Hps1. simpl. rewrite submetric_body_eq, Hplan. simpl.
      by rewrite Ev.
    + rewrite SetMetrics_eq, Hval, Hps. eapply range_pairs_stops; [done|]. simpl.
      rewrite submetric_body_eq, Hplan. simpl. by rewrite Ev.
Qed.

(** *** The claim on a failing pass *)

(** C7. When [SetMetrics] returns an error, [Worker.SetMetrics] returns
    without calling [RegisterMetrics]: the state is the one [SetMetrics]
    left, no call was made to the prometheus registry, and every entry the
    registry held keeps its key, its handle and the descriptor of its
    gauge. That state is the one reached when the failing pair was met:
    what the pairs before it created and set is still there, and so is the
    entry created for the failing pair when its value did not coerce. *)
Theorem Worker_SetMetrics_error q recs st e st1 :
  SetMetrics q recs st = (Err e, st1) →
  Worker_SetMetrics q recs st = st1 ∧
  calls st1 = calls st ∧
  (∀ k m, Result st !! k = Some m → Result st1 !! k = Some m) ∧
  (∀ m g, gauges st !! m = Some g →
          ∃ g', gauges st1 !! m = Some g' ∧ same_descriptor g g') ∧
  ((validation q recs = Some e ∧ st1 = st) ∨
   ∃ ps1 p ps2 fwr' st',
     validation q recs = None ∧
     pairs (effective_submetrics q) recs = ps1 ++ p :: ps2 ∧
     range_pairs q (effective_submetrics q) ps1 ∅ st = (Ok fwr', st') ∧
     extends st' st1 ∧
     ((pair_plan (effective_submetrics q) p = Err e ∧ st1 = st') ∨
      ∃ facet v, pair_plan (effective_submetrics q) p = Ok (facet, v) ∧
                 coerce v = Err e ∧ st1 = (registerMetric q facet p.2.1 st').2)).
Proof.
  intros HS. destruct (SetMetrics_extends _ _ _ _ _ HS) as (Hc & Hr & Hg).
  split; [unfold Worker_SetMetrics; by rewrite HS|]. do 3 (split; [done|]).
  rewrite SetMetrics_eq in HS. destruct (validation q recs) as [e'|] eqn:Hval.
  - left. by simplify_eq.
  - right. apply range_pairs_Err in HS as (ps1 & p & ps2 & fwr' & st' & Hps & Hps1 & Hp).
    exists ps1, p, ps2, fwr', st'. do 3 (split; [done|]).
    split; [by eapply submetric_body_extends|].
    destruct p as [row [suffix df]]. by apply submetric_body_Err in Hp.
Qed.

(** *** The order in which a map is filled or visited *)


Lemma row_facet_step_commute n df subs fa x y :
  ToLower x.1 ≠ ToLower y.1 →
  row_facet_step n df subs (row_facet_step n df subs fa x) y =
  row_facet_step n df subs (row_facet_step n df subs fa y) x.
Proof.
  intros Hne. unfold row_facet_step.
  destruct (decide (is_value_column n df y.1)), (decide (is_value_column n df x.1));
    try done.
  destruct (is_submetric subs y.1), (is_submetric subs x.1); try done.
  by apply insert_insert_ne.
Qed.

Lemma row_facet_Permutation n df subs (cols cols' : record) facet :
  cols ≡ₚ cols' → NoDup (ToLower <$> cols.*1) →
  row_facet n df subs cols facet = row_facet n df subs cols' facet.
Proof.
  unfold row_facet. fold (row_facet_step n df subs).
  intros Hp. revert facet.
  induction Hp as [|x l1 l2 Hp IH|x y l|l1 l2 l3 Hp1 IH1 Hp2 IH2]; intros facet Hnd; simpl.
  - done.
  - apply IH. simpl in Hnd. by apply NoDup_cons in Hnd as [_ ?].
  - f_equal. apply row_facet_step_commute. simpl in Hnd.
    apply NoDup_cons in Hnd as [Hy _]. intros Heq. apply Hy. rewrite <-Heq. by left.
  - rewrite IH1 by done. apply IH2. by rewrite <-Hp1.
Qed.

(** What a pair yields does not depend on the order in which the columns
    of its row are visited, when no two column names agree in lower case. *)
Lemma pair_plan_Permutation subs (row row' : record) sd :
  row ≡ₚ row' → NoDup (ToLower <$> row.*1) →
  pair_plan subs (row, sd) = pair_plan subs (row', sd).
Proof.
  intros Hp Hnd. destruct sd as [suffix df]. rewrite !pair_plan_spec.
  assert (value_columns df row ≡ₚ value_columns df row') as Hv.
  { unfold value_columns. rewrite <-(Permutation_length Hp). by rewrite Hp. }
  rewrite <-(Permutation_length Hp), <-(row_facet_Permutation _ _ _ _ _ _ Hp Hnd).
  destruct (value_columns df row) as [|kv [|kv2 rest]].
  - apply Permutation_nil_l in Hv. by rewrite <-Hv.
  - apply Permutation_singleton_l in Hv. by rewrite <-Hv.
  - apply Permutation_length in Hv. simpl in Hv.
    by destruct (value_columns df row') as [|? [|? ?]].
Qed.

Lemma range_submetrics_Permutation q subs (row row' : record) todo fwr st :
  row ≡ₚ row' → NoDup (ToLower <$> row.*1) →
  range_submetrics q subs row todo fwr st = range_submetrics q subs row' todo fwr st.
Proof.
  intros Hp Hnd. revert fwr st. induction todo as [|[suffix df] todo IH]; intros fwr st.
  { done. }
  simpl. rewrite !submetric_body_eq, (pair_plan_Permutation _ _ _ _ Hp Hnd).
  destruct (pair_plan subs _) as [[facet v]|e]; [|done]. simpl.
  destruct (coerce v); [apply IH|done].
Qed.

Lemma range_recs_Permutation q subs (recs recs' : records) fwr st :
  Forall2 (≡ₚ) recs recs' → Forall (λ row, NoDup (ToLower <$> row.*1)) recs →
  range_recs q subs recs' fwr st = range_recs q subs recs fwr st.
Proof.
  intros Hp. revert fwr st.
  induction Hp as [|row row' recs recs' Hrow Hp IH]; intros fwr st Hnd; [done|].
  apply Forall_cons in Hnd as [Hnd1 Hnd]. simpl.
  rewrite <-(range_submetrics_Permutation _ _ _ _ _ _ _ Hrow Hnd1).
  destruct (range_submetrics _ _ _ _ _ _) as [[fwr1|e] st1]; [by apply IH|done].
Qed.

(** [SetMetrics] does not depend on the order in which [range] visits the
    columns of the rows, when no two column names of a row agree in lower
    case. *)
Lemma SetMetrics_column_order q (recs recs' : records) st :
  Forall2 (≡ₚ) recs recs' → Forall (λ row, NoDup (ToLower <$> row.*1)) recs →
  SetMetrics q recs' st = SetMetrics q recs st.
Proof.
  intros Hp Hnd. unfold SetMetrics.
  assert (length recs' = length recs) as -> by (symmetry; by eapply Forall2_length).
  assert (length (default [] (recs' !! 0)) = length (default [] (recs !! 0))) as ->.
  { destruct Hp as [|row row' ? ? Hrow _]; [done|]. simpl. symmetry.
    by apply Permutation_length. }
  case_decide; [done|]. case_decide; [done|]. by apply range_recs_Permutation.
Qed.

(** *** Helpers for the reconciliation *)

Lemma last_float_None q subs ps k :
  (∀ p, p ∈ ps → pair_key q subs p ≠ Some k) → last_float q subs ps k = None.
Proof.
  induction ps as [|p ps IH]; intros Hall; simpl; [done|].
  rewrite IH by (intros p' ?; apply Hall; by right).
  rewrite decide_False; [done|]. apply Hall. by left.
Qed.

Lemma last_float_last q subs ps1 p ps2 k f :
  pair_key q subs p = Some k → pair_float subs p = Some f →
  (∀ p', p' ∈ ps2 → pair_key q subs p' ≠ Some k) →
  last_float q subs (ps1 ++ p :: ps2) k = Some f.
Proof.
  intros Hk Hf Hall. induction ps1 as [|a ps1 IH]; simpl.
  - rewrite last_float_None by done. by rewrite decide_True.
  - by rewrite IH.
Qed.

Lemma last_float_produced q subs ps k f :
  last_float q subs ps k = Some f → produced q subs ps k.
Proof.
  induction ps as [|p ps IH]; simpl; [done|].
  destruct (last_float q subs ps k).
  - intros Hf. apply produced_cons. right. by apply IH.
  - case_decide; [|done]. intros _. apply produced_cons. by left.
Qed.

Lemma produced_last_float q subs ps k :
  Forall (λ p, is_Some (pair_key q subs p) ∧ is_Some (pair_float subs p)) ps →
  produced q subs ps k → is_Some (last_float q subs ps k).
Proof.
  induction 1 as [|p ps [_ [f Hf]] _ IH]; intros Hp; [by apply produced_nil in Hp|].
  simpl. destruct (decide (produced q subs ps k)) as [Hps|Hps].
  - destruct (IH Hps) as [f' ->]. eauto.
  - apply produced_cons in Hp as [Hp|?]; [|done].
    destruct (last_float q subs ps k); [eauto|]. rewrite decide_True by done. eauto.
Qed.

Lemma range_pairs_succeeds q subs ps fwr st :
  Forall (λ p, ∃ facet v f, pair_plan subs p = Ok (facet, v) ∧ coerce v = Ok f) ps →
  ∃ fwr' st', range_pairs q subs ps fwr st = (Ok fwr', st').
Proof.
  intros Hall. revert fwr st.
  induction Hall as [|[row [suffix df]] ps (facet & v & f & Hplan & Hv) _ IH];
    intros fwr st; simpl; [eauto|].
  rewrite submetric_body_eq, Hplan. simpl. rewrite Hv. apply IH.
Qed.

Lemma RegisterMetrics_wf fwr st : wf st → wf (RegisterMetrics fwr st).
Proof.
  intros [Hlt Hinj]. destruct (RegisterMetrics_spec fwr st) as (Hg & Hr & _).
  assert (∀ k m, Result (RegisterMetrics fwr st) !! k = Some m → Result st !! k = Some m)
    as Hsub.
  { intros k m. rewrite Hr. by destruct (fwr !! k). }
  split.
  - intros k m Hk. rewrite Hg. eauto.
  - intros k1 k2 m H1 H2. eauto.
Qed.

Lemma Worker_SetMetrics_wf q recs st : wf st → wf (Worker_SetMetrics q recs st).
Proof.
  intros Hwf. unfold Worker_SetMetrics.
  destruct (SetMetrics q recs st) as [[fwr|e] st1] eqn:E;
    destruct (SetMetrics_frame _ _ _ _ _ E Hwf) as [Hwf1 _]; [|done].
  by apply RegisterMetrics_wf.
Qed.

Lemma state_eq st st' :
  Result st = Result st' → gauges st = gauges st' → calls st = calls st' → st = st'.
Proof. destruct st, st'. simpl. by intros -> -> ->. Qed.

Lemma calls_nil (cs : list call) :
  (∀ m, Unregister m ∉ cs) → (∀ m, MustRegister m ∉ cs) → cs = [].
Proof.
  intros Hu Hm. destruct cs as [|[m|m] cs]; [done|exfalso..].
  - apply (Hu m). by left.
  - apply (Hm m). by left.
Qed.

(** *** The claims on reconciliation *)

(** What [RegisterMetrics] does with the map that a pass of [SetMetrics]
    hands it: the keys recorded for the round are the keys of its pairs;
    every entry whose key was not produced is handed to [Unregister] and
    leaves the registry; every entry that the map records with status
    unregistered is handed to [MustRegister], stays, and is reported as
    registered from then on; no other call is made; and every series
    produced in the round stays, under the handle it had, with the float of
    the last pair that produced it. Which entries the map records as
    unregistered is the matter of [SetMetrics_status_of_last_production]. *)
Theorem Worker_SetMetrics_reconciles q recs st fwr st1 :
  wf st → SetMetrics q recs st = (Ok fwr, st1) →
  let subs := effective_submetrics q in
  let ps := pairs subs recs in
  let st2 := Worker_SetMetrics q recs st in
  (∀ k, is_Some (fwr !! k) ↔ produced q subs ps k) ∧
  gauges st2 = gauges st1 ∧
  ∃ cs, calls st2 = calls st ++ cs ∧
    (∀ k m, Result st1 !! k = Some m → ¬ produced q subs ps k →
       Result st !! k = Some m ∧ Result st2 !! k = None ∧ Unregister m ∈ cs) ∧
    (∀ k m, Result st1 !! k = Some m → fwr !! k = Some unregistered →
       Result st2 !! k = Some m ∧ MustRegister m ∈ cs ∧
       ∀ facets suffix, resultKey q facets suffix = k →
         (registerMetric q facets suffix st2).1 = (k, registered)) ∧
    (∀ m, Unregister m ∈ cs →
       ∃ k, Result st !! k = Some m ∧ ¬ produced q subs ps k) ∧
    (∀ m, MustRegister m ∈ cs →
       ∃ k, Result st1 !! k = Some m ∧ fwr !! k = Some unregistered) ∧
    (∀ ps1 p ps2 k, ps = ps1 ++ p :: ps2 → pair_key q subs p = Some k →
       (∀ p', p' ∈ ps2 → pair_key q subs p' ≠ Some k) →
       ∃ m g, Result st2 !! k = Some m ∧
              (∀ m0, Result st !! k = Some m0 → m0 = m) ∧
              gauges st2 !! m = Some g ∧
              pair_float subs p = Some (gauge_value g)).
Proof.
  intros Hwf HS subs ps st2.
  assert (st2 = RegisterMetrics fwr st1) as Hst2.
  { subst st2. unfold Worker_SetMetrics. by rewrite HS. }
  destruct (SetMetrics_extends _ _ _ _ _ HS) as (Hc1 & Hr1 & _).
  rewrite SetMetrics_eq in HS. destruct (validation q recs); [done|].
  fold subs ps in HS.
  destruct (range_pairs_frame _ _ _ _ _ _ _ HS Hwf) as [Hwf1 _].
  destruct (range_pairs_keys _ _ _ _ _ _ _ Hwf HS) as (Hall & HK & HF & HN & HU).
  destruct (range_pairs_values _ _ _ _ _ _ _ Hwf HS) as [HV1 _].
  destruct (RegisterMetrics_spec fwr st1) as (Hg & Hr & cs & Hcs & Hun & Hmr).
  rewrite <-Hst2 in Hg, Hr, Hcs.
  assert (∀ k, is_Some (fwr !! k) ↔ produced q subs ps k) as Hfwr.
  { intros k. rewrite HF, lookup_empty. split; [|by right].
    intros [[? ?]|?]; done. }
  split; [done|]. split; [done|]. exists cs. split; [by rewrite Hcs, Hc1|].
  split; [|split; [|split; [|split]]].
  - intros k m Hk Hnp.
    assert (fwr !! k = None) as Hnone.
    { apply eq_None_not_Some. by rewrite Hfwr. }
    assert (Result st !! k = Some m) as Hst.
    { destruct (proj1 (HK k)) as [[m0 Hm0]|?]; [eauto| |done].
      apply Hr1 in Hm0 as Hm0'. congruence. }
    split; [done|]. split; [by rewrite Hr, Hnone|]. apply Hun. eauto.
  - intros k m Hk Hu.
    assert (Result st2 !! k = Some m) as Hk2 by (by rewrite Hr, Hu).
    split; [done|]. split; [apply Hmr; eauto|].
    intros facets suffix <-. by rewrite (registerMetric_present _ _ _ _ _ Hk2).
  - intros m (k & Hk & Hnone)%Hun.
    assert (¬ produced q subs ps k) as Hnp.
    { rewrite <-Hfwr, Hnone. by intros [? ?]. }
    exists k. split; [|done].
    destruct (proj1 (HK k)) as [[m0 Hm0]|?]; [eauto| |done].
    apply Hr1 in Hm0 as Hm0'. congruence.
  - intros m Hm. by apply Hmr.
  - intros ps1 p ps2 k Hps Hk Hlater.
    assert (produced q subs ps k) as Hp.
    { exists p. split; [|done]. rewrite Hps. apply elem_of_app. right. by left. }
    destruct (proj2 (HK k)) as [m Hm]; [by right|].
    destruct Hwf1 as [Hlt1 Hinj1].
    destruct (lookup_lt_is_Some_2 _ _ (Hlt1 _ _ Hm)) as [g Hgm].
    assert (is_Some (pair_float subs p)) as [f Hf].
    { rewrite Forall_forall in Hall. apply Hall. rewrite Hps.
      apply elem_of_app. right. by left. }
    exists m, g. split; [|split; [|split]].
    + rewrite Hr. apply Hfwr in Hp as [s ->]. done.
    + intros m0 Hm0. apply Hr1 in Hm0. congruence.
    + by rewrite Hg.
    + rewrite Hf. f_equal. symmetry. eapply HV1; [done| |done].
      rewrite Hps. by eapply last_float_last.
Qed.

(** A second pass over pairs that produce the keys of the first, with the
    same last float for each, changes nothing. *)
Lemma second_pass q subs ps1 ps2 st fwr st1 :
  wf st → range_pairs q subs ps1 ∅ st = (Ok fwr, st1) →
  Forall (λ p, ∃ facet v f, pair_plan subs p = Ok (facet, v) ∧ coerce v = Ok f) ps2 →
  (∀ k, produced q subs ps2 k ↔ produced q subs ps1 k) →
  (∀ k f, last_float q subs ps2 k = Some f → last_float q subs ps1 k = Some f) →
  let st2 := RegisterMetrics fwr st1 in
  ∃ fwr',
    range_pairs q subs ps2 ∅ st2 = (Ok fwr', st2) ∧
    (∀ k, is_Some (fwr' !! k) ↔ is_Some (fwr !! k)) ∧
    (∀ k s, fwr' !! k = Some s → s = registered ∧ is_Some (Result st2 !! k)) ∧
    RegisterMetrics fwr' st2 = st2.
Proof.
  intros Hwf HS' Hok Hprod Hlast st2.
  destruct (range_pairs_frame _ _ _ _ _ _ _ HS' Hwf) as [Hwf1 _].
  destruct (range_pairs_keys _ _ _ _ _ _ _ Hwf HS') as (Hall & HK & HF & _ & _).
  destruct (range_pairs_values _ _ _ _ _ _ _ Hwf HS') as [HV1 _].
  destruct (RegisterMetrics_spec fwr st1) as (Hg & Hr & _).
  fold st2 in Hg, Hr.
  assert (wf st2) as Hwf2 by (by apply RegisterMetrics_wf).
  assert (∀ k, is_Some (fwr !! k) ↔ produced q subs ps1 k) as Hfwr.
  { intros k. rewrite HF, lookup_empty. split; [|by right].
    intros [[? ?]|?]; done. }
  assert (∀ k, is_Some (Result st2 !! k) ↔ produced q subs ps1 k) as Hkeys2.
  { intros k. rewrite Hr. split.
    - destruct (fwr !! k) eqn:Ef; [|by intros [? ?]]. intros _. apply Hfwr. eauto.
    - intros Hp. apply Hfwr in Hp as Hf. destruct Hf as [s ->]. apply HK. by right. }
  destruct (range_pairs_succeeds q subs ps2 ∅ st2 Hok) as (fwr' & st3 & HS3).
  destruct (range_pairs_no_creation _ _ _ _ _ _ _
              (λ k Hk, proj2 (Hkeys2 k) (proj1 (Hprod k) Hk)) HS3) as [HR3 HL3].
  destruct (range_pairs_extends _ _ _ _ _ _ _ HS3) as (Hc3 & _ & Hg3).
  destruct (range_pairs_keys _ _ _ _ _ _ _ Hwf2 HS3) as (_ & _ & HF3 & _ & HU3).
  destruct (range_pairs_values _ _ _ _ _ _ _ Hwf2 HS3) as [_ HV3].
  assert (st3 = st2) as ->.
  { apply state_eq; [done| |done]. apply list_eq. intros i.
    destruct (gauges st2 !! i) as [g2|] eqn:Eg2.
    - destruct (Hg3 _ _ Eg2) as (g3 & Eg3 & Hd). rewrite Eg3. f_equal.
      apply same_descriptor_value_eq; [done|].
      destruct (HV3 _ _ _ Eg2 Eg3) as [?|(k & f & Hk & Hl & Hv)]; [done|].
      rewrite Hv. symmetry. rewrite HR3, Hr in Hk. apply Hlast in Hl.
      destruct (fwr !! k); [|done]. eapply HV1; [done..|]. by rewrite <-Hg.
    - apply lookup_ge_None. rewrite HL3. by apply lookup_ge_None. }
  assert (∀ k, is_Some (fwr' !! k) ↔ produced q subs ps1 k) as Hfwr'.
  { intros k. rewrite HF3, lookup_empty, <-Hprod. split; [|by right].
    intros [[? ?]|?]; done. }
  assert (∀ k s, fwr' !! k = Some s → s = registered ∧ is_Some (Result st2 !! k))
    as Hreg.
  { intros k s Hk. assert (produced q subs ps1 k) as Hp by (apply Hfwr'; eauto).
    split; [|by apply Hkeys2]. destruct s; [done|].
    specialize (HU3 _ (proj2 (Hprod k) Hp) Hk). apply Hkeys2 in Hp as [? ?]. congruence. }
  exists fwr'. split; [done|]. split; [|split; [done|]].
  { intros k. by rewrite Hfwr', Hfwr. }
  destruct (RegisterMetrics_spec fwr' st2) as (Hg4 & Hr4 & cs & Hcs & Hun & Hmr).
  apply state_eq; [|done|].
  - apply map_eq. intros k. rewrite Hr4. destruct (fwr' !! k) eqn:Ef; [done|].
    symmetry. apply eq_None_not_Some. rewrite Hkeys2, <-Hfwr', Ef. by intros [? ?].
  - rewrite Hcs. rewrite (calls_nil cs); [by rewrite app_nil_r|..].
    + intros m (k & Hk & Hnone)%Hun.
      assert (is_Some (fwr' !! k)) as [? ?]; [|congruence].
      apply Hfwr', Hkeys2. eauto.
    + intros m (k & Hk & Hu)%Hmr. by apply Hreg in Hu as [? _].
Qed.


(** *** Text *)

Lemma string_app_cons c (s1 s2 : string) : String c s1 +:+ s2 = String c (s1 +:+ s2).
Proof. reflexivity. Qed.

Lemma string_app_nil_l (s : string) : EmptyString +:+ s = s.
Proof. reflexivity. Qed.

Lemma string_app_assoc (s1 s2 s3 : string) : (s1 +:+ s2) +:+ s3 = s1 +:+ (s2 +:+ s3).
Proof.
  induction s1 as [|c s1 IH]; [done|]. by rewrite !string_app_cons, IH.
Qed.

Lemma string_app_nil_r (s : string) : s +:+ EmptyString = s.
Proof. induction s as [|c s IH]; [done|]. by rewrite string_app_cons, IH. Qed.

Lemma string_app_length (s1 s2 : string) :
  String.length (s1 +:+ s2) = String.length s1 + String.length s2.
Proof.
  induction s1 as [|c s1 IH]; [done|]. rewrite string_app_cons. simpl. by rewrite IH.
Qed.

Lemma string_app_inv_tail (s1 s2 t : string) : s1 +:+ t = s2 +:+ t → s1 = s2.
Proof.
  revert s2. induction s1 as [|c1 s1 IH]; intros [|c2 s2];
    rewrite ?string_app_cons, ?string_app_nil_l; intros Heq; [done| | |].
  - apply (f_equal String.length) in Heq. simpl in Heq.
    rewrite string_app_length in Heq. lia.
  - apply (f_equal String.length) in Heq. simpl in Heq.
    rewrite string_app_length in Heq. lia.
  - injection Heq as -> Heq. f_equal. by apply IH.
Qed.

(** *** A JSON string literal can be read back *)

Lemma json_unescape_escape c x : json_unescape (json_escape c +:+ x) = Some (c, x).
Proof. destruct c as [[] [] [] [] [] [] [] []]; reflexivity. Qed.

Lemma json_escape_string_inj s1 s2 r1 r2 :
  json_escape_string s1 +:+ String dquote r1 = json_escape_string s2 +:+ String dquote r2 →
  s1 = s2 ∧ r1 = r2.
Proof.
  revert s2. induction s1 as [|c1 s1 IH]; intros [|c2 s2]; cbn [json_escape_string].
  - rewrite !string_app_nil_l. by intros [= ->].
  - rewrite string_app_assoc. intros Heq. apply (f_equal json_unescape) in Heq.
    rewrite json_unescape_escape in Heq. done.
  - rewrite string_app_assoc. intros Heq. apply (f_equal json_unescape) in Heq.
    rewrite json_unescape_escape in Heq. done.
  - rewrite !string_app_assoc. intros Heq. apply (f_equal json_unescape) in Heq.
    rewrite !json_unescape_escape in Heq. injection Heq as -> Heq.
    destruct (IH _ Heq) as [-> ->]. done.
Qed.

Lemma MarshalString_inj s1 s2 r1 r2 :
  MarshalString s1 +:+ r1 = MarshalString s2 +:+ r2 → s1 = s2 ∧ r1 = r2.
Proof.
  unfold MarshalString. rewrite !string_app_cons, !string_app_assoc, !string_app_cons.
  rewrite !string_app_nil_l. intros [= Heq]. by apply json_escape_string_inj.
Qed.

(** *** The text of [json.Marshal] *)

Lemma elem_of_sorted_keys {A} (m : gmap string A) k :
  k ∈ sorted_keys m ↔ is_Some (m !! k).
Proof.
  unfold sorted_keys. rewrite merge_sort_Permutation, elem_of_elements. apply elem_of_dom.
Qed.

Lemma NoDup_sorted_keys {A} (m : gmap string A) : NoDup (sorted_keys m).
Proof. unfold sorted_keys. rewrite merge_sort_Permutation. apply NoDup_elements. Qed.

Lemma sorted_keys_insert {A} (m : gmap string A) k x :
  is_Some (m !! k) → sorted_keys (<[k := x]> m) = sorted_keys m.
Proof.
  intros Hk. unfold sorted_keys. rewrite dom_insert_L.
  replace ({[k]} ∪ dom m) with (dom m); [done|].
  apply elem_of_dom in Hk. set_solver.
Qed.

Lemma join_cons sep x l : join sep (x :: l) = x +:+ join_tail sep l.
Proof.
  revert x. induction l as [|y l IH]; intros x.
  - simpl. by rewrite string_app_nil_r.
  - change (join sep (x :: y :: l)) with (x +:+ sep +:+ join sep (y :: l)).
    by rewrite IH.
Qed.

Lemma join_tail_app sep l1 l2 :
  join_tail sep (l1 ++ l2) = join_tail sep l1 +:+ join_tail sep l2.
Proof.
  induction l1 as [|x l1 IH]; [done|]. simpl. by rewrite IH, !string_app_assoc.
Qed.

Lemma join_middle_inj sep pre post e1 e2 :
  join sep (pre ++ e1 :: post) = join sep (pre ++ e2 :: post) → e1 = e2.
Proof.
  destruct pre as [|a pre]; simpl app; rewrite !join_cons.
  - apply string_app_inv_tail.
  - intros Heq. apply (inj _) in Heq. rewrite !join_tail_app in Heq.
    apply (inj _) in Heq. simpl in Heq. apply (inj _) in Heq.
    by apply string_app_inv_tail in Heq.
Qed.

Lemma mapM_app_Some {A B} (f : A → option B) l1 l2 k :
  mapM f (l1 ++ l2) = Some k ↔
  ∃ k1 k2, k = k1 ++ k2 ∧ mapM f l1 = Some k1 ∧ mapM f l2 = Some k2.
Proof.
  rewrite mapM_Some. split.
  - intros (k1 & k2 & H1 & H2 & ->)%Forall2_app_inv_l.
    exists k1, k2. by rewrite !mapM_Some.
  - intros (k1 & k2 & -> & H1 & H2). rewrite mapM_Some in H1, H2.
    by apply Forall2_app.
Qed.

Lemma mapM_cons_Some {A B} (f : A → option B) x l k :
  mapM f (x :: l) = Some k ↔ ∃ y k', k = y :: k' ∧ f x = Some y ∧ mapM f l = Some k'.
Proof.
  rewrite mapM_Some. split.
  - intros (y & k' & Hy & Hk & ->)%Forall2_cons_inv_l.
    exists y, k'. by rewrite mapM_Some.
  - intros (y & k' & -> & Hy & Hk). rewrite mapM_Some in Hk. by constructor.
Qed.

Lemma mapM_ext_elem_of {A B} (f g : A → option B) l :
  (∀ x, x ∈ l → f x = g x) → mapM f l = mapM g l.
Proof.
  induction l as [|x l IH]; intros Hfg; [done|]. simpl.
  rewrite (Hfg x) by (by left). rewrite IH; [done|]. intros y ?. apply Hfg. by right.
Qed.

(** Two facets that differ in one string value: the keys differ. *)
Lemma resultKey_value_sensitive q facet suffix l s1 s2 :
  facet !! l = Some (VString s1) → s1 ≠ s2 → is_Some (Marshal facet) →
  resultKey q facet suffix ≠ resultKey q (<[l := VString s2]> facet) suffix.
Proof.
  intros Hl Hne [t Ht] Heq. unfold resultKey in Heq. apply (inj _) in Heq.
  unfold jsonData in Heq. rewrite Ht in Heq. unfold Marshal in Ht, Heq.
  rewrite sorted_keys_insert in Heq by eauto.
  destruct (mapM (MarshalEntry facet) (sorted_keys facet)) as [L|] eqn:EL; [|done].
  simpl in Ht. injection Ht as <-.
  assert (l ∈ sorted_keys facet) as Hin by (apply elem_of_sorted_keys; eauto).
  apply list_elem_of_split in Hin as (pre & post & Hks).
  pose proof (NoDup_sorted_keys facet) as Hnd. rewrite Hks in Hnd, EL, Heq.
  apply NoDup_app in Hnd as (_ & Hpre & Hpost%NoDup_cons).
  destruct Hpost as [Hpost _].
  apply mapM_app_Some in EL as (Lpre & L2 & -> & Epre & E2).
  apply mapM_cons_Some in E2 as (e1 & Lpost & -> & He1 & Epost).
  unfold MarshalEntry in He1. rewrite Hl in He1. simpl in He1. injection He1 as <-.
  assert (mapM (MarshalEntry (<[l:=VString s2]> facet)) (pre ++ l :: post) =
          Some (Lpre ++ (MarshalString l +:+ ":" +:+ MarshalString s2) :: Lpost)) as E'.
  { apply mapM_app_Some. eexists _, _. split; [done|]. split.
    - rewrite <-Epre. apply mapM_ext_elem_of. intros x Hx. unfold MarshalEntry.
      rewrite lookup_insert_ne; [done|]. intros ->. by eapply Hpre; [|left].
    - apply mapM_cons_Some. eexists _, _. split; [done|]. split.
      + unfold MarshalEntry. by rewrite lookup_insert_eq.
      + rewrite <-Epost. apply mapM_ext_elem_of. intros x Hx. unfold MarshalEntry.
        rewrite lookup_insert_ne; [done|]. by intros ->. }
  rewrite E' in Heq. simpl in Heq. apply (inj _) in Heq.
  apply string_app_inv_tail, join_middle_inj in Heq.
  apply (inj _) in Heq. apply (inj _) in Heq.
  rewrite <-(string_app_nil_r (MarshalString s1)) in Heq.
  rewrite <-(string_app_nil_r (MarshalString s2)) in Heq.
  apply MarshalString_inj in Heq as [? _]. done.
Qed.

Lemma facet_labels_case_insensitive facet l s1 s2 :
  facet !! l = Some (VString s1) → ToLower s1 = ToLower s2 →
  facet_labels (<[l := VString s2]> facet) = facet_labels facet.
Proof.
  intros Hl Hlow. unfold facet_labels. rewrite fmap_insert. simpl. rewrite <-Hlow.
  apply insert_id. by rewrite lookup_fmap, Hl.
Qed.

(** *** Facets whose values are strings are read back from their encoding *)







(** *** The claims on the Series Key *)


(** C10. The key encodes the values of the facet as they are, the labels
    lower-case them. Two pairs under one sub-metric whose facets differ
    only in the letter case of one string value, in a facet that
    [json.Marshal] accepts, get two keys and two entries with two gauges;
    when both entries are created by the pass, the two gauges have the same
    name and the same labels. *)
Theorem SetMetrics_case_of_facet_value q subs (row1 row2 : record) suffix df
    facet l s1 s2 v1 v2 f1 f2 fwr st :
  wf st →
  pair_plan subs (row1, (suffix, df)) = Ok (facet, v1) →
  pair_plan subs (row2, (suffix, df)) = Ok (<[l := VString s2]> facet, v2) →
  facet !! l = Some (VString s1) → s1 ≠ s2 → ToLower s1 = ToLower s2 →
  is_Some (Marshal facet) →
  coerce v1 = Ok f1 → coerce v2 = Ok f2 →
  let key1 := resultKey q facet suffix in
  let key2 := resultKey q (<[l := VString s2]> facet) suffix in
  key1 = metricName q suffix +:+ jsonData facet ∧
  key1 ≠ key2 ∧
  facet_labels (<[l := VString s2]> facet) = facet_labels facet ∧
  facet_labels facet !! l = Some (ToLower s1) ∧
  ∃ fwr' st' m1 m2 g1 g2,
    range_pairs q subs [(row1, (suffix, df)); (row2, (suffix, df))] fwr st = (Ok fwr', st') ∧
    Result st' !! key1 = Some m1 ∧ Result st' !! key2 = Some m2 ∧ m1 ≠ m2 ∧
    gauges st' !! m1 = Some g1 ∧ gauges st' !! m2 = Some g2 ∧
    gauge_value g1 = f1 ∧ gauge_value g2 = f2 ∧
    (Result st !! key1 = None → Result st !! key2 = None →
     gauge_Name g1 = gauge_Name g2 ∧ gauge_ConstLabels g1 = gauge_ConstLabels g2 ∧
     gauge_ConstLabels g1 = facet_labels facet).
Proof.
  intros Hwf Hp1 Hp2 Hl Hne Hlow HM Hv1 Hv2 key1 key2.
  assert (key1 ≠ key2) as Hkeys by (by eapply resultKey_value_sensitive).
  pose proof (facet_labels_case_insensitive _ _ _ _ Hl Hlow) as Hlab.
  split; [done|]. split; [done|]. split; [done|].
  split; [unfold facet_labels; by rewrite lookup_fmap, Hl|].
  set (stA := set_series key1 f1 (registerMetric q facet suffix st).2).
  set (stB := set_series key2 f2 (registerMetric q (<[l:=VString s2]> facet) suffix stA).2).
  assert (range_pairs q subs [(row1, (suffix, df)); (row2, (suffix, df))] fwr st =
          (Ok (<[key2 := (registerMetric q (<[l:=VString s2]> facet) suffix stA).1.2]>
                 (<[key1 := (registerMetric q facet suffix st).1.2]> fwr)), stB)) as Hrun.
  { simpl. rewrite submetric_body_eq, Hp1. simpl. rewrite Hv1.
    rewrite submetric_body_eq, Hp2. simpl. by rewrite Hv2. }
  assert (wf stA) as HwfA by (by apply set_series_wf, registerMetric_wf).
  assert (wf stB) as HwfB by (by apply set_series_wf, registerMetric_wf).
  destruct (pair_step_set q facet suffix f1 st Hwf) as (m1 & gA & Hm1 & HgA & HfA).
  fold key1 stA in Hm1, HgA.
  destruct (pair_step_set q (<[l:=VString s2]> facet) suffix f2 stA HwfA)
    as (m2 & g2 & Hm2 & Hg2 & Hf2).
  fold key2 stB in Hm2, Hg2.
  assert (Result stB !! key1 = Some m1) as Hm1B.
  { unfold stB. simpl. by rewrite registerMetric_Result_ne. }
  assert (m1 ≠ m2) as Hm.
  { intros ->. destruct HwfB as [_ Hinj]. by specialize (Hinj _ _ _ Hm1B Hm2). }
  assert (gauges stB !! m1 = Some gA) as Hg1B.
  { unfold stB. rewrite set_series_gauges. rewrite decide_False.
    - destruct (Result stA !! key2) as [m|] eqn:E.
      + rewrite (registerMetric_present _ _ _ _ _ E). done.
      + rewrite (registerMetric_absent _ _ _ _ E). simpl.
        apply lookup_app_l_Some. done.
    - change (Result stB !! key2 ≠ Some m1). rewrite Hm2. congruence. }
  eexists _, stB, m1, m2, gA, g2. split; [exact Hrun|]. do 7 (split; [done|]).
  intros Hn1 Hn2.
  assert (Result stA !! key2 = None) as Hn2A.
  { unfold stA. simpl. by rewrite registerMetric_Result_ne. }
  unfold stA in HgA, Hm1. rewrite set_series_gauges in HgA. simpl in Hm1.
  rewrite decide_True in HgA by done.
  rewrite (registerMetric_absent _ _ _ _ Hn1) in HgA, Hm1. simpl in HgA, Hm1.
  rewrite lookup_insert_eq in Hm1. injection Hm1 as <-.
  rewrite lookup_app_r, Nat.sub_diag in HgA by lia. simpl in HgA. injection HgA as <-.
  unfold stB in Hg2, Hm2. rewrite set_series_gauges in Hg2. simpl in Hm2.
  rewrite decide_True in Hg2 by done.
  rewrite (registerMetric_absent _ _ _ _ Hn2A) in Hg2, Hm2. simpl in Hg2, Hm2.
  rewrite lookup_insert_eq in Hm2. injection Hm2 as <-.
  rewrite lookup_app_r, Nat.sub_diag in Hg2 by lia. simpl in Hg2. injection Hg2 as <-.
  simpl. by rewrite Hlab.
Qed.

(** *** Further properties *)

Lemma range_pairs_status q subs ps1 p ps2 fwr st fwr' st' k :
  wf st → range_pairs q subs (ps1 ++ p :: ps2) fwr st = (Ok fwr', st') →
  pair_key q subs p = Some k → (∀ x, x ∈ ps2 → pair_key q subs x ≠ Some k) →
  fwr' !! k = Some unregistered ↔ Result st !! k = None ∧ ¬ produced q subs ps1 k.
Proof.
  intros Hwf Hrun Hk Hlater. rewrite range_pairs_app in Hrun.
  destruct (range_pairs q subs ps1 fwr st) as [[fwr1|e] st1] eqn:E1; [|done].
  destruct (range_pairs_frame _ _ _ _ _ _ _ E1 Hwf) as [Hwf1 _].
  destruct (range_pairs_keys _ _ _ _ _ _ _ Hwf E1) as (_ & HK1 & _).
  destruct p as [row [suffix df]]. simpl in Hrun.
  destruct (submetric_body _ _ _ _ _ _ _) as [[fwr2|e] st2] eqn:E2; [|done].
  destruct (submetric_body_frame _ _ _ _ _ _ _ _ _ E2 Hwf1) as [Hwf2 _].
  destruct (range_pairs_keys _ _ _ _ _ _ _ Hwf2 Hrun) as (_ & _ & _ & HN & _).
  rewrite HN by (intros (x & Hx & Hxk); by eapply Hlater).
  apply submetric_body_Ok in E2 as (facet & v & f & Hplan & Hv & -> & _).
  rewrite (pair_key_plan q subs _ _ _ Hplan) in Hk. simpl in Hk. injection Hk as <-.
  rewrite lookup_insert_eq, registerMetric_status.
  specialize (HK1 (resultKey q facet suffix)).
  destruct (Result st1 !! resultKey q facet suffix) as [m|] eqn:Em.
  - split; [done|]. intros [Hn Hp]. destruct (proj1 HK1) as [[? ?]|?]; [eauto|congruence|done].
  - split; [|done]. intros _. split.
    + apply eq_None_not_Some. intros Hs. destruct (proj2 HK1) as [? ?]; [by left|done].
    + intros Hp. destruct (proj2 HK1) as [? ?]; [by right|done].
Qed.

(** The status recorded for a key is the status of its last production:
    unregistered exactly when the key was not in the registry before the
    pass and no earlier pair of the pass produced it; and
    [RegisterMetrics] hands the entry to [MustRegister] in that case only.
    An entry whose key is produced twice by the pass that creates it, or
    that was created by a pass that failed, is recorded as registered. *)
Theorem SetMetrics_status_of_last_production q recs st fwr st1 ps1 p ps2 k :
  wf st → SetMetrics q recs st = (Ok fwr, st1) →
  pairs (effective_submetrics q) recs = ps1 ++ p :: ps2 →
  pair_key q (effective_submetrics q) p = Some k →
  (∀ x, x ∈ ps2 → pair_key q (effective_submetrics q) x ≠ Some k) →
  ∃ m cs,
    Result st1 !! k = Some m ∧
    (fwr !! k = Some unregistered ↔
     Result st !! k = None ∧ ¬ produced q (effective_submetrics q) ps1 k) ∧
    calls (Worker_SetMetrics q recs st) = calls st ++ cs ∧
    (MustRegister m ∈ cs ↔
     Result st !! k = None ∧ ¬ produced q (effective_submetrics q) ps1 k).
Proof.
  intros Hwf HS Hps Hk Hlater.
  assert (Worker_SetMetrics q recs st = RegisterMetrics fwr st1) as HW.
  { unfold Worker_SetMetrics. by rewrite HS. }
  destruct (SetMetrics_frame _ _ _ _ _ HS Hwf) as [[_ Hinj] (Hc & _ & _)].
  rewrite SetMetrics_eq in HS. destruct (validation q recs); [done|]. rewrite Hps in HS.
  pose proof (range_pairs_status _ _ _ _ _ _ _ _ _ _ Hwf HS Hk Hlater) as Hst.
  destruct (range_pairs_keys _ _ _ _ _ _ _ Hwf HS) as (_ & HK & _).
  destruct (proj2 (HK k)) as [m Hm].
  { right. exists p. split; [|done]. apply elem_of_app. right. by left. }
  destruct (RegisterMetrics_spec fwr st1) as (_ & _ & cs & Hcs & _ & Hmr).
  exists m, cs. split; [done|]. split; [done|]. split; [by rewrite HW, Hcs, Hc|].
  rewrite Hmr, <-Hst. split.
  - intros (k' & Hk' & Hu). by rewrite (Hinj _ _ _ Hm Hk').
  - intros Hu. eauto.
Qed.

(** Every state reached by polling from an empty registry is well formed. *)
Theorem polls_wf q rounds : wf (polls q rounds NewQueryResult).
Proof.
  unfold polls. generalize wf_NewQueryResult. generalize NewQueryResult.
  induction rounds as [|recs rounds IH]; intros st Hwf; [done|].
  simpl. by apply IH, Worker_SetMetrics_wf.
Qed.

(** The order in which [range] visits the columns of the rows does not
    matter, for rows in which no two column names agree in lower case. *)
Theorem SetMetrics_any_column_order q (recs recs' : records) st :
  Forall2 (≡ₚ) recs recs' → Forall (λ row, NoDup (ToLower <$> row.*1)) recs →
  SetMetrics q recs' st = SetMetrics q recs st ∧
  Worker_SetMetrics q recs' st = Worker_SetMetrics q recs st.
Proof.
  intros Hp Hnd. pose proof (SetMetrics_column_order q recs recs' st Hp Hnd) as HS.
  split; [done|]. unfold Worker_SetMetrics. by rewrite HS.
Qed.

(** *** Visiting orders *)

Lemma visits_pairs subs recs : visits subs recs (pairs subs recs).
Proof.
  induction recs as [|row recs IH]; [constructor|].
  change (pairs subs (row :: recs)) with (((λ sd, (row, sd)) <$> subs) ++ pairs subs recs).
  constructor; [|done]. split.
  - rewrite <-list_fmap_compose. by rewrite (list_fmap_ext _ id), list_fmap_id.
  - apply Forall_fmap, Forall_forall. intros sd _. simpl. reflexivity.
Qed.

Lemma SetMetrics_visiting_pairs q recs st :
  SetMetrics q recs st =
  SetMetrics_visiting q recs (pairs (effective_submetrics q) recs) st.
Proof. apply SetMetrics_eq. Qed.

Lemma visits_elem_of subs recs ps :
  visits subs recs ps →
  (∀ p, p ∈ ps → ∃ row, row ∈ recs ∧ p.1 ≡ₚ row ∧ p.2 ∈ subs) ∧
  (∀ row sd, row ∈ recs → sd ∈ subs → ∃ p, p ∈ ps ∧ p.2 = sd ∧ p.1 ≡ₚ row).
Proof.
  induction 1 as [|row recs ps_row ps [Hsubs Hrows] _ [IH1 IH2]].
  { split; [by intros p ?%not_elem_of_nil|by intros row sd ?%not_elem_of_nil]. }
  rewrite Forall_forall in Hrows. split.
  - intros p [Hp|Hp]%elem_of_app.
    + exists row. split; [by left|]. split; [by apply Hrows|].
      rewrite <-Hsubs. apply list_elem_of_fmap. eauto.
    + destruct (IH1 _ Hp) as (row' & ? & ? & ?). exists row'. split; [by right|done].
  - intros row' sd [->|Hrow]%elem_of_cons Hsd.
    + rewrite <-Hsubs in Hsd. apply list_elem_of_fmap in Hsd as (p & -> & Hp).
      exists p. split; [apply elem_of_app; by left|]. split; [done|by apply Hrows].
    + destruct (IH2 _ _ Hrow Hsd) as (p & ? & ? & ?). exists p.
      split; [apply elem_of_app; by right|done].
Qed.

Lemma same_outcome_Permutation q subs (row row' : record) sd :
  row ≡ₚ row' → NoDup (ToLower <$> row.*1) →
  same_outcome q subs (row, sd) (row', sd).
Proof.
  intros Hp Hnd. unfold same_outcome, pair_key, pair_float.
  by rewrite (pair_plan_Permutation _ _ _ _ Hp Hnd).
Qed.

Lemma last_float_same_outcome q subs ps ps' k :
  Forall2 (same_outcome q subs) ps ps' →
  last_float q subs ps k = last_float q subs ps' k.
Proof.
  induction 1 as [|p p' ps ps' [Hk Hf] _ IH]; [done|]. simpl. by rewrite IH, Hk, Hf.
Qed.

Lemma last_float_app q subs ps1 ps2 k :
  last_float q subs (ps1 ++ ps2) k =
  match last_float q subs ps2 k with
  | Some f => Some f
  | None => last_float q subs ps1 k
  end.
Proof.
  induction ps1 as [|p ps1 IH]; simpl.
  - by destruct (last_float q subs ps2 k).
  - rewrite IH. by destruct (last_float q subs ps2 k).
Qed.

Lemma elem_of_keys_of q subs ps k :
  k ∈ keys_of q subs ps ↔ produced q subs ps k.
Proof. unfold keys_of, produced. rewrite list_elem_of_omap. naive_solver. Qed.

Lemma last_float_Permutation q subs ps ps' k :
  ps ≡ₚ ps' → NoDup (keys_of q subs ps) →
  last_float q subs ps k = last_float q subs ps' k.
Proof.
  intros Hp. induction Hp as [|x l1 l2 Hp IH|x y l|l1 l2 l3 Hp1 IH1 Hp2 IH2]; intros Hnd.
  - done.
  - simpl. rewrite IH; [done|]. unfold keys_of in *. simpl in Hnd.
    destruct (pair_key q subs x); [by apply NoDup_cons in Hnd as [_ ?]|done].
  - simpl. destruct (last_float q subs l k); [done|].
    destruct (decide (pair_key q subs x = Some k)) as [Hx|Hx],
             (decide (pair_key q subs y = Some k)) as [Hy|Hy]; try done.
    + exfalso. unfold keys_of in Hnd. simpl in Hnd. rewrite Hx, Hy in Hnd.
      apply NoDup_cons in Hnd as [Hnd _]. apply Hnd. by left.
    + by destruct (pair_float subs x).
    + by destruct (pair_float subs y).
  - rewrite IH1 by done. apply IH2. unfold keys_of in *. by rewrite <-Hp1.
Qed.

Lemma is_submetric_spec subs k :
  is_submetric subs k = true ↔ ∃ sn, sn ∈ subs ∧ ToLower k = sn.2.
Proof.
  unfold is_submetric.
  assert (∀ b, foldl (λ submetric sn, if decide (ToLower k = sn.2) then true else submetric)
                 b subs = true ↔ b = true ∨ ∃ sn, sn ∈ subs ∧ ToLower k = sn.2) as Hgen.
  { induction subs as [|sn subs IH]; intros b; simpl.
    - split; [by left|]. intros [?|(sn & ?%not_elem_of_nil & _)]; done.
    - rewrite IH. split.
      + intros [Hb|(sn' & ? & ?)].
        * case_decide; [right; exists sn; split; [by left|done]|by left].
        * right. exists sn'. split; [by right|done].
      + intros [->|(sn' & [->|?]%elem_of_cons & Hsn)].
        * left. by case_decide.
        * left. by rewrite decide_True.
        * right. eauto. }
  rewrite Hgen. split; [by intros [?|?]|by right].
Qed.

Lemma row_facet_common subs sd n (cols : record) fa :
  sd ∈ subs →
  row_facet n sd.2 subs cols fa =
  foldl (λ fa kv, if decide (n ≤ 1)%nat then fa
                  else if is_submetric subs kv.1 then fa
                  else <[ToLower kv.1 := kv.2]> fa) fa cols.
Proof.
  intros Hsd. unfold row_facet. revert fa.
  induction cols as [|[k v] cols IH]; intros fa; [done|]. simpl. rewrite <-IH. f_equal.
  unfold is_value_column. destruct (decide (n ≤ 1)%nat).
  - rewrite decide_True; [done|]. lia.
  - destruct (decide (ToLower k = sd.2)) as [Heq|Hne].
    + rewrite decide_True by tauto.
      assert (is_submetric subs k = true) as -> by (apply is_submetric_spec; eauto). done.
    + rewrite decide_False; [done|]. intros Hn. apply Hn. split; [lia|done].
Qed.

Lemma pair_key_common q subs row sd k :
  sd ∈ subs → pair_key q subs (row, sd) = Some k →
  k = metricName q sd.1 +:+ jsonData (common_facet subs row).
Proof.
  intros Hsd. unfold pair_key. destruct sd as [suffix df]. rewrite pair_plan_spec.
  destruct (value_columns df row) as [|kv [|kv' rest]]; [done| |done].
  intros [= <-]. unfold resultKey. simpl. f_equal. f_equal.
  by rewrite (row_facet_common subs (suffix, df)).
Qed.

Lemma metricName_inj q s1 s2 : metricName q s1 = metricName q s2 → s1 = s2.
Proof.
  unfold metricName. repeat case_decide; subst; try done.
  - intros Heq. apply (f_equal String.length) in Heq.
    rewrite string_app_length in Heq. simpl in Heq. lia.
  - intros Heq. apply (f_equal String.length) in Heq.
    rewrite string_app_length in Heq. simpl in Heq. lia.
  - intros Heq. apply (inj _) in Heq. by injection Heq.
Qed.

Lemma keys_of_row_NoDup q subs row (l : list (string * string)) :
  l ⊆ subs → NoDup l.*1 → NoDup (keys_of q subs ((λ sd, (row, sd)) <$> l)).
Proof.
  induction l as [|sd l IH]; intros Hsub Hnd; [constructor|].
  simpl in Hnd. apply NoDup_cons in Hnd as [Hsd Hnd].
  assert (l ⊆ subs) as Hsub' by (intros x ?; apply Hsub; by right).
  unfold keys_of. simpl. destruct (pair_key q subs (row, sd)) as [k|] eqn:Ek; [|by apply IH].
  apply NoDup_cons. split; [|by apply IH].
  intros Hin. apply (elem_of_keys_of q subs) in Hin as (p & Hp & Hpk).
  apply list_elem_of_fmap in Hp as (sd' & -> & Hsd').
  apply pair_key_common in Ek; [|apply Hsub; by left].
  apply pair_key_common in Hpk; [|by apply Hsub'].
  rewrite Ek in Hpk. apply string_app_inv_tail, metricName_inj in Hpk.
  apply Hsd. rewrite Hpk. apply list_elem_of_fmap. eauto.
Qed.

Lemma last_float_visits_row q subs (row : record) ps k :
  visits_row subs row ps → NoDup (ToLower <$> row.*1) → NoDup subs.*1 →
  last_float q subs ps k = last_float q subs ((λ sd, (row, sd)) <$> subs) k.
Proof.
  intros [Hsubs Hrows] Hnd Hsuf.
  rewrite (last_float_same_outcome q subs ps ((λ sd, (row, sd)) <$> ps.*2)).
  - symmetry. apply last_float_Permutation; [by rewrite Hsubs|].
    by apply keys_of_row_NoDup.
  - rewrite <-list_fmap_compose. apply Forall2_fmap_r, Forall_Forall2_diag.
    eapply Forall_impl; [done|]. intros [row' sd] Hrow. simpl in *.
    unfold same_outcome, pair_key, pair_float.
    by rewrite (pair_plan_Permutation subs row row' sd) by done.
Qed.

Lemma last_float_visits q subs recs ps k :
  visits subs recs ps → Forall (λ row, NoDup (ToLower <$> row.*1)) recs →
  NoDup subs.*1 →
  last_float q subs ps k = last_float q subs (pairs subs recs) k.
Proof.
  intros Hv Hnd Hsuf. induction Hv as [|row recs ps_row ps Hrow _ IH]; [done|].
  apply Forall_cons in Hnd as [Hnd1 Hnd].
  change (pairs subs (row :: recs)) with (((λ sd, (row, sd)) <$> subs) ++ pairs subs recs).
  rewrite !last_float_app, IH by done.
  by rewrite (last_float_visits_row q subs row ps_row k).
Qed.

Lemma visits_same_outcome q subs recs ps p :
  visits subs recs ps → Forall (λ row, NoDup (ToLower <$> row.*1)) recs → p ∈ ps →
  ∃ row, row ∈ recs ∧ p.2 ∈ subs ∧ pair_plan subs p = pair_plan subs (row, p.2).
Proof.
  intros Hv Hnd Hp. destruct (proj1 (visits_elem_of _ _ _ Hv) _ Hp) as (row & Hrow & Hperm & ?).
  exists row. split; [done|]. split; [done|]. destruct p as [row' sd]. simpl in *.
  rewrite Forall_forall in Hnd. symmetry. apply pair_plan_Permutation; [done|by apply Hnd].
Qed.
Lemma visits_plans q subs recs ps1 ps2 fwr st fwr' st' :
  visits subs recs ps1 → visits subs recs ps2 →
  Forall (λ row, NoDup (ToLower <$> row.*1)) recs →
  range_pairs q subs ps1 fwr st = (Ok fwr', st') →
  Forall (λ p, ∃ facet v f, pair_plan subs p = Ok (facet, v) ∧ coerce v = Ok f) ps2.
Proof.
  intros Hv1 Hv2 Hnd Hrun. apply range_pairs_plans in Hrun.
  rewrite Forall_forall in Hrun |- *. intros p Hp.
  destruct (visits_same_outcome q _ _ _ _ Hv2 Hnd Hp) as (row & Hrow & Hsd & Heq).
  destruct (proj2 (visits_elem_of _ _ _ Hv1) _ _ Hrow Hsd) as (p1 & Hp1 & Hsd1 & Hperm).
  rewrite Heq. destruct p1 as [row1 sd1]. simpl in *. subst sd1.
  rewrite Forall_forall in Hnd.
  rewrite (pair_plan_Permutation subs row row1 p.2); [by apply Hrun| |by apply Hnd].
  by symmetry.
Qed.

Lemma visits_produced q subs recs ps1 ps2 k :
  visits subs recs ps1 → visits subs recs ps2 →
  Forall (λ row, NoDup (ToLower <$> row.*1)) recs →
  produced q subs ps1 k → produced q subs ps2 k.
Proof.
  intros Hv1 Hv2 Hnd (p & Hp & Hk).
  destruct (visits_same_outcome q _ _ _ _ Hv1 Hnd Hp) as (row & Hrow & Hsd & Heq).
  destruct (proj2 (visits_elem_of _ _ _ Hv2) _ _ Hrow Hsd) as (p2 & Hp2 & Hsd2 & Hperm).
  exists p2. split; [done|]. rewrite <-Hk. unfold pair_key. rewrite Heq, <-Hsd2.
  destruct p2 as [row2 sd2]. simpl in *. rewrite Forall_forall in Hnd.
  rewrite (pair_plan_Permutation subs row row2 sd2); [done| |by apply Hnd]. by symmetry.
Qed.

(** Idempotence whatever the order in which the two calls visit the
    sub-metrics for each row and the columns of a row for each sub-metric. *)
Theorem Worker_SetMetrics_idempotent_any_order q recs ps1 ps2 st fwr st1 :
  wf st →
  Forall (λ row, NoDup (ToLower <$> row.*1)) recs →
  NoDup (effective_submetrics q).*1 →
  visits (effective_submetrics q) recs ps1 → visits (effective_submetrics q) recs ps2 →
  SetMetrics_visiting q recs ps1 st = (Ok fwr, st1) →
  let st2 := Worker_SetMetrics_visiting q recs ps1 st in
  ∃ fwr',
    SetMetrics_visiting q recs ps2 st2 = (Ok fwr', st2) ∧
    (∀ k, is_Some (fwr' !! k) ↔ is_Some (fwr !! k)) ∧
    (∀ k s, fwr' !! k = Some s → s = registered ∧ is_Some (Result st2 !! k)) ∧
    Worker_SetMetrics_visiting q recs ps2 st2 = st2.
Proof.
  intros Hwf Hnd Hsuf Hv1 Hv2 HS st2.
  assert (st2 = RegisterMetrics fwr st1) as Hst2.
  { subst st2. unfold Worker_SetMetrics_visiting. by rewrite HS. }
  unfold Worker_SetMetrics_visiting, SetMetrics_visiting in *.
  destruct (validation q recs) eqn:Hval; [done|].
  set (subs := effective_submetrics q) in *.
  destruct (second_pass q subs ps1 ps2 st fwr st1 Hwf HS) as (fwr' & HS2 & Hk & Hreg & HRM).
  - exact (visits_plans q subs recs ps1 ps2 _ _ _ _ Hv1 Hv2 Hnd HS).
  - intros k. split; by apply (visits_produced q subs recs).
  - intros k f. by rewrite (last_float_visits q subs recs ps2 k Hv2 Hnd Hsuf),
      (last_float_visits q subs recs ps1 k Hv1 Hnd Hsuf).
  - rewrite <-Hst2 in HS2, Hreg, HRM. exists fwr'. rewrite HS2. done.
Qed.

(** *** Lower case *)

Lemma lower_ascii_idemp c : lower_ascii (lower_ascii c) = lower_ascii c.
Proof. destruct c as [[] [] [] [] [] [] [] []]; reflexivity. Qed.

Lemma ToLower_idemp s : ToLower (ToLower s) = ToLower s.
Proof. induction s as [|c s IH]; [done|]. simpl. by rewrite lower_ascii_idemp, IH. Qed.

(** *** Which columns are value columns *)

Lemma is_value_column_many n df k : 1 < n → is_value_column n df k ↔ ToLower k = df.
Proof.
  intros Hn. unfold is_value_column. split.
  - intros Hv. destruct (decide (ToLower k = df)); [done|]. exfalso. apply Hv. done.
  - intros -> [_ ?]. done.
Qed.

Lemma is_value_column_few (n : nat) df k : (n ≤ 1)%nat → is_value_column n df k.
Proof. intros Hn [? _]. lia. Qed.

Lemma filter_two {A} (P : A → Prop) `{∀ x, Decision (P x)} (l : list A) :
  1 < length (filter P l) →
  ∃ i j x y, i ≠ j ∧ l !! i = Some x ∧ l !! j = Some y ∧ P x ∧ P y.
Proof.
  induction l as [|a l IH]; [simpl; lia|]. rewrite filter_cons.
  destruct (decide (P a)) as [Ha|Ha].
  - simpl. intros Hlen. destruct (filter P l) as [|b l'] eqn:E; [simpl in Hlen; lia|].
    assert (b ∈ filter P l) as [Hb Hin]%list_elem_of_filter by (rewrite E; by left).
    apply list_elem_of_lookup_1 in Hin as [j Hj].
    exists 0, (S j), a, b. done.
  - intros (i & j & x & y & ? & ? & ? & ? & ?)%IH.
    exists (S i), (S j), x, y. split; [lia|done].
Qed.

Lemma value_columns_nil df row :
  value_columns df row = [] →
  (row = [] ∨ 1 < length row) ∧ ∀ k v, (k, v) ∈ row → ToLower k ≠ df.
Proof.
  unfold value_columns. intros Hnil.
  assert (∀ kv, kv ∈ row → ¬ is_value_column (length row) df kv.1) as Hall.
  { intros kv Hin Hv. assert (kv ∈ filter (λ kv, is_value_column (length row) df kv.1) row)
      as Hf by (by apply list_elem_of_filter). rewrite Hnil in Hf. by apply not_elem_of_nil in Hf. }
  destruct row as [|kv row]; [split; [by left|by intros k v ?%not_elem_of_nil]|].
  assert (1 < length (kv :: row)) as Hlen.
  { destruct (decide (1 < length (kv :: row))); [done|]. exfalso.
    apply (Hall kv); [by left|]. apply is_value_column_few. lia. }
  split; [by right|]. intros k v Hin Hk. apply (Hall _ Hin). simpl.
  by apply is_value_column_many.
Qed.

Lemma value_columns_two df row :
  1 < length (value_columns df row) →
  ∃ i j k1 v1 k2 v2, i ≠ j ∧ row !! i = Some (k1, v1) ∧ row !! j = Some (k2, v2) ∧
                     ToLower k1 = df ∧ ToLower k2 = df.
Proof.
  unfold value_columns. intros (i & j & [k1 v1] & [k2 v2] & Hij & Hi & Hj & H1 & H2)%filter_two.
  assert (1 < length row) as Hlen.
  { apply lookup_lt_Some in Hi, Hj. lia. }
  simpl in *. apply is_value_column_many in H1, H2; [|done..].
  by exists i, j, k1, v1, k2, v2.
Qed.

Lemma pair_plan_value subs row sd facet v :
  pair_plan subs (row, sd) = Ok (facet, v) → ∃ k, (k, v) ∈ row.
Proof.
  destruct sd as [suffix df]. rewrite pair_plan_spec.
  destruct (value_columns df row) as [|[k v'] [|kv' rest]] eqn:E; [done| |done].
  intros [= <- <-]. exists k.
  assert ((k, v') ∈ value_columns df row) as Hin by (rewrite E; by left).
  unfold value_columns in Hin. by apply list_elem_of_filter in Hin as [_ ?].
Qed.

Lemma coerce_Err v e :
  coerce v = Err e →
  match v with
  | VString t => e = ErrParseFloat t ∧ ParseFloat t = None
  | VInt _ | VFloat _ => False
  | _ => e = ErrUnhandledType v
  end.
Proof.
  destruct v as [t|n|f|b|]; simpl; try done; try (by intros [= <-]).
  destruct (ParseFloat t); [done|]. by intros [= <-].
Qed.

(** The errors of [SetMetrics], and what each one tells: the two structural
    errors leave the state as it was; the data field is not found in a row
    that is empty, or that has several columns none of which is the value
    column; it is not specified when two columns of a row have the value
    column's name in lower case; a parse error names a string cell that
    [strconv.ParseFloat] rejects; an unhandled type is that of a cell that
    is neither string, int nor float64. The gauge handed to
    [setValueForResult] is never nil. *)
Theorem SetMetrics_errors q recs st e st' :
  SetMetrics q recs st = (Err e, st') →
  match e with
  | ErrMultipleRowsSingleColumn | ErrSubMetricsWithDataField => st' = st
  | ErrDataFieldNotFound =>
      ∃ row sd, row ∈ recs ∧ sd ∈ effective_submetrics q ∧
                (row = [] ∨ 1 < length row) ∧ ∀ k v, (k, v) ∈ row → ToLower k ≠ sd.2
  | ErrDataFieldNotSpecified =>
      ∃ row sd i j k1 v1 k2 v2,
        row ∈ recs ∧ sd ∈ effective_submetrics q ∧ i ≠ j ∧
        row !! i = Some (k1, v1) ∧ row !! j = Some (k2, v2) ∧
        ToLower k1 = sd.2 ∧ ToLower k2 = sd.2
  | ErrParseFloat t =>
      ParseFloat t = None ∧ ∃ row k, row ∈ recs ∧ (k, VString t) ∈ row
  | ErrUnhandledType v =>
      (v = VNil ∨ ∃ b, v = VBool b) ∧ ∃ row k, row ∈ recs ∧ (k, v) ∈ row
  | PanicNilGauge => False
  end.
Proof.
  rewrite SetMetrics_eq. unfold validation.
  repeat case_decide; try (by intros [= <- <-]).
  intros Hrun. apply range_pairs_Err in Hrun as (ps1 & [row [suffix df]] & ps2 & fwr1 & st1 &
    Hps & Hrun1 & Hbody). simpl in Hbody.
  assert (row ∈ recs ∧ (suffix, df) ∈ effective_submetrics q) as [Hrow Hsd].
  { apply elem_of_pairs. rewrite Hps. apply elem_of_app. right. by left. }
  apply submetric_body_Err in Hbody as [[Hplan _]|(facet & v & Hplan & Hv & _)].
  - rewrite pair_plan_spec in Hplan.
    destruct (value_columns df row) as [|kv [|kv' rest]] eqn:Ev; simplify_eq.
    + exists row, (suffix, df). split; [done|]. split; [done|]. by apply value_columns_nil.
    + destruct (value_columns_two df row) as (i & j & k1 & v1 & k2 & v2 & Hrest).
      { rewrite Ev. simpl. lia. }
      exists row, (suffix, df), i, j, k1, v1, k2, v2. done.
  - apply pair_plan_value in Hplan as [k Hk]. apply coerce_Err in Hv.
    destruct v as [t|n|f|b|]; try done.
    + destruct Hv as [-> Hp]. eauto.
    + subst e. split; [right; eauto|eauto].
    + subst e. split; [by left|eauto].
Qed.

(** *** A sub-metric whose column is not written in lower case *)

(** The columns are compared in lower case with the column named by the
    sub-metric as it is: a sub-metric whose column is not written in lower
    case matches no column, and [SetMetrics] fails on every record set
    that has a row of several columns. *)
Theorem SetMetrics_sub_metric_case q recs st row sd :
  sd ∈ effective_submetrics q → ToLower sd.2 ≠ sd.2 →
  row ∈ recs → 1 < length row →
  ∃ e st', SetMetrics q recs st = (Err e, st').
Proof.
  intros Hsd Hcase Hrow Hlen.
  destruct (SetMetrics q recs st) as [[fwr|e] st'] eqn:HS; [exfalso|eauto].
  rewrite SetMetrics_eq in HS. destruct (validation q recs); [done|].
  apply range_pairs_plans in HS. rewrite Forall_forall in HS.
  destruct (HS (row, sd)) as (facet & v & f & Hplan & _); [by apply elem_of_pairs|].
  destruct sd as [suffix df]. rewrite pair_plan_spec in Hplan.
  destruct (value_columns df row) as [|[k x] [|kv' rest]] eqn:Ev; [done| |done].
  assert ((k, x) ∈ value_columns df row) as Hin by (rewrite Ev; by left).
  unfold value_columns in Hin. apply list_elem_of_filter in Hin as [Hv _].
  simpl in Hv, Hcase. apply is_value_column_many in Hv; [|done].
  apply Hcase. rewrite <-Hv. apply ToLower_idemp.
Qed.

(** *** The labels of a row *)






Lemma last_float_produced_at q subs ps k f :
  last_float q subs ps k = Some f →
  ∃ p, p ∈ ps ∧ pair_key q subs p = Some k ∧ pair_float subs p = Some f.
Proof.
  induction ps as [|p ps IH]; simpl; [done|].
  destruct (last_float q subs ps k) as [f'|].
  - intros [= ->]. destruct IH as (p' & ? & ? & ?); [done|]. exists p'. split; [by right|done].
  - case_decide; [|done]. intros Hf. exists p. split; [by left|done].
Qed.

(** *** A record set of one cell, with sub-metrics *)

Lemma single_cell_plan subs c v sd : pair_plan subs ([(c, v)], sd) = Ok (∅, v).
Proof.
  destruct sd as [suffix df]. by rewrite pair_plan_spec.
Qed.

(** A record set of one cell, as [Fetch] hands over when the query fails
    and a value is configured for that: every sub-metric gets the series
    without labels, all with the value of the cell, and every other series
    of the query is retired. *)
Theorem Worker_SetMetrics_single_cell_sub_metrics q c v f st :
  wf st → ¬ (DataField q ≠ EmptyString ∧ 0 < length (SubMetrics q)) → coerce v = Ok f →
  let st2 := Worker_SetMetrics q [[(c, v)]] st in
  (∀ k, is_Some (Result st2 !! k) ↔
        ∃ suffix, suffix ∈ (effective_submetrics q).*1 ∧ k = metricName q suffix +:+ "{}") ∧
  (∀ k m, Result st2 !! k = Some m → ∃ g, gauges st2 !! m = Some g ∧ gauge_value g = f) ∧
  ∃ cs, calls st2 = calls st ++ cs ∧
        ∀ m, Unregister m ∈ cs ↔
             ∃ k, Result st !! k = Some m ∧
                  ∀ suffix, suffix ∈ (effective_submetrics q).*1 →
                            k ≠ metricName q suffix +:+ "{}".
Proof.
  intros Hwf Hq Hv st2. set (subs := effective_submetrics q) in *.
  set (ps := pairs subs [[(c, v)]]).
  assert (∀ p, p ∈ ps → pair_plan subs p = Ok (∅, v)) as Hplans.
  { intros [row sd] Hp. apply elem_of_pairs in Hp as [->%list_elem_of_singleton _].
    apply single_cell_plan. }
  assert (∀ k, produced q subs ps k ↔
               ∃ suffix, suffix ∈ subs.*1 ∧ k = metricName q suffix +:+ "{}") as Hprod.
  { intros k. unfold produced. split.
    - intros ([row [suffix df]] & Hp & Hk). unfold pair_key in Hk.
      rewrite (Hplans _ Hp) in Hk. injection Hk as <-.
      apply elem_of_pairs in Hp as [_ Hsd]. exists suffix. split; [|done].
      apply list_elem_of_fmap. by exists (suffix, df).
    - intros (suffix & Hs & ->). apply list_elem_of_fmap in Hs as ([s df] & -> & Hsd).
      exists ([(c, v)], (s, df)). split.
      + apply elem_of_pairs. split; [by left|done].
      + unfold pair_key. by rewrite single_cell_plan. }
  destruct (range_pairs_succeeds q subs ps ∅ st) as (fwr & st1 & HS).
  { apply Forall_forall. intros p Hp. exists ∅, v, f. split; [by apply Hplans|done]. }
  assert (SetMetrics q [[(c, v)]] st = (Ok fwr, st1)) as HSM.
  { rewrite SetMetrics_eq. unfold validation. rewrite decide_False by (simpl; lia).
    by rewrite decide_False. }
  assert (st2 = RegisterMetrics fwr st1) as ->.
  { subst st2. unfold Worker_SetMetrics. by rewrite HSM. }
  destruct (range_pairs_frame _ _ _ _ _ _ _ HS Hwf) as [Hwf1 (Hc & Hres & _)].
  destruct (range_pairs_keys _ _ _ _ _ _ _ Hwf HS) as (Hall & HK & HF & _ & _).
  destruct (range_pairs_values _ _ _ _ _ _ _ Hwf HS) as [HV1 _].
  destruct (RegisterMetrics_spec fwr st1) as (Hg & Hr & cs & Hcs & Hun & _).
  assert (∀ k, is_Some (fwr !! k) ↔ produced q subs ps k) as Hfwr.
  { intros k. rewrite HF, lookup_empty. split; [|by right]. intros [[? ?]|?]; done. }
  split; [|split].
  - intros k. rewrite <-Hprod, Hr. split.
    + destruct (fwr !! k) eqn:Ef; [|by intros [? ?]]. intros _. apply Hfwr. eauto.
    + intros Hp. apply Hfwr in Hp as Hf. destruct Hf as [s ->]. apply HK. by right.
  - intros k m. rewrite Hr, Hg. destruct (fwr !! k) eqn:Ef; [|done]. intros Hk.
    destruct Hwf1 as [Hlt _].
    destruct (lookup_lt_is_Some_2 _ _ (Hlt _ _ Hk)) as [g Hgm].
    exists g. split; [done|].
    assert (produced q subs ps k) as Hp by (apply Hfwr; eauto).
    destruct (produced_last_float q subs ps k Hall Hp) as [f' Hl].
    rewrite (HV1 _ _ _ _ Hk Hl Hgm).
    apply last_float_produced_at in Hl as (p & Hin & _ & Hf').
    unfold pair_float in Hf'. rewrite (Hplans _ Hin), Hv in Hf'. congruence.
  - exists cs. split; [by rewrite Hcs, Hc|]. intros m. rewrite Hun. split.
    + intros (k & Hk & Hnone).
      assert (¬ produced q subs ps k) as Hnp.
      { rewrite <-Hfwr, Hnone. by intros [? ?]. }
      exists k. split.
      * destruct (proj1 (HK k)) as [[m0 Hm0]|?]; [eauto| |done].
        apply Hres in Hm0 as Hm0'. congruence.
      * intros suffix Hs ->. apply Hnp, Hprod. eauto.
    + intros (k & Hk & Hne). exists k. split; [by apply Hres|].
      apply eq_None_not_Some. rewrite Hfwr, Hprod. intros (suffix & Hs & ->).
      by eapply Hne.
Qed.

(** *** An empty record set *)

(** An empty record set retires every series of the query. *)
Theorem Worker_SetMetrics_empty q st :
  ¬ (DataField q ≠ EmptyString ∧ 0 < length (SubMetrics q)) →
  let st' := Worker_SetMetrics q [] st in
  Result st' = ∅ ∧ gauges st' = gauges st ∧
  ∃ cs, calls st' = calls st ++ cs ∧
        ∀ c, c ∈ cs ↔ ∃ k m, Result st !! k = Some m ∧ c = Unregister m.
Proof.
  intros Hq st'.
  assert (SetMetrics q [] st = (Ok ∅, st)) as HS.
  { unfold SetMetrics. rewrite decide_False by (simpl; lia). by rewrite decide_False. }
  assert (st' = RegisterMetrics ∅ st) as ->.
  { subst st'. unfold Worker_SetMetrics. by rewrite HS. }
  destruct (RegisterMetrics_spec ∅ st) as (Hg & Hr & cs & Hcs & Hun & Hmr).
  split; [|split; [done|]].
  - apply map_eq. intros k. rewrite Hr. by rewrite !lookup_empty.
  - exists cs. split; [done|]. intros [m|m].
    + rewrite Hun. split.
      * intros (k & Hk & _). eauto.
      * intros (k & m' & Hk & [= ->]). exists k. by rewrite lookup_empty.
    + rewrite Hmr. split.
      * intros (k & _ & Hk). by rewrite lookup_empty in Hk.
      * intros (k & m' & _ & ?). done.
Qed.

(** *** The calls of one reconciliation *)

Lemma NoDup_handles st : wf st → NoDup (map_to_list (Result st)).*2.
Proof.
  intros [_ Hinj]. apply NoDup_fmap_2_strong; [|apply NoDup_map_to_list].
  intros [k1 m1] [k2 m2] H1%elem_of_map_to_list H2%elem_of_map_to_list. simpl.
  intros <-. by rewrite (Hinj _ _ _ H1 H2).
Qed.

Lemma NoDup_filter_handles st (P : string * handle → Prop) `{∀ e, Decision (P e)} :
  wf st → NoDup (filter P (map_to_list (Result st))).*2.
Proof.
  intros [_ Hinj]. apply NoDup_fmap_2_strong; [|apply NoDup_filter, NoDup_map_to_list].
  intros [k1 m1] [k2 m2] [_ H1%elem_of_map_to_list]%list_elem_of_filter
    [_ H2%elem_of_map_to_list]%list_elem_of_filter. simpl.
  intros <-. by rewrite (Hinj _ _ _ H1 H2).
Qed.

Lemma RegisterMetrics_trace fwr st :
  wf st →
  ∃ retired published : list handle,
    calls (RegisterMetrics fwr st) =
      calls st ++ (Unregister <$> retired) ++ (MustRegister <$> published) ∧
    NoDup (retired ++ published) ∧
    (∀ m, m ∈ retired ↔ ∃ k, Result st !! k = Some m ∧ fwr !! k = None) ∧
    (∀ m, m ∈ published ↔ ∃ k, Result st !! k = Some m ∧ fwr !! k = Some unregistered).
Proof.
  intros Hwf. unfold RegisterMetrics. rewrite RegisterMetrics_loop. simpl.
  set (l := map_to_list (Result st)).
  exists (filter (λ e, fwr !! e.1 = None) l).*2,
         (reverse (filter (λ e, fwr !! e.1 = Some unregistered) l).*2).
  assert (∀ m, m ∈ (filter (λ e, fwr !! e.1 = None) l).*2 ↔
               ∃ k, Result st !! k = Some m ∧ fwr !! k = None) as HR.
  { intros m. rewrite list_elem_of_fmap. split.
    - intros ([k m'] & -> & [Hf Hin%elem_of_map_to_list]%list_elem_of_filter). eauto.
    - intros (k & Hk & Hf). exists (k, m). split; [done|].
      apply list_elem_of_filter. split; [done|]. by apply elem_of_map_to_list. }
  assert (∀ m, m ∈ reverse (filter (λ e, fwr !! e.1 = Some unregistered) l).*2 ↔
               ∃ k, Result st !! k = Some m ∧ fwr !! k = Some unregistered) as HP.
  { intros m. rewrite elem_of_reverse, list_elem_of_fmap. split.
    - intros ([k m'] & -> & [Hf Hin%elem_of_map_to_list]%list_elem_of_filter). eauto.
    - intros (k & Hk & Hf). exists (k, m). split; [done|].
      apply list_elem_of_filter. split; [done|]. by apply elem_of_map_to_list. }
  split; [|split; [|done]].
  - rewrite app_nil_r, <-app_assoc. by rewrite <-?list_fmap_compose, ?fmap_reverse.
  - apply NoDup_app. split; [by apply NoDup_filter_handles|].
    split; [|rewrite reverse_Permutation; by apply NoDup_filter_handles].
    intros m (k1 & Hk1 & Hf1)%HR (k2 & Hk2 & Hf2)%HP.
    destruct Hwf as [_ Hinj]. rewrite (Hinj _ _ _ Hk1 Hk2) in Hf1. congruence.
Qed.

Lemma extends_length st st' : extends st st' → (length (gauges st) ≤ length (gauges st'))%nat.
Proof.
  intros (_ & _ & Hg). destruct (decide (length (gauges st) ≤ length (gauges st'))%nat); [done|].
  destruct (lookup_lt_is_Some_2 (gauges st) (length (gauges st'))) as [g Hgl]; [lia|].
  destruct (Hg _ _ Hgl) as (g' & Hg' & _). apply lookup_lt_Some in Hg'. lia.
Qed.

Lemma registerMetric_fresh q facets suffix st k m :
  Result (registerMetric q facets suffix st).2 !! k = Some m →
  Result st !! k = Some m ∨ (Result st !! k = None ∧ (length (gauges st) ≤ m)%nat).
Proof.
  destruct (Result st !! resultKey q facets suffix) as [m0|] eqn:E.
  - rewrite (registerMetric_present _ _ _ _ _ E). auto.
  - rewrite (registerMetric_absent _ _ _ _ E). simpl. rewrite lookup_insert.
    case_decide; [|auto]. subst k. intros [= <-]. right. split; [done|lia].
Qed.

Lemma range_pairs_fresh q subs ps fwr st r st' k m :
  range_pairs q subs ps fwr st = (r, st') → Result st' !! k = Some m →
  Result st !! k = Some m ∨ (Result st !! k = None ∧ (length (gauges st) ≤ m)%nat).
Proof.
  revert fwr st. induction ps as [|[row [suffix df]] ps IH]; intros fwr st; simpl.
  { intros [= <- <-]. auto. }
  assert (∀ r1 st1, submetric_body q subs row suffix df fwr st = (r1, st1) →
            Result st1 !! k = Some m →
            Result st !! k = Some m ∨ (Result st !! k = None ∧ (length (gauges st) ≤ m)%nat)) as Hstep.
  { intros r1 st1. rewrite submetric_body_eq.
    destruct (pair_plan _ _) as [[facet v]|e]; simpl; [|intros [= <- <-]; auto].
    destruct (coerce v); intros [= <- <-]; apply registerMetric_fresh. }
  destruct (submetric_body _ _ _ _ _ _ _) as [[fwr1|e] st1] eqn:E; [|intros [= <- <-]; eauto].
  intros Hr Hk. pose proof (submetric_body_extends _ _ _ _ _ _ _ _ _ E) as Hext.
  pose proof (extends_length _ _ Hext) as Hlen. destruct Hext as (_ & Hres & _).
  destruct (IH _ _ Hr Hk) as [Hk1|[Hk1 Hm]].
  - eauto.
  - right. split; [|lia]. destruct (Result st !! k) as [m'|] eqn:Ek; [|done].
    apply Hres in Ek. congruence.
Qed.

(** One round: the calls it makes, and where the handles it leaves come
    from. *)
Lemma Worker_SetMetrics_trace q recs st :
  wf st →
  let st2 := Worker_SetMetrics q recs st in
  ∃ retired published : list handle,
    calls st2 = calls st ++ (Unregister <$> retired) ++ (MustRegister <$> published) ∧
    NoDup retired ∧ NoDup published ∧
    (length (gauges st) ≤ length (gauges st2))%nat ∧
    (∀ m, m ∈ retired → (∃ k, Result st !! k = Some m) ∧ ∀ k, Result st2 !! k ≠ Some m) ∧
    (∀ m, m ∈ published →
       (length (gauges st) ≤ m)%nat ∧ ∃ k, Result st !! k = None ∧ Result st2 !! k = Some m) ∧
    (∀ k m, Result st2 !! k = Some m →
       Result st !! k = Some m ∨ (Result st !! k = None ∧ (length (gauges st) ≤ m)%nat)).
Proof.
  intros Hwf st2. subst st2. unfold Worker_SetMetrics.
  destruct (SetMetrics q recs st) as [[fwr|e] st1] eqn:HS.
  2: { exists [], []. simpl. rewrite app_nil_r.
       destruct (SetMetrics_frame _ _ _ _ _ HS Hwf) as [_ Hext].
       pose proof (extends_length _ _ Hext) as Hlen. destruct Hext as (Hc & _ & _).
       split; [done|]. split; [constructor|]. split; [constructor|]. split; [done|].
       split; [by intros m ?%not_elem_of_nil|]. split; [by intros m ?%not_elem_of_nil|].
       intros k m. rewrite SetMetrics_eq in HS. destruct (validation q recs).
       - injection HS as _ <-. auto.
       - intros Hk. by eapply range_pairs_fresh. }
  destruct (SetMetrics_frame _ _ _ _ _ HS Hwf) as [Hwf1 Hext].
  pose proof (extends_length _ _ Hext) as Hlen. destruct Hext as (Hc & Hres & _).
  rewrite SetMetrics_eq in HS. destruct (validation q recs); [done|].
  destruct (range_pairs_keys _ _ _ _ _ _ _ Hwf HS) as (_ & HK & HF & _ & HU).
  destruct (RegisterMetrics_trace fwr st1 Hwf1) as (R & P & Hcs & Hnd & HR & HP).
  destruct (RegisterMetrics_spec fwr st1) as (Hg & Hr & _).
  apply NoDup_app in Hnd as (HndR & _ & HndP).
  assert (∀ k, is_Some (fwr !! k) ↔ produced q (effective_submetrics q)
             (pairs (effective_submetrics q) recs) k) as Hfwr.
  { intros k. rewrite HF, lookup_empty. split; [|by right]. intros [[? ?]|?]; done. }
  exists R, P. rewrite Hcs, Hc, Hg. split; [done|]. split; [done|]. split; [done|].
  split; [done|]. split; [|split].
  - intros m (k & Hk & Hnone)%HR.
    assert (Result st !! k = Some m) as Hst.
    { destruct (proj1 (HK k)) as [[m0 Hm0]|Hp]; [eauto| |].
      - apply Hres in Hm0 as Hm0'. congruence.
      - apply Hfwr in Hp as [? ?]. congruence. }
    split; [eauto|]. intros k' Hk'. rewrite Hr in Hk'.
    destruct (fwr !! k') eqn:Ef; [|done].
    destruct Hwf1 as [_ Hinj]. rewrite (Hinj _ _ _ Hk Hk') in Hnone. congruence.
  - intros m (k & Hk & Hu)%HP.
    assert (Result st !! k = None) as Hnone.
    { apply HU; [|done]. apply Hfwr. eauto. }
    destruct (range_pairs_fresh _ _ _ _ _ _ _ _ _ HS Hk) as [?|[_ ?]]; [congruence|].
    split; [done|]. exists k. split; [done|]. by rewrite Hr, Hu.
  - intros k m. rewrite Hr. destruct (fwr !! k); [|done].
    intros Hk. by eapply range_pairs_fresh.
Qed.

(** [RegisterMetrics] first retires, then publishes: the deferred calls to
    [MustRegister] run when the loop is over, and no gauge gets both
    calls, nor one of them twice. *)
Theorem RegisterMetrics_retires_then_publishes fwr st :
  wf st →
  ∃ retired published : list handle,
    calls (RegisterMetrics fwr st) =
      calls st ++ (Unregister <$> retired) ++ (MustRegister <$> published) ∧
    NoDup (retired ++ published) ∧
    (∀ m, m ∈ retired ↔ ∃ k, Result st !! k = Some m ∧ fwr !! k = None) ∧
    (∀ m, m ∈ published ↔ ∃ k, Result st !! k = Some m ∧ fwr !! k = Some unregistered).
Proof. apply RegisterMetrics_trace. Qed.

(** A round publishes only gauges that it has created itself, and retires
    only gauges that existed before it: a gauge that is in the registry
    when the round begins is never handed to [MustRegister]. *)
Theorem Worker_SetMetrics_publishes_only_new q recs st :
  wf st →
  ∃ cs, calls (Worker_SetMetrics q recs st) = calls st ++ cs ∧
    (∀ m, MustRegister m ∈ cs →
       (length (gauges st) ≤ m)%nat ∧
       ∃ k, Result st !! k = None ∧ Result (Worker_SetMetrics q recs st) !! k = Some m) ∧
    (∀ m, Unregister m ∈ cs →
       (∃ k, Result st !! k = Some m) ∧
       ∀ k, Result (Worker_SetMetrics q recs st) !! k ≠ Some m).
Proof.
  intros Hwf. destruct (Worker_SetMetrics_trace q recs st Hwf)
    as (R & P & Hcs & _ & _ & _ & HR & HP & _).
  exists ((Unregister <$> R) ++ (MustRegister <$> P)). split; [done|]. split.
  - intros m [Hin|Hin]%elem_of_app; apply list_elem_of_fmap in Hin as (m' & Heq & Hin);
      [done|]. injection Heq as ->. by apply HP.
  - intros m [Hin|Hin]%elem_of_app; apply list_elem_of_fmap in Hin as (m' & Heq & Hin);
      [|done]. injection Heq as ->. by apply HR.
Qed.

(** *** The calls over the life of a registry *)

Lemma elem_of_published cs m : m ∈ published cs ↔ MustRegister m ∈ cs.
Proof.
  unfold published. rewrite list_elem_of_omap. split.
  - intros ([m'|m'] & Hin & Heq); [done|]. by injection Heq as ->.
  - intros Hin. by exists (MustRegister m).
Qed.

Lemma elem_of_retired cs m : m ∈ retired cs ↔ Unregister m ∈ cs.
Proof.
  unfold retired. rewrite list_elem_of_omap. split.
  - intros ([m'|m'] & Hin & Heq); [|done]. by injection Heq as ->.
  - intros Hin. by exists (Unregister m).
Qed.

Lemma published_app cs1 cs2 : published (cs1 ++ cs2) = published cs1 ++ published cs2.
Proof. apply omap_app. Qed.

Lemma retired_app cs1 cs2 : retired (cs1 ++ cs2) = retired cs1 ++ retired cs2.
Proof. apply omap_app. Qed.

Lemma published_Unregister R : published (Unregister <$> R) = [].
Proof.
  induction R as [|m R IH]; [done|].
  by change (published (Unregister <$> m :: R)) with (published (Unregister <$> R)).
Qed.

Lemma published_MustRegister P : published (MustRegister <$> P) = P.
Proof.
  induction P as [|m P IH]; [done|].
  change (published (MustRegister <$> m :: P)) with (m :: published (MustRegister <$> P)).
  by rewrite IH.
Qed.

Lemma retired_Unregister R : retired (Unregister <$> R) = R.
Proof.
  induction R as [|m R IH]; [done|].
  change (retired (Unregister <$> m :: R)) with (m :: retired (Unregister <$> R)).
  by rewrite IH.
Qed.

Lemma retired_MustRegister P : retired (MustRegister <$> P) = [].
Proof.
  induction P as [|m P IH]; [done|].
  by change (retired (MustRegister <$> m :: P)) with (retired (MustRegister <$> P)).
Qed.

Lemma published_trace cs R P :
  published (cs ++ (Unregister <$> R) ++ (MustRegister <$> P)) = published cs ++ P.
Proof. by rewrite !published_app, published_Unregister, published_MustRegister. Qed.

Lemma retired_trace cs R P :
  retired (cs ++ (Unregister <$> R) ++ (MustRegister <$> P)) = retired cs ++ R.
Proof.
  by rewrite !retired_app, retired_Unregister, retired_MustRegister, app_nil_r.
Qed.

Lemma call_order_NewQueryResult : call_order NewQueryResult.
Proof.
  split; [apply wf_NewQueryResult|]. simpl.
  split; [by intros m [?%not_elem_of_nil|?%not_elem_of_nil]|].
  split; [constructor|]. split; [constructor|]. split; [by intros k m ?|].
  intros i j m Hi. by rewrite lookup_nil in Hi.
Qed.

Lemma Worker_SetMetrics_call_order q recs st :
  call_order st → call_order (Worker_SetMetrics q recs st).
Proof.
  intros (Hwf & Hlt & Hpub & Hret & Hlive & Hord).
  destruct (Worker_SetMetrics_trace q recs st Hwf)
    as (R & P & Hcs & HndR & HndP & Hlen & HR & HP & Hfresh).
  set (st2 := Worker_SetMetrics q recs st) in *.
  assert (∀ m, m ∈ R → m < length (gauges st)) as HRlt.
  { intros m [[k Hk] _]%HR. destruct Hwf as [Hw _]. eauto. }
  assert (∀ m, Unregister m ∈ calls st2 ↔ Unregister m ∈ calls st ∨ m ∈ R) as HU.
  { intros m. rewrite Hcs, !elem_of_app, !list_elem_of_fmap. split.
    - intros [?|[(m' & [= ->] & ?)|(m' & ? & _)]]; auto; done.
    - intros [?|?]; [by left|]. right. left. eauto. }
  assert (∀ m, MustRegister m ∈ calls st2 ↔ MustRegister m ∈ calls st ∨ m ∈ P) as HM.
  { intros m. rewrite Hcs, !elem_of_app, !list_elem_of_fmap. split.
    - intros [?|[(m' & ? & _)|(m' & [= ->] & ?)]]; auto; done.
    - intros [?|?]; [by left|]. right. right. eauto. }
  split; [by apply Worker_SetMetrics_wf|]. split; [|split; [|split; [|split]]].
  - intros m. rewrite HU, HM. intros [[Hm|Hm]|[Hm|Hm]].
    + specialize (Hlt m (or_introl Hm)). lia.
    + specialize (HRlt m Hm). lia.
    + specialize (Hlt m (or_intror Hm)). lia.
    + destruct (HP m Hm) as [? (k & _ & Hk)].
      destruct (Worker_SetMetrics_wf q recs st Hwf) as [Hw _]. eauto.
  - rewrite Hcs, published_trace. apply NoDup_app. split; [done|]. split; [|done].
    intros m Hm%elem_of_published [Hp _]%HP. specialize (Hlt m (or_intror Hm)). lia.
  - rewrite Hcs, retired_trace. apply NoDup_app. split; [done|]. split; [|done].
    intros m Hm%elem_of_retired [[k Hk] _]%HR. by eapply Hlive.
  - intros k m Hk. rewrite HU. intros [Hu|Hr].
    + destruct (Hfresh _ _ Hk) as [Hk0|[_ Hge]]; [by eapply Hlive|].
      specialize (Hlt m (or_introl Hu)). lia.
    + apply HR in Hr as [_ Hr]. by eapply Hr.
  - intros i j m Hi Hj. rewrite Hcs in Hi, Hj.
    destruct (decide (j < length (calls st))) as [Hjl|Hjl].
    + rewrite lookup_app_l in Hj by done.
      destruct (decide (i < length (calls st))) as [Hil|Hil]; [|lia].
      rewrite lookup_app_l in Hi by done. eauto.
    + exfalso. rewrite lookup_app_r in Hj by lia.
      assert (m ∈ P) as Hp.
      { apply list_elem_of_lookup_2 in Hj. apply elem_of_app in Hj as [Hj|Hj];
          apply list_elem_of_fmap in Hj as (m' & Heq & ?); [done|]. by injection Heq as ->. }
      apply HP in Hp as [Hge _].
      apply list_elem_of_lookup_2 in Hi. rewrite <-Hcs in Hi. apply HU in Hi as [Hu|Hr].
      * specialize (Hlt m (or_introl Hu)). lia.
      * specialize (HRlt m Hr). lia.
Qed.

(** Over the life of a registry no gauge is handed twice to
    [MustRegister] nor twice to [Unregister], no gauge is published after
    it was retired, and no gauge of the registry has been retired. *)
Theorem polls_call_order q rounds :
  let st := polls q rounds NewQueryResult in
  NoDup (published (calls st)) ∧ NoDup (retired (calls st)) ∧
  (∀ k m, Result st !! k = Some m → Unregister m ∉ calls st) ∧
  (∀ i j m, calls st !! i = Some (Unregister m) → calls st !! j = Some (MustRegister m) →
            j < i).
Proof.
  assert (call_order (polls q rounds NewQueryResult)) as (_ & _ & ? & ? & ? & ?); [|done].
  unfold polls. generalize call_order_NewQueryResult. generalize NewQueryResult.
  induction rounds as [|recs rounds IH]; intros st Hst; [done|].
  simpl. by apply IH, Worker_SetMetrics_call_order.
Qed.

(** *** The gauges of the registry *)

Lemma row_facet_keys n df subs (cols : record) fa l :
  is_Some (row_facet n df subs cols fa !! l) ↔
  is_Some (fa !! l) ∨
  ∃ kv, kv ∈ cols ∧ ToLower kv.1 = l ∧ ¬ is_value_column n df kv.1 ∧
        is_submetric subs kv.1 = false.
Proof.
  unfold row_facet. revert fa. induction cols as [|[k v] cols IH]; intros fa; simpl.
  { split; [by left|]. intros [?|(kv & ?%not_elem_of_nil & _)]; done. }
  rewrite IH. split.
  - intros [Hfa|(kv & Hin & Hrest)].
    + destruct (decide (is_value_column n df k)); [by left|].
      destruct (is_submetric subs k) eqn:Es; [by left|].
      rewrite lookup_insert in Hfa. case_decide; [|by left].
      right. exists (k, v). split; [by left|]. done.
    + right. exists kv. split; [by right|done].
  - intros [Hfa|(kv & [->|Hin]%elem_of_cons & Hl & Hv & Hs)].
    + left. destruct (decide (is_value_column n df k)); [done|].
      destruct (is_submetric subs k); [done|].
      rewrite lookup_insert. case_decide; eauto.
    + left. simpl in *. rewrite decide_False by done. rewrite Hs.
      rewrite Hl, lookup_insert_eq. eauto.
    + right. eauto.
Qed.

Lemma pair_plan_facet_lower subs p facet v l :
  pair_plan subs p = Ok (facet, v) → is_Some (facet !! l) → ToLower l = l.
Proof.
  destruct p as [row [suffix df]]. rewrite pair_plan_spec.
  destruct (value_columns df row) as [|kv [|kv' rest]]; [done| |done].
  intros [= <- _]. rewrite row_facet_keys, lookup_empty.
  intros [[? ?]|(kv0 & _ & <- & _)]; [done|]. apply ToLower_idemp.
Qed.

Lemma described_mono q st st' :
  described q st →
  (∀ k m, Result st' !! k = Some m → Result st !! k = Some m) →
  (∀ m g, gauges st !! m = Some g →
          ∃ g', gauges st' !! m = Some g' ∧ same_descriptor g g') →
  described q st'.
Proof.
  intros Hd Hres Hg k m Hk%Hres.
  destruct (Hd _ _ Hk) as (g & facets & suffix & Hgm & -> & Hs & Hn & Hh & Hl & Hlow).
  destruct (Hg _ _ Hgm) as (g' & Hg' & Hn' & Hh' & Hl').
  exists g', facets, suffix. rewrite Hn', Hh', Hl'. done.
Qed.

Lemma registerMetric_described q facets suffix st :
  described q st → suffix ∈ (effective_submetrics q).*1 →
  (∀ l, is_Some (facets !! l) → ToLower l = l) →
  described q (registerMetric q facets suffix st).2.
Proof.
  intros Hd Hs Hlow.
  destruct (Result st !! resultKey q facets suffix) as [m0|] eqn:E.
  { by rewrite (registerMetric_present _ _ _ _ _ E). }
  rewrite (registerMetric_absent _ _ _ _ E). intros k m. simpl. rewrite lookup_insert.
  case_decide as Hk.
  - subst k. intros [= <-].
    exists (NewGauge ("query_result_" +:+ metricName q suffix) "Result of an SQL query"
              (facet_labels facets)), facets, suffix.
    split; [|done]. rewrite lookup_app_r by done. by rewrite Nat.sub_diag.
  - intros Hm. destruct (Hd _ _ Hm) as (g & fa & su & Hgm & Hrest).
    exists g, fa, su. split; [by apply lookup_app_l_Some|done].
Qed.

Lemma set_series_described q key f st : described q st → described q (set_series key f st).
Proof.
  intros Hd. apply (described_mono q st); [done|done|].
  apply (set_series_extends key f st).
Qed.

Lemma range_pairs_described q ps fwr st r st' :
  described q st → (∀ p, p ∈ ps → p.2 ∈ effective_submetrics q) →
  range_pairs q (effective_submetrics q) ps fwr st = (r, st') → described q st'.
Proof.
  revert fwr st. induction ps as [|[row [suffix df]] ps IH]; intros fwr st Hd Hps; simpl.
  { by intros [= _ <-]. }
  assert (suffix ∈ (effective_submetrics q).*1) as Hs.
  { apply list_elem_of_fmap. exists (suffix, df). split; [done|]. apply (Hps (row, _)). by left. }
  assert (∀ p, p ∈ ps → p.2 ∈ effective_submetrics q) as Hps'.
  { intros p ?. apply Hps. by right. }
  rewrite submetric_body_eq.
  destruct (pair_plan _ _) as [[facet v]|e] eqn:Hplan; simpl; [|by intros [= _ <-]].
  assert (described q (registerMetric q facet suffix st).2) as Hd1.
  { apply registerMetric_described; [done|done|].
    intros l. by eapply pair_plan_facet_lower. }
  destruct (coerce v); [|by intros [= _ <-]].
  apply IH; [by apply set_series_described|done].
Qed.

Lemma Worker_SetMetrics_described q recs st :
  described q st → described q (Worker_SetMetrics q recs st).
Proof.
  intros Hd. unfold Worker_SetMetrics.
  destruct (SetMetrics q recs st) as [r st1] eqn:HS.
  assert (described q st1) as Hd1.
  { rewrite SetMetrics_eq in HS. destruct (validation q recs); [by injection HS as _ <-|].
    eapply range_pairs_described; [done| |done].
    intros [row sd] Hp. by apply elem_of_pairs in Hp as [_ ?]. }
  destruct r as [fwr|e]; [|done].
  destruct (RegisterMetrics_spec fwr st1) as (Hg & Hr & _).
  apply (described_mono q st1); [done| |].
  - intros k m. rewrite Hr. by destruct (fwr !! k).
  - intros m g Hm. exists g. rewrite Hg. split; [done|apply same_descriptor_refl].
Qed.

(** Every series of the registry has the gauge that [registerMetric] makes
    for its key: named after the query and one of its suffixes, with the
    fixed help text, and with label names and label values in lower
    case. *)
Theorem polls_described q rounds k m :
  Result (polls q rounds NewQueryResult) !! k = Some m →
  ∃ g facets suffix,
    gauges (polls q rounds NewQueryResult) !! m = Some g ∧
    k = resultKey q facets suffix ∧ suffix ∈ (effective_submetrics q).*1 ∧
    gauge_Name g = "query_result_" +:+ metricName q suffix ∧
    gauge_Help g = "Result of an SQL query" ∧
    gauge_ConstLabels g = facet_labels facets ∧
    ∀ l s, gauge_ConstLabels g !! l = Some s → ToLower l = l ∧ ToLower s = s.
Proof.
  assert (described q (polls q rounds NewQueryResult)) as Hd.
  { unfold polls. assert (described q NewQueryResult) as H0 by (by intros ? ? ?).
    revert H0. generalize NewQueryResult.
    induction rounds as [|recs rounds IH]; intros st Hst; [done|].
    simpl. by apply IH, Worker_SetMetrics_described. }
  intros Hk. destruct (Hd _ _ Hk) as (g & facets & suffix & Hg & -> & Hs & Hn & Hh & Hl & Hlow).
  exists g, facets, suffix. repeat (split; [done|]).
  intros l s. rewrite Hl. unfold facet_labels. rewrite lookup_fmap.
  destruct (facets !! l) as [v|] eqn:El; [|done]. simpl. intros [= <-].
  split; [apply Hlow; eauto|apply ToLower_idemp].
Qed.

End Properties.

(** ** Properties of the loader *)

Section LoaderProperties.
Context `{GoFloat} `{!Loader.Host}.

(** *** validateConfig *)

Lemma validateConfig_range_None (l : list (string * Config.DataSource)) :
  Config.validateConfig_range l = None ↔ Forall (λ e, DataSource_ok e.2) l.
Proof.
  induction l as [|[name ds] l IH]; simpl; [by split; [constructor|]|].
  rewrite Forall_cons, <-IH. unfold DataSource_ok. simpl.
  rewrite <-(map_size_empty_iff (Config.Properties ds)).
  repeat case_decide; naive_solver.
Qed.

Lemma validateConfig_range_Some (l : list (string * Config.DataSource)) err :
  Config.validateConfig_range l = Some err →
  ∃ name ds, (name, ds) ∈ l ∧
    ((Config.Driver ds = EmptyString ∧
      err = "Driver is not defined for data source [" +:+ name +:+ "]") ∨
     (Config.Driver ds ≠ EmptyString ∧ Config.Properties ds = ∅ ∧
      err = "Properties are not defined for data source [" +:+ name +:+ "]")).
Proof.
  induction l as [|[name ds] l IH]; simpl; [done|].
  repeat case_decide.
  - intros [= <-]. exists name, ds. split; [by left|]. by left.
  - intros [= <-]. exists name, ds. split; [by left|]. right.
    split; [done|]. split; [|done]. by apply map_size_empty_iff.
  - intros (name' & ds' & Hin & Hrest)%IH. exists name', ds'. split; [by right|done].
Qed.

(** Whatever the order in which [range] visits the data sources,
    [validateConfig] accepts the configuration exactly when every data
    source has a driver and at least one property; and the error it returns
    names a data source that lacks one of them. *)
Theorem validateConfig_any_order (c : Config.Config) (l : list (string * Config.DataSource)) :
  l ≡ₚ map_to_list (Config.DataSources c) →
  (Config.validateConfig_range l = None ↔
   ∀ name ds, Config.DataSources c !! name = Some ds → DataSource_ok ds) ∧
  (∀ err, Config.validateConfig_range l = Some err →
     ∃ name ds, Config.DataSources c !! name = Some ds ∧
       ((Config.Driver ds = EmptyString ∧
         err = "Driver is not defined for data source [" +:+ name +:+ "]") ∨
        (Config.Driver ds ≠ EmptyString ∧ Config.Properties ds = ∅ ∧
         err = "Properties are not defined for data source [" +:+ name +:+ "]"))).
Proof.
  intros Hl. split.
  - rewrite validateConfig_range_None, Forall_forall. split.
    + intros Hall name ds Hds. apply (Hall (name, ds)). rewrite Hl.
      by apply elem_of_map_to_list.
    + intros Hall [name ds] Hin. rewrite Hl in Hin. apply elem_of_map_to_list in Hin.
      by eapply Hall.
  - intros err (name & ds & Hin & Hrest)%validateConfig_range_Some.
    exists name, ds. split; [|done]. rewrite Hl in Hin. by apply elem_of_map_to_list.
Qed.

(** *** appendDefaults *)

Lemma appendDefaults_nonzero (c : Config.Config) :
  Config.QueryInterval (Config.Defaults (Config.appendDefaults c)) ≠ 0%Z ∧
  Config.QueryTimeout (Config.Defaults (Config.appendDefaults c)) ≠ 0%Z ∧
  Config.DataSources (Config.appendDefaults c) = Config.DataSources c.
Proof.
  unfold Config.appendDefaults. simpl. repeat case_decide; simpl; done.
Qed.

Lemma newConfig_nonzero :
  Config.QueryInterval (Config.Defaults Config.newConfig) ≠ 0%Z ∧
  Config.QueryTimeout (Config.Defaults Config.newConfig) ≠ 0%Z.
Proof. done. Qed.

(** *** decodeQueries *)

Lemma validateQuery_None q : Loader.validateQuery q = None ↔ valid_query q.
Proof. unfold Loader.validateQuery, valid_query. repeat case_decide; naive_solver. Qed.

Lemma fill_Driver c k q :
  Loader.Driver (Loader.fill c k q) ≠ EmptyString ↔
  Loader.Driver q ≠ EmptyString ∨
  (source_of c q ≠ EmptyString ∧
   ∃ ds, Config.DataSources c !! source_of c q = Some ds ∧ Config.Driver ds ≠ EmptyString).
Proof.
  unfold Loader.fill. simpl. fold (source_of c q).
  case_bool_decide as Hd.
  - destruct Hd as (Hq & Href & Hsize).
    destruct (Config.DataSources c !! source_of c q) as [ds|] eqn:E; simpl; naive_solver.
  - split; [by left|]. intros [?|(Href & ds & Hds & ?)]; [done|].
    destruct (decide (Loader.Driver q = EmptyString)) as [Hq|]; [|done]. exfalso. apply Hd.
    split; [done|]. split; [done|].
    destruct (decide (size (Config.DataSources c) = 0)) as [Hz|]; [|lia].
    apply map_size_empty_iff in Hz. by rewrite Hz, lookup_empty in Hds.
Qed.

Lemma fill_valid c k q :
  Config.QueryInterval (Config.Defaults c) ≠ 0%Z →
  Config.QueryTimeout (Config.Defaults c) ≠ 0%Z →
  valid_query (Loader.fill c k q) ↔ accepted c (k, q).
Proof.
  intros Hi Ht. unfold valid_query, accepted. rewrite fill_Driver. simpl.
  repeat case_decide; naive_solver.
Qed.

Lemma range_data_Success c data queries qs :
  Loader.range_data c data queries = Success qs ↔
  ∃ entries : list (string * Loader.Query),
    data = (λ e, (e.1, Some e.2)) <$> entries ∧
    qs = queries ++ ((λ e, Loader.fill c e.1 e.2) <$> entries) ∧
    Forall (λ e, valid_query (Loader.fill c e.1 e.2)) entries.
Proof.
  revert queries. induction data as [|[k [q|]] data IH]; intros queries; simpl.
  - split.
    + intros [= <-]. exists []. by rewrite app_nil_r.
    + intros ([|e entries] & Hd & -> & _); [by rewrite app_nil_r|done].
  - destruct (Loader.validateQuery (Loader.fill c k q)) as [err|] eqn:Ev.
    + split; [done|]. intros ([|[k' q'] entries] & Hd & _ & Hall); [done|].
      simpl in Hd. injection Hd as -> -> _. apply Forall_cons in Hall as [Hv _].
      apply validateQuery_None in Hv. simpl in Hv. congruence.
    + rewrite IH. apply validateQuery_None in Ev. split.
      * intros (entries & -> & -> & Hall). exists ((k, q) :: entries). simpl.
        rewrite <-app_assoc. split; [done|]. split; [done|]. by constructor.
      * intros ([|[k' q'] entries] & Hd & -> & Hall); [done|].
        simpl in Hd. injection Hd as -> -> ->. apply Forall_cons in Hall as [_ Hall].
        exists entries. simpl. rewrite <-app_assoc. done.
  - split; [done|]. intros ([|e entries] & Hd & _); done.
Qed.

Lemma range_parsedQueries_Success c parsed queries qs :
  Loader.range_parsedQueries c parsed queries = Success qs ↔
  ∃ entries : list (string * Loader.Query),
    concat parsed = (λ e, (e.1, Some e.2)) <$> entries ∧
    qs = queries ++ ((λ e, Loader.fill c e.1 e.2) <$> entries) ∧
    Forall (λ e, valid_query (Loader.fill c e.1 e.2)) entries.
Proof.
  revert queries. induction parsed as [|data parsed IH]; intros queries; simpl.
  - split.
    + intros [= <-]. exists []. by rewrite app_nil_r.
    + intros ([|e entries] & Hd & -> & _); [by rewrite app_nil_r|done].
  - destruct (Loader.range_data c data queries) as [queries'| |] eqn:Ed.
    + apply range_data_Success in Ed as (e1 & -> & -> & Hall1). rewrite IH. split.
      * intros (e2 & Hc & -> & Hall2). exists (e1 ++ e2).
        rewrite !fmap_app, Hc, <-app_assoc. split; [done|]. split; [done|].
        by apply Forall_app.
      * intros (entries & Hc & -> & Hall).
        symmetry in Hc. apply fmap_app_inv in Hc as (e1' & e2 & He1 & He2 & ->).
        assert (e1' = e1) as ->.
        { symmetry. revert He1. clear. revert e1'.
          induction e1 as [|[k q] e1 IH]; intros [|[k' q'] e1']; simpl; try done.
          intros [= -> -> Hrest]. f_equal. by apply IH. }
        exists e2. apply Forall_app in Hall as [_ Hall2].
        rewrite fmap_app, <-app_assoc. done.
    + split; [done|]. intros (entries & Hc & -> & Hall). exfalso.
      symmetry in Hc. apply fmap_app_inv in Hc as (e1 & e2 & He1 & He2 & ->).
      apply Forall_app in Hall as [Hall1 _].
      assert (Loader.range_data c data queries =
              Success (queries ++ ((λ e, Loader.fill c e.1 e.2) <$> e1))) as Hs.
      { apply range_data_Success. by exists e1. }
      congruence.
    + split; [done|]. intros (entries & Hc & -> & Hall). exfalso.
      symmetry in Hc. apply fmap_app_inv in Hc as (e1 & e2 & He1 & He2 & ->).
      apply Forall_app in Hall as [Hall1 _].
      assert (Loader.range_data c data queries =
              Success (queries ++ ((λ e, Loader.fill c e.1 e.2) <$> e1))) as Hs.
      { apply range_data_Success. by exists e1. }
      congruence.
Qed.

(** With a configuration whose default interval and timeout are set,
    [decodeQueries] returns the queries of a file exactly when every entry
    has a key, a body and an SQL statement, and a driver of its own or a
    data source, named by the entry or by default, that the configuration
    defines with a driver; the queries are then the entries in order, each
    with the assignments of [fill]. An interval or a timeout left out is
    no reason to reject a query. *)
Theorem decodeQueries_accepts b c parsed qs :
  Loader.Unmarshal_Queries b = Success parsed →
  Config.QueryInterval (Config.Defaults c) ≠ 0%Z →
  Config.QueryTimeout (Config.Defaults c) ≠ 0%Z →
  Loader.decodeQueries (Reads b) (Some c) = Success qs ↔
  ∃ entries : list (string * Loader.Query),
    concat parsed = (λ e, (e.1, Some e.2)) <$> entries ∧
    qs = (λ e, Loader.fill c e.1 e.2) <$> entries ∧
    Forall (accepted c) entries.
Proof.
  intros Hb Hi Ht. unfold Loader.decodeQueries. rewrite Hb, range_parsedQueries_Success.
  simpl. split; intros (entries & Hc & -> & Hall); exists entries;
    (split; [done|]); (split; [done|]); eapply Forall_impl; try done;
    intros [k q]; by rewrite fill_valid.
Qed.

Lemma decodeQueries_loaded r c qs :
  Loader.decodeQueries r (Some c) = Success qs → Forall (loaded c) qs.
Proof.
  unfold Loader.decodeQueries. destruct r as [b|err]; [|done].
  destruct (Loader.Unmarshal_Queries b) as [parsed| |]; [|done..].
  intros (entries & _ & -> & Hall)%range_parsedQueries_Success. simpl.
  apply Forall_fmap. eapply Forall_impl; [done|]. intros [k q] Hv. simpl in *.
  split; [done|]. by exists k, q.
Qed.

(** Every query that [decodeQueries] returns has a name, a driver, an SQL
    statement, a timeout and an interval, its data field in lower case,
    and a value on error unless neither the query nor the configuration
    gives one. *)
Theorem decodeQueries_valid r c qs :
  Loader.decodeQueries r (Some c) = Success qs →
  Forall (λ q, valid_query q ∧ ToLower (Loader.DataField q) = Loader.DataField q ∧
               (Loader.ValueOnError q = EmptyString →
                Config.QueryValueOnError (Config.Defaults c) = EmptyString)) qs.
Proof.
  intros Hall%decodeQueries_loaded. eapply Forall_impl; [done|].
  intros q [Hv (k & q0 & ->)]. split; [done|]. simpl. split; [apply ToLower_idemp|].
  case_decide as Hd; [naive_solver|]. intros Hq.
  destruct (decide (Config.QueryValueOnError (Config.Defaults c) = EmptyString)); [done|].
  exfalso. by apply Hd.
Qed.

(** *** loadConfig *)

Lemma loadConfig_nonzero file c :
  Loader.loadConfig file = Success c →
  Config.QueryInterval (Config.Defaults c) ≠ 0%Z ∧
  Config.QueryTimeout (Config.Defaults c) ≠ 0%Z ∧
  (∀ name ds, Config.DataSources c !! name = Some ds → DataSource_ok ds).
Proof.
  unfold Loader.loadConfig.
  destruct (Loader.ReadFile file) as [b| |] eqn:Er; [|done..].
  destruct (Loader.Unmarshal_Config (Loader.ExpandEnv b)) as [c0| |] eqn:Eu; [|done..].
  destruct (Config.validateConfig (Config.appendDefaults c0)) as [err|] eqn:Ev; [done|].
  intros [= <-]. destruct (appendDefaults_nonzero c0) as (Hi & Ht & _).
  split; [done|]. split; [done|].
  apply validateConfig_range_None in Ev. rewrite Forall_forall in Ev.
  intros name ds Hds. by apply (Ev (name, ds)), elem_of_map_to_list.
Qed.

(** The configuration that [loadConfig] returns is the decoded one after
    [appendDefaults]: its default interval and timeout are set, and every
    data source has a driver and properties. *)
Theorem loadConfig_valid file c :
  Loader.loadConfig file = Success c →
  Config.QueryInterval (Config.Defaults c) ≠ 0%Z ∧
  Config.QueryTimeout (Config.Defaults c) ≠ 0%Z ∧
  (∀ name ds, Config.DataSources c !! name = Some ds → DataSource_ok ds) ∧
  ∃ b c0, Loader.ReadFile file = Success b ∧
          Loader.Unmarshal_Config (Loader.ExpandEnv b) = Success c0 ∧
          c = Config.appendDefaults c0.
Proof.
  unfold Loader.loadConfig.
  destruct (Loader.ReadFile file) as [b| |] eqn:Er; [|done..].
  destruct (Loader.Unmarshal_Config (Loader.ExpandEnv b)) as [c0| |] eqn:Eu; [|done..].
  destruct (Config.validateConfig (Config.appendDefaults c0)) as [err|] eqn:Ev; [done|].
  intros [= <-]. destruct (appendDefaults_nonzero c0) as (Hi & Ht & _).
  split; [done|]. split; [done|]. split; [|by exists b, c0].
  apply validateConfig_range_None in Ev. rewrite Forall_forall in Ev.
  intros name ds Hds. by apply (Ev (name, ds)), elem_of_map_to_list.
Qed.

(** *** The directory of query files *)

Lemma substring_all s : substring 0 (String.length s) s = s.
Proof. induction s as [|c s IH]; [done|]. simpl. by rewrite IH. Qed.

Lemma substring_app pre suf :
  substring (String.length pre) (String.length suf) (pre +:+ suf) = suf.
Proof.
  induction pre as [|c pre IH]; [apply substring_all|].
  by rewrite string_app_cons.
Qed.

Lemma substring_split s n m :
  n + m = String.length s → s = substring 0 n s +:+ substring n m s.
Proof.
  revert n. induction s as [|c s IH]; intros n Hlen.
  - destruct n; [|done]. simpl in Hlen. by subst m.
  - destruct n as [|n].
    + rewrite Nat.add_0_l in Hlen. subst m. by rewrite substring_all.
    + simpl in Hlen. simpl. rewrite string_app_cons. f_equal. apply IH. lia.
Qed.

Lemma HasSuffix_spec s suffix :
  HasSuffix s suffix = true ↔ ∃ pre, s = pre +:+ suffix.
Proof.
  unfold HasSuffix. split.
  - destruct (Nat.leb_spec (String.length suffix) (String.length s)) as [Hle|]; [|done].
    intros Hs%bool_decide_eq_true. exists (substring 0 (String.length s - String.length suffix) s).
    rewrite <-Hs at 2. apply substring_split. lia.
  - intros [pre ->]. rewrite string_app_length.
    rewrite (proj2 (Nat.leb_le _ _)) by lia. apply bool_decide_eq_true.
    replace (String.length pre + String.length suffix - String.length suffix)
      with (String.length pre) by lia.
    apply substring_app.
Qed.

Local Arguments Loader.decodeQueries : simpl never.

Lemma range_files_cons path c allow fn files queries :
  Loader.range_files path c allow (fn :: files) queries =
  if HasSuffix fn ".yml" then
    match Loader.Open (TrimRight path "/" +:+ "/" +:+ fn) with
    | Failure err => Failure err
    | Panicked => Panicked
    | Success file =>
        match Loader.decodeQueries file (Some c) with
        | Success q => Loader.range_files path c allow files (queries ++ q)
        | Failure err =>
            if allow then Loader.range_files path c allow files queries else Failure err
        | Panicked => Panicked
        end
    end
  else Loader.range_files path c allow files queries.
Proof. done. Qed.

Lemma range_files_yml path c allow files queries :
  Loader.range_files path c allow files queries =
  Loader.range_files path c allow (filter is_yml files) queries.
Proof.
  revert queries. induction files as [|fn files IH]; intros queries; [done|].
  rewrite filter_cons, range_files_cons.
  destruct (decide (is_yml fn)) as [Hy|Hy]; unfold is_yml in Hy.
  - rewrite range_files_cons, Hy.
    destruct (Loader.Open _) as [file| |]; [|done..].
    destruct (Loader.decodeQueries _ _) as [q|err|]; [apply IH| |done].
    destruct allow; [apply IH|done].
  - apply not_true_is_false in Hy. rewrite Hy. apply IH.
Qed.

Lemma range_files_Success path c allow files queries qs :
  Loader.range_files path c allow files queries = Success qs →
  qs = queries ++ concat (omap (contribution path c) (filter is_yml files)) ∧
  Forall (λ fn, ∃ file, Loader.Open (TrimRight path "/" +:+ "/" +:+ fn) = Success file)
         (filter is_yml files) ∧
  (allow = false → Forall (λ fn, is_Some (contribution path c fn)) (filter is_yml files)).
Proof.
  revert queries. induction files as [|fn files IH]; intros queries.
  { simpl. intros [= <-]. rewrite filter_nil. simpl. by rewrite app_nil_r. }
  rewrite filter_cons, range_files_cons.
  destruct (decide (is_yml fn)) as [Hy|Hy]; unfold is_yml in Hy.
  - rewrite Hy. simpl. unfold contribution at 1.
    destruct (Loader.Open _) as [file| |] eqn:Eo; [|done..].
    destruct (Loader.decodeQueries _ _) as [q|err|] eqn:Ed; [| |done].
    + intros (-> & Hopen & Hstrict)%IH. rewrite <-app_assoc. split; [done|].
      split; [constructor; eauto|]. intros Ha. constructor; [|by apply Hstrict].
      unfold contribution. rewrite Eo, Ed. eauto.
    + destruct allow; [|done]. intros (-> & Hopen & _)%IH.
      split; [done|]. split; [constructor; eauto|done].
  - apply not_true_is_false in Hy. rewrite Hy. apply IH.
Qed.

Lemma range_files_lax path c files queries err :
  Forall (λ fn, ∃ file, Loader.Open (TrimRight path "/" +:+ "/" +:+ fn) = Success file)
         (filter is_yml files) →
  Loader.range_files path c true files queries ≠ Failure err.
Proof.
  revert queries. induction files as [|fn files IH]; intros queries; [done|].
  rewrite filter_cons, range_files_cons.
  destruct (decide (is_yml fn)) as [Hy|Hy]; unfold is_yml in Hy.
  - rewrite Hy. intros [[file ->] Hall]%Forall_cons.
    destruct (Loader.decodeQueries _ _) as [q|e|]; [by apply IH|by apply IH|done].
  - apply not_true_is_false in Hy. rewrite Hy. apply IH.
Qed.

(** [loadQueriesInDir] reads the entries of the directory whose name ends
    in .yml and no other; the queries it returns are those of these files,
    in the order of the directory; when errors are not allowed every such
    file was decoded; when they are allowed, only a file that cannot be
    opened makes it fail. *)
Theorem loadQueriesInDir_yml path c allow files :
  Loader.ReadDir path = Success files →
  (∀ fn, is_yml fn ↔ ∃ base, fn = base +:+ ".yml") ∧
  Loader.loadQueriesInDir path c allow =
    Loader.range_files path c allow (filter is_yml files) [] ∧
  (∀ qs, Loader.loadQueriesInDir path c allow = Success qs →
     qs = concat (omap (contribution path c) (filter is_yml files)) ∧
     (allow = false →
      Forall (λ fn, is_Some (contribution path c fn)) (filter is_yml files))) ∧
  (allow = true →
   Forall (λ fn, ∃ file, Loader.Open (TrimRight path "/" +:+ "/" +:+ fn) = Success file)
          (filter is_yml files) →
   ∀ err, Loader.loadQueriesInDir path c allow ≠ Failure err).
Proof.
  intros Hdir. unfold Loader.loadQueriesInDir. rewrite Hdir.
  split; [intros fn; apply HasSuffix_spec|]. split; [apply range_files_yml|]. split.
  - intros qs (-> & _ & Hs)%range_files_Success. done.
  - intros -> Hopen err. by apply range_files_lax.
Qed.

(** *** main *)

Lemma loadQueriesInDir_loaded path c allow qs :
  Loader.loadQueriesInDir path c allow = Success qs → Forall (loaded c) qs.
Proof.
  unfold Loader.loadQueriesInDir. destruct (Loader.ReadDir path) as [files| |]; [|done..].
  intros (-> & _ & _)%range_files_Success. simpl.
  apply Forall_concat, Forall_forall. intros q (fn & _ & Hq)%list_elem_of_omap.
  unfold contribution in Hq. destruct (Loader.Open _) as [file| |]; [|done..].
  destruct (Loader.decodeQueries file (Some c)) as [q'| |] eqn:Ed; [|done..].
  injection Hq as <-. by eapply decodeQueries_loaded.
Qed.

Lemma loadQueryConfig_loaded file c qs :
  Loader.loadQueryConfig file c = Success qs → Forall (loaded c) qs.
Proof.
  unfold Loader.loadQueryConfig. destruct (Loader.Open file) as [r| |]; [|done..].
  apply decodeQueries_loaded.
Qed.

(** When [main] gets as far as starting the workers, the service was
    given, not both a file and a directory of queries were given, the
    configuration has its default interval and timeout and sound data
    sources, and there is at least one query, each of them valid with its
    data field in lower case. *)
Theorem main_Success f c qs :
  Loader.main f = Success (c, qs) →
  Loader.service f ≠ EmptyString ∧
  (Loader.queryDir f = EmptyString ∨ Loader.queriesFile f = EmptyString ∨
   Loader.queriesFile f = "queries.yml") ∧
  Config.QueryInterval (Config.Defaults c) ≠ 0%Z ∧
  Config.QueryTimeout (Config.Defaults c) ≠ 0%Z ∧
  (∀ name ds, Config.DataSources c !! name = Some ds → DataSource_ok ds) ∧
  qs ≠ [] ∧
  Forall (λ q, valid_query q ∧ ToLower (Loader.DataField q) = Loader.DataField q) qs.
Proof.
  unfold Loader.main. case_decide as Hs; [done|].
  case_decide as Hboth; [done|].
  assert (Loader.queryDir f = EmptyString ∨ Loader.queriesFile f = EmptyString ∨
          Loader.queriesFile f = "queries.yml") as Hflags.
  { destruct (decide (Loader.queryDir f = EmptyString)); [by left|]. right.
    case_decide as Hdef; [right; apply Hdef|]. left.
    destruct (decide (Loader.queriesFile f = EmptyString)); [done|]. exfalso. by apply Hboth. }
  set (config := if decide (Loader.confFile f ≠ EmptyString) then _ else _).
  destruct config as [c'| |] eqn:Ec; [|done..].
  assert (Config.QueryInterval (Config.Defaults c') ≠ 0%Z ∧
          Config.QueryTimeout (Config.Defaults c') ≠ 0%Z ∧
          ∀ name ds, Config.DataSources c' !! name = Some ds → DataSource_ok ds)
    as (Hi & Ht & Hds).
  { subst config. case_decide.
    - apply loadConfig_nonzero in Ec. done.
    - injection Ec as <-. split; [done|]. split; [done|]. intros name ds. simpl.
      by rewrite lookup_empty. }
  set (queries := if decide (Loader.queryDir f ≠ EmptyString) then _ else _).
  destruct queries as [qs'| |] eqn:Eq; [|done..].
  destruct (decide (length qs' = 0)) as [Hlen|Hlen]; [done|]. intros [= <- <-].
  assert (Forall (loaded c') qs') as Hall.
  { subst queries. case_decide.
    - by eapply loadQueriesInDir_loaded.
    - by eapply loadQueryConfig_loaded. }
  split; [done|]. split; [done|]. split; [done|]. split; [done|]. split; [done|].
  split; [by destruct qs'|]. eapply Forall_impl; [done|].
  intros q [Hv (k & q0 & ->)]. split; [done|]. apply ToLower_idemp.
Qed.

(** A directory of queries together with a file of queries is refused,
    unless the file is the default one, queries.yml: then the file is
    dropped and the directory is read, as if no file had been given. *)
Theorem main_queries_and_queryDir f :
  Loader.service f ≠ EmptyString → Loader.queryDir f ≠ EmptyString →
  (Loader.queriesFile f ≠ EmptyString → Loader.queriesFile f ≠ "queries.yml" →
   Loader.main f = Failure "Error: You can specify either -queries or -queryDir") ∧
  (Loader.queriesFile f = "queries.yml" →
   Loader.main f =
   Loader.main {| Loader.host := Loader.host f; Loader.port := Loader.port f;
                  Loader.service := Loader.service f; Loader.queriesFile := EmptyString;
                  Loader.queryDir := Loader.queryDir f; Loader.confFile := Loader.confFile f;
                  Loader.tolerateInvalidQueryDirFiles :=
                    Loader.tolerateInvalidQueryDirFiles f |}).
Proof.
  intros Hs Hd. split.
  - intros Hq Hdef. unfold Loader.main. rewrite (decide_False (P := Loader.service f = _)) by done.
    destruct (decide (Loader.queriesFile f = Config.DefaultQueriesFile ∧
                      Loader.queryDir f ≠ EmptyString)) as [[Heq _]|_]; [done|].
    by rewrite decide_True.
  - intros Hq. unfold Loader.main. simpl.
    rewrite !(decide_False (P := Loader.service f = _)) by done.
    destruct (decide (Loader.queriesFile f = Config.DefaultQueriesFile ∧
                      Loader.queryDir f ≠ EmptyString)) as [_|Hn]; [|by destruct Hn].
    destruct (decide (EmptyString = Config.DefaultQueriesFile ∧
                      Loader.queryDir f ≠ EmptyString)) as [[? _]|_]; [done|].
    rewrite !(decide_False (P := EmptyString ≠ EmptyString ∧ _)) by (by intros [? _]).
    destruct (decide (Loader.confFile f ≠ EmptyString)); [|by rewrite !decide_True by done].
    destruct (Loader.loadConfig _); [|done..]. by rewrite !decide_True by done.
Qed.

End LoaderProperties.

(** ** Properties of the worker *)

Section WorkerProperties.
Context `{GoFloat} `{!Agent}.
Implicit Types (w : Worker) (events rest : list event) (st : state).


Lemma polls_app q (r1 r2 : list records) st :
  polls q (r1 ++ r2) st = polls q r2 (polls q r1 st).
Proof. unfold polls. by rewrite foldl_app. Qed.

Lemma Fetch_eq url events w :
  Fetch url events w =
  match NewRequest url with
  | Some _ => Some (Panicked, w, events)
  | None =>
      match events with
      | Reply r :: events' =>
          match attempt_error r with
          | None =>
              let w0 := {| query := query w; result_ := result_ w; backoff := 0;
                           wg := wg w |} in
              match Decode (body_of r) with
              | Success recs => Some (Success recs, SetMetrics_of w0 recs, events')
              | Failure err => Some (Failure err, w0, events')
              | Panicked => Some (Panicked, w0, events')
              end
          | Some _ =>
              let w1 := {| query := query w; result_ := placeholder (query w) (result_ w);
                           backoff := S (backoff w); wg := wg w |} in
              match events' with
              | TimeAfter :: events'' => Fetch url events'' w1
              | CtxDone :: events'' =>
                  Some (Failure "Execution was canceled", w1, events'')
              | _ => None
              end
          end
      | _ => None
      end
  end.
Proof.
  destruct events as [|[r| | |] events']; simpl; try done.
  destruct (NewRequest url); [done|]. destruct (attempt_error r); [|done].
  unfold placeholder, error_record, SetMetrics_of. by case_decide.
Qed.

(** *** Where the registry of a worker comes from *)

Lemma placeholder_polls q st :
  ∃ rounds, placeholder q st = polls (Loader.registry q) rounds st ∧
            Forall (round_of q) rounds.
Proof.
  unfold placeholder. case_decide.
  - eexists [_]. split; [done|]. constructor; [by left|constructor].
  - by exists [].
Qed.

Lemma Fetch_polls url events w r w' rest :
  Fetch url events w = Some (r, w', rest) →
  query w' = query w ∧ wg w' = wg w ∧
  (length rest ≤ length events)%nat ∧
  (r ≠ Panicked → length rest < length events) ∧
  ∃ rounds, result_ w' = polls (Loader.registry (query w)) rounds (result_ w) ∧
            Forall (round_of (query w)) rounds.
Proof.
  remember (length events) as n eqn:Hn. revert events w Hn.
  induction n as [n IH] using lt_wf_ind. intros events w ->.
  rewrite Fetch_eq. destruct (NewRequest url).
  { intros [= <- <- <-]. split; [done|]. split; [done|]. split; [done|].
    split; [done|]. by exists []. }
  destruct events as [|[r0| | |] events']; try done.
  destruct (attempt_error r0).
  - destruct events' as [|[| | |] events'']; try done.
    + intros Hf.
      apply (IH (length events'') ltac:(simpl; lia) events'' _ eq_refl) in Hf
        as (Hq & Hw & Hl & Hlt & rounds & Hr & Hall).
      simpl in *. split; [done|]. split; [done|]. split; [lia|]. split; [intros ?; lia|].
      destruct (placeholder_polls (query w) (result_ w)) as (r1 & Hp & Hall1).
      exists (r1 ++ rounds). rewrite polls_app, <-Hp. split; [done|]. by apply Forall_app.
    + intros [= <- <- <-]. simpl. split; [done|]. split; [done|]. split; [lia|].
      split; [intros _; lia|]. apply placeholder_polls.
  - simpl. destruct (Decode (body_of r0)) as [recs|err|] eqn:Ed; intros [= <- <- <-]; simpl;
      (split; [done|]); (split; [done|]); (split; [lia|]); (split; [intros _; lia|]).
    + exists [recs]. split; [done|]. constructor; [right; eauto|constructor].
    + by exists [].
    + by exists [].
Qed.

(** *** An outage *)








(** *** Start *)

Lemma Start_loop_eq n url events w :
  Start_loop (S n) url events w =
  match events with
  | CtxDone :: _ =>
      Some (Success {| query := query w; result_ := result_ w;
                       backoff := backoff w; wg := S (wg w) |})
  | TickerC :: events' =>
      match Fetch url events' w with
      | None => None
      | Some (Panicked, _, _) => Some Panicked
      | Some (_, w', events'') => Start_loop n url events'' w'
      end
  | _ => None
  end.
Proof. done. Qed.

(** The bound on the turns is never what stops the loop: a turn takes an
    event. *)
Lemma Start_loop_fuel n m url events w :
  (length events ≤ n)%nat → (length events ≤ m)%nat →
  Start_loop n url events w = Start_loop m url events w.
Proof.
  revert m events w. induction n as [|n IH]; intros m events w Hn Hm.
  { destruct events; [|simpl in Hn; lia]. by destruct m. }
  destruct m as [|m].
  { destruct events; [done|simpl in Hm; lia]. }
  rewrite !Start_loop_eq. destruct events as [|[r| | |] events']; try done.
  destruct (Fetch url events' w) as [[[r w'] rest]|] eqn:Hf; [|done].
  apply Fetch_polls in Hf as (_ & _ & Hl & _). simpl in Hn, Hm.
  destruct r; [|apply IH; lia|done]. apply IH; lia.
Qed.

Lemma Start_loop_polls n url events w w' :
  Start_loop n url events w = Some (Success w') →
  query w' = query w ∧ wg w' = S (wg w) ∧
  ∃ rounds, result_ w' = polls (Loader.registry (query w)) rounds (result_ w) ∧
            Forall (round_of (query w)) rounds.
Proof.
  revert events w. induction n as [|n IH]; intros events w; [done|].
  rewrite Start_loop_eq. destruct events as [|[r| | |] events']; try done.
  - intros [= <-]. simpl. split; [done|]. split; [done|]. by exists [].
  - destruct (Fetch url events' w) as [[[r w1] rest]|] eqn:Hf; [|done].
    apply Fetch_polls in Hf as (Hq & Hw & _ & _ & r1 & Hr1 & Hall1).
    assert (Start_loop n url rest w1 = Some (Success w') →
            query w' = query w ∧ wg w' = S (wg w) ∧
            ∃ rounds, result_ w' = polls (Loader.registry (query w)) rounds (result_ w) ∧
                      Forall (round_of (query w)) rounds) as Hstep.
    { intros (Hq' & Hw' & r2 & Hr2 & Hall2)%IH. rewrite Hq in Hq', Hr2, Hall2.
      rewrite Hw in Hw'. split; [done|]. split; [done|].
      exists (r1 ++ r2). rewrite polls_app, <-Hr1. split; [done|]. by apply Forall_app. }
    destruct r; [done|done|done].
Qed.

(** When [Start] returns, the interval was positive, [wg.Done] was called
    once, and the registry is what a sequence of calls of
    [Worker.SetMetrics] makes of a new registry, each on the record of the
    error or on a decoded response. *)
Theorem Start_registry url events q w' :
  Start url events (NewWorker q) = Some (Success w') →
  query w' = q ∧ wg w' = 1 ∧ (0 < Loader.Interval q)%Z ∧
  ∃ rounds, result_ w' = polls (Loader.registry q) rounds NewQueryResult ∧
            Forall (round_of q) rounds.
Proof.
  unfold Start. destruct (Fetch url events (NewWorker q)) as [[[r w1] rest]|] eqn:Hf; [|done].
  apply Fetch_polls in Hf as (Hq & Hw & _ & _ & r1 & Hr1 & Hall1). simpl in *.
  assert ((if decide (Loader.Interval (query w1) ≤ 0)%Z then Some Panicked
           else Start_loop (length rest) url rest w1) = Some (Success w') →
          query w' = q ∧ wg w' = 1 ∧ (0 < Loader.Interval q)%Z ∧
          ∃ rounds, result_ w' = polls (Loader.registry q) rounds NewQueryResult ∧
                    Forall (round_of q) rounds) as Hstep.
  { case_decide as Hi; [done|]. rewrite Hq in Hi.
    intros (Hq' & Hw' & r2 & Hr2 & Hall2)%Start_loop_polls.
    rewrite Hq in Hq', Hr2, Hall2. rewrite Hw in Hw'.
    split; [done|]. split; [done|]. split; [lia|].
    exists (r1 ++ r2). rewrite polls_app, <-Hr1. split; [done|]. by apply Forall_app. }
  destruct r; [done|done|done].
Qed.

(** [validateQuery] compares the interval with zero only: a query with a
    negative interval is accepted, and [Start] panics in [time.NewTicker]
    as soon as the first fetch is over. *)
Theorem Start_negative_interval q :
  Loader.Name q ≠ EmptyString → Loader.Driver q ≠ EmptyString →
  Loader.SQL q ≠ EmptyString → Loader.Timeout q ≠ 0%Z → (Loader.Interval q < 0)%Z →
  Loader.validateQuery q = None ∧
  ∀ url events r w' rest,
    Fetch url events (NewWorker q) = Some (r, w', rest) →
    Start url events (NewWorker q) = Some Panicked.
Proof.
  intros Hn Hd Hs Ht Hi. split.
  { unfold Loader.validateQuery. rewrite !decide_False; [done|lia|done..]. }
  intros url events r w' rest Hf. unfold Start. rewrite Hf.
  apply Fetch_polls in Hf as (Hq & _). simpl in Hq.
  destruct r; [|by rewrite decide_True by (rewrite Hq; lia)|done].
  by rewrite decide_True by (rewrite Hq; lia).
Qed.



End WorkerProperties.

(** ** The properties on concrete runs *)

Import Fixture.

Lemma result_Ok_eta {A} (d : A) (r : result A * state) :
  is_Ok r.1 = true → r = (Ok (from_Ok d r.1), r.2).
Proof. destruct r as [[a|e] st]; [reflexivity|discriminate]. Defined.

Lemma result_Err_eta {A} (e : error) (r : result A * state) :
  error_of r.1 = Some e → r = (Err e, r.2).
Proof. destruct r as [[a|e'] st]; [discriminate|]. intros [= ->]. reflexivity. Defined.

(** C1. An entry that a round creates is not always published. On a new
    registry, the record set of two rows with the same labels creates the
    series of those labels with the first row and finds it again with the
    second: the status recorded for its key is then registered,
    [RegisterMetrics] makes no call, and the entry stays in the registry
    with the value of the second row, never handed to [MustRegister]; with
    one of the two rows alone the entry is published. The same happens to
    an entry that a failing pass has left: the next round, which succeeds,
    keeps it and publishes nothing. *)
Theorem Worker_SetMetrics_unpublished_entry :
  Result (Worker_SetMetrics q0 recsTwice NewQueryResult) !! keyA = Some 0 ∧
  gauge_value <$> gauges (Worker_SetMetrics q0 recsTwice NewQueryResult) !! 0 =
    Some (2%Z, 0) ∧
  from_Ok ∅ (SetMetrics q0 recsTwice NewQueryResult).1 !! keyA = Some registered ∧
  calls (Worker_SetMetrics q0 recsTwice NewQueryResult) = [] ∧
  calls (Worker_SetMetrics q0 [row_of "A" (VFloat (1%Z, 0))] NewQueryResult) =
    [MustRegister 0] ∧
  is_Ok (SetMetrics q0 recsBad NewQueryResult).1 = false ∧
  Result (Worker_SetMetrics q0 recsBad NewQueryResult) !! keyA = Some 0 ∧
  is_Ok (SetMetrics q0 recsA (Worker_SetMetrics q0 recsBad NewQueryResult)).1 = true ∧
  Result (polls q0 [recsBad; recsA] NewQueryResult) !! keyA = Some 0 ∧
  calls (polls q0 [recsBad; recsA] NewQueryResult) = [Unregister 1].
Proof. repeat split; vm_compute; reflexivity. Qed.

Lemma SetMetrics_multiple_rows_single_column_witness :
  SetMetrics q0 [[("n", VInt 1)]; [("n", VInt 2)]] NewQueryResult =
  (Err ErrMultipleRowsSingleColumn, NewQueryResult).
Proof.
  refine (proj1 (SetMetrics_multiple_rows_single_column q0 [("n", VInt 1)]
                   [[("n", VInt 2)]] NewQueryResult _ _)); [reflexivity|discriminate].
Defined.

Lemma SetMetrics_single_cell_witness :
  ∃ g, gauges (SetMetrics q0 [[("total", VString "12.5")]] NewQueryResult).2
         !! length (gauges NewQueryResult) = Some g ∧
       Result (SetMetrics q0 [[("total", VString "12.5")]] NewQueryResult).2
         !! (Name q0 +:+ "{}") = Some (length (gauges NewQueryResult)) ∧
       gauge_Name g = "query_result_" +:+ Name q0 ∧
       gauge_ConstLabels g = ∅.
Proof.
  refine (proj2 (proj2 (proj2 (proj2
    (SetMetrics_single_cell q0 "total" (VString "12.5") NewQueryResult _)))) _);
    reflexivity.
Defined.

Lemma Worker_SetMetrics_error_witness :
  Worker_SetMetrics q0 recsBad NewQueryResult = (SetMetrics q0 recsBad NewQueryResult).2 ∧
  calls (SetMetrics q0 recsBad NewQueryResult).2 = calls NewQueryResult ∧
  Result (SetMetrics q0 recsBad NewQueryResult).2 !! keyA = Some 0.
Proof.
  assert (SetMetrics q0 recsBad NewQueryResult =
          (Err (ErrParseFloat "abc"), (SetMetrics q0 recsBad NewQueryResult).2)) as E
    by (apply result_Err_eta; vm_compute; reflexivity).
  destruct (Worker_SetMetrics_error q0 recsBad NewQueryResult _ _ E) as (H1 & H2 & _).
  split; [exact H1|]. split; [exact H2|]. vm_compute. reflexivity.
Defined.


Lemma Worker_SetMetrics_reconciles_witness :
  let st := Worker_SetMetrics q0 recsAB NewQueryResult in
  let st2 := Worker_SetMetrics q0 recsA st in
  ∃ cs, calls st2 = calls st ++ cs ∧
        (Result st !! keyB = Some 1 ∧ Result st2 !! keyB = None ∧ Unregister 1 ∈ cs) ∧
        ∃ m g, Result st2 !! keyA = Some m ∧
               (∀ m0, Result st !! keyA = Some m0 → m0 = m) ∧
               gauges st2 !! m = Some g ∧
               ParseFloat "12.5" = Some (gauge_value g).
Proof.
  intros st st2.
  assert (wf st) as Hwf by (apply Worker_SetMetrics_wf, wf_NewQueryResult).
  assert (SetMetrics q0 recsA st =
          (Ok (from_Ok ∅ (SetMetrics q0 recsA st).1), (SetMetrics q0 recsA st).2)) as E
    by (apply result_Ok_eta; vm_compute; reflexivity).
  destruct (Worker_SetMetrics_reconciles q0 recsA st _ _ Hwf E)
    as (_ & _ & cs & Hcs & Hev & _ & _ & _ & Hval).
  exists cs. split; [exact Hcs|]. split.
  - apply Hev; [vm_compute; reflexivity|].
    apply (bool_decide_eq_false_1 (produced q0 (effective_submetrics q0)
             (pairs (effective_submetrics q0) recsA) keyB)).
    vm_compute. reflexivity.
  - apply (Hval [] (row_of "A" (VString "12.5"), (EmptyString, "count")) [] keyA).
    + reflexivity.
    + vm_compute. reflexivity.
    + intros p' Hp'. exfalso. exact (not_elem_of_nil _ Hp').
Defined.

Lemma SetMetrics_case_of_facet_value_witness :
  facet_labels (<["region" := VString "a"]> (<["region" := VString "A"]> ∅)) =
    facet_labels (<["region" := VString "A"]> ∅) ∧
  resultKey q0 (<["region" := VString "A"]> ∅) EmptyString ≠
    resultKey q0 (<["region" := VString "a"]> (<["region" := VString "A"]> ∅))
      EmptyString.
Proof.
  destruct (SetMetrics_case_of_facet_value q0 (effective_submetrics q0)
              (row_of "A" (VInt 1)) (row_of "a" (VInt 2)) EmptyString "count"
              (<["region" := VString "A"]> ∅) "region" "A" "a" (VInt 1) (VInt 2)
              (1%Z, 0) (2%Z, 0) ∅ NewQueryResult)
    as (_ & Hk & Hl & _).
  - exact wf_NewQueryResult.
  - reflexivity.
  - rewrite insert_insert_eq. reflexivity.
  - reflexivity.
  - discriminate.
  - reflexivity.
  - eexists. vm_compute. reflexivity.
  - reflexivity.
  - reflexivity.
  - split; [exact Hl|exact Hk].
Defined.

Lemma SetMetrics_exactly_one_value_column_witness :
  SetMetrics q0 recsNoValue NewQueryResult = (Err ErrDataFieldNotFound, NewQueryResult).
Proof.
  refine (proj1 (proj2 (proj2 (proj2 (proj2
    (SetMetrics_exactly_one_value_column q0 recsNoValue NewQueryResult
       [("a", VInt 1); ("b", VInt 2)] EmptyString "count")))))
    [] [] ∅ NewQueryResult _ _ _ _); [reflexivity..|].
  vm_compute. discriminate.
Defined.

Lemma SetMetrics_data_field_excludes_sub_metrics_witness :
  ∃ e, SetMetrics qBoth recsAB NewQueryResult = (Err e, NewQueryResult) ∧
       (e = ErrMultipleRowsSingleColumn ∨ e = ErrSubMetricsWithDataField) ∧
       (¬ (1 < length recsAB ∧ length (default [] (recsAB !! 0)) = 1) →
        e = ErrSubMetricsWithDataField).
Proof.
  refine (proj1 (SetMetrics_data_field_excludes_sub_metrics qBoth recsAB NewQueryResult)
            _ _); discriminate.
Defined.

Lemma setValueForResult_coercion_witness :
  ∃ fwr2 st2 m2 g2,
    range_pairs q0 (effective_submetrics q0)
      ([] ++ [(row_of "A" (VString "12.5"), (EmptyString, "count"))]) ∅ NewQueryResult =
      (Ok fwr2, st2) ∧
    Result st2 !! resultKey q0 (<["region" := VString "A"]> ∅) EmptyString = Some m2 ∧
    gauges st2 !! m2 = Some g2 ∧ gauge_value g2 = (125%Z, 1).
Proof.
  refine (proj2 (proj2 (setValueForResult_coercion q0 recsA NewQueryResult 0
            (NewGauge EmptyString EmptyString ∅) (VString "12.5")))
            [] (row_of "A" (VString "12.5")) EmptyString "count" [] ∅ NewQueryResult
            (<["region" := VString "A"]> ∅) _ _ _ _ wf_NewQueryResult); reflexivity.
Defined.


Lemma SetMetrics_status_of_last_production_witness :
  ∃ m cs,
    Result (SetMetrics q0 [row_of "A" (VInt 1); row_of "A" (VInt 2)] NewQueryResult).2
      !! keyA = Some m ∧
    calls (Worker_SetMetrics q0 [row_of "A" (VInt 1); row_of "A" (VInt 2)] NewQueryResult) =
      calls NewQueryResult ++ cs ∧
    (MustRegister m ∈ cs ↔
     Result NewQueryResult !! keyA = None ∧
     ¬ produced q0 (effective_submetrics q0)
         [(row_of "A" (VInt 1), (EmptyString, "count"))] keyA).
Proof.
  destruct (SetMetrics_status_of_last_production q0
              [row_of "A" (VInt 1); row_of "A" (VInt 2)] NewQueryResult
              (from_Ok ∅ (SetMetrics q0 [row_of "A" (VInt 1); row_of "A" (VInt 2)]
                            NewQueryResult).1)
              (SetMetrics q0 [row_of "A" (VInt 1); row_of "A" (VInt 2)] NewQueryResult).2
              [(row_of "A" (VInt 1), (EmptyString, "count"))]
              (row_of "A" (VInt 2), (EmptyString, "count")) [] keyA)
    as (m & cs & Hm & _ & Hcs & Hmr).
  - exact wf_NewQueryResult.
  - apply result_Ok_eta. vm_compute. reflexivity.
  - reflexivity.
  - vm_compute. reflexivity.
  - intros x Hx. exfalso. exact (not_elem_of_nil _ Hx).
  - exists m, cs. split; [exact Hm|]. split; [exact Hcs|exact Hmr].
Defined.

Lemma SetMetrics_any_column_order_witness :
  SetMetrics q0 [[("count", VInt 1); ("region", VString "A")]] NewQueryResult =
  SetMetrics q0 [row_of "A" (VInt 1)] NewQueryResult.
Proof.
  refine (proj1 (SetMetrics_any_column_order q0 [row_of "A" (VInt 1)]
                   [[("count", VInt 1); ("region", VString "A")]] NewQueryResult _ _)).
  - constructor; [apply perm_swap|constructor].
  - constructor; [|constructor]. apply (bool_decide_unpack _). vm_compute. exact I.
Defined.

Lemma Worker_SetMetrics_idempotent_any_order_witness :
  Worker_SetMetrics_visiting qSub [rowSub] visitB
    (Worker_SetMetrics_visiting qSub [rowSub] visitA NewQueryResult) =
  Worker_SetMetrics_visiting qSub [rowSub] visitA NewQueryResult.
Proof.
  destruct (Worker_SetMetrics_idempotent_any_order qSub [rowSub] visitA visitB
              NewQueryResult
              (from_Ok ∅ (SetMetrics_visiting qSub [rowSub] visitA NewQueryResult).1)
              (SetMetrics_visiting qSub [rowSub] visitA NewQueryResult).2)
    as (fwr' & _ & _ & _ & HW).
  - exact wf_NewQueryResult.
  - constructor; [|constructor]. apply (bool_decide_unpack _). vm_compute. exact I.
  - apply (bool_decide_unpack _). vm_compute. exact I.
  - apply (visits_cons _ rowSub [] visitA []); [|constructor].
    split; [reflexivity|]. repeat constructor.
  - apply (visits_cons _ rowSub [] visitB []); [|constructor].
    split; [apply perm_swap|]. constructor; [apply perm_swap|].
    constructor; [|constructor]. apply perm_skip, perm_swap.
  - apply result_Ok_eta. vm_compute. reflexivity.
  - exact HW.
Defined.

Lemma SetMetrics_errors_witness :
  ParseFloat "abc" = None ∧ ∃ row k, row ∈ recsBad ∧ (k, VString "abc") ∈ row.
Proof.
  apply (SetMetrics_errors q0 recsBad NewQueryResult (ErrParseFloat "abc")
           (SetMetrics q0 recsBad NewQueryResult).2).
  apply result_Err_eta. vm_compute. reflexivity.
Defined.

Lemma SetMetrics_sub_metric_case_witness :
  ∃ e st', SetMetrics qUpper [[("region", VString "A"); ("Count", VInt 1)]] NewQueryResult =
           (Err e, st').
Proof.
  apply (SetMetrics_sub_metric_case qUpper _ NewQueryResult
           [("region", VString "A"); ("Count", VInt 1)] ("total", "Count")).
  - left.
  - discriminate.
  - left.
  - simpl. lia.
Defined.


Lemma Worker_SetMetrics_single_cell_sub_metrics_witness :
  is_Some (Result (Worker_SetMetrics qSub [[("error", VString "1")]] NewQueryResult)
             !! (metricName qSub "total" +:+ "{}")).
Proof.
  refine (proj2 (proj1 (Worker_SetMetrics_single_cell_sub_metrics qSub "error"
            (VString "1") (1%Z, 0) NewQueryResult wf_NewQueryResult _ _) _) _).
  - intros [Hd _]. apply Hd. reflexivity.
  - reflexivity.
  - exists "total". split; [left|reflexivity].
Defined.

Lemma Worker_SetMetrics_empty_witness :
  Result (Worker_SetMetrics q0 [] (Worker_SetMetrics q0 recsAB NewQueryResult)) = ∅.
Proof.
  refine (proj1 (Worker_SetMetrics_empty q0 (Worker_SetMetrics q0 recsAB NewQueryResult) _)).
  intros [_ Hs]. simpl in Hs. lia.
Defined.

Lemma RegisterMetrics_retires_then_publishes_witness :
  ∃ retired published : list handle,
    calls (RegisterMetrics {[keyA := registered]} (Worker_SetMetrics q0 recsAB NewQueryResult)) =
      calls (Worker_SetMetrics q0 recsAB NewQueryResult) ++
      (Unregister <$> retired) ++ (MustRegister <$> published) ∧
    NoDup (retired ++ published).
Proof.
  destruct (RegisterMetrics_retires_then_publishes {[keyA := registered]}
              (Worker_SetMetrics q0 recsAB NewQueryResult))
    as (retired & published & Hcs & Hnd & _).
  - apply Worker_SetMetrics_wf, wf_NewQueryResult.
  - exists retired, published. split; [exact Hcs|exact Hnd].
Defined.

Lemma Worker_SetMetrics_publishes_only_new_witness :
  ∃ cs, calls (Worker_SetMetrics q0 recsA (Worker_SetMetrics q0 recsAB NewQueryResult)) =
        calls (Worker_SetMetrics q0 recsAB NewQueryResult) ++ cs.
Proof.
  destruct (Worker_SetMetrics_publishes_only_new q0 recsA
              (Worker_SetMetrics q0 recsAB NewQueryResult)) as (cs & Hcs & _).
  - apply Worker_SetMetrics_wf, wf_NewQueryResult.
  - exists cs. exact Hcs.
Defined.

Lemma polls_described_witness :
  ∃ g facets suffix,
    gauges (polls q0 [recsAB] NewQueryResult) !! 0 = Some g ∧
    keyA = resultKey q0 facets suffix ∧
    gauge_Name g = "query_result_" +:+ metricName q0 suffix.
Proof.
  destruct (polls_described q0 [recsAB] keyA 0) as (g & facets & suffix & Hg & Hk & _ & Hn & _).
  - vm_compute. reflexivity.
  - exists g, facets, suffix. split; [exact Hg|]. split; [exact Hk|exact Hn].
Defined.

Lemma outcome_Success_eta {A} (d : A) (o : outcome A) :
  is_Success o = true → o = Success (from_Success d o).
Proof. destruct o; [reflexivity|discriminate..]. Defined.

Lemma returned_eta {A} (d : A) (o : option (outcome A)) :
  returned o = true → o = Some (Success (value_of d o)).
Proof. destruct o as [[a|err|]|]; [reflexivity|discriminate..]. Defined.

Lemma validateConfig_any_order_witness :
  Config.validateConfig_range (map_to_list (Config.DataSources config0)) = None ↔
  ∀ name ds, Config.DataSources config0 !! name = Some ds → DataSource_ok ds.
Proof.
  apply (proj1 (validateConfig_any_order config0
                  (map_to_list (Config.DataSources config0)) (reflexivity _))).
Defined.

Lemma decodeQueries_accepts_witness :
  Loader.decodeQueries (Reads "queries") (Some loaded0) = Success [query0].
Proof.
  refine (proj2 (decodeQueries_accepts "queries" loaded0 [[("q", Some entry0)]] [query0]
                   _ _ _) _); [reflexivity|discriminate|discriminate|].
  exists [("q", entry0)]. split; [reflexivity|]. split; [reflexivity|].
  constructor; [|constructor]. split; [discriminate|]. split; [discriminate|].
  right. split; [discriminate|]. exists source0. split; [vm_compute; reflexivity|discriminate].
Defined.

Lemma decodeQueries_valid_witness :
  Forall (λ q, valid_query q ∧ ToLower (Loader.DataField q) = Loader.DataField q ∧
               (Loader.ValueOnError q = EmptyString →
                Config.QueryValueOnError (Config.Defaults loaded0) = EmptyString))
         (from_Success [] (Loader.decodeQueries (Reads "queries") (Some loaded0))).
Proof.
  apply (decodeQueries_valid (Reads "queries") loaded0).
  apply outcome_Success_eta. reflexivity.
Defined.

Lemma loadConfig_valid_witness :
  Config.QueryInterval (Config.Defaults (from_Success Config.newConfig
                                           (Loader.loadConfig "prometheus-sql.yml"))) ≠ 0%Z ∧
  Config.QueryTimeout (Config.Defaults (from_Success Config.newConfig
                                          (Loader.loadConfig "prometheus-sql.yml"))) ≠ 0%Z.
Proof.
  destruct (loadConfig_valid "prometheus-sql.yml"
              (from_Success Config.newConfig (Loader.loadConfig "prometheus-sql.yml")))
    as (Hi & Ht & _).
  - apply outcome_Success_eta. vm_compute. reflexivity.
  - split; [exact Hi|exact Ht].
Defined.

Lemma loadQueriesInDir_yml_witness :
  Loader.loadQueriesInDir "queries.d/" loaded0 true =
  Loader.range_files "queries.d/" loaded0 true
    (filter is_yml ["a.yml"; "notes.txt"; "b.yml"]) [].
Proof.
  refine (proj1 (proj2 (loadQueriesInDir_yml "queries.d/" loaded0 true
                          ["a.yml"; "notes.txt"; "b.yml"] _))).
  reflexivity.
Defined.

Lemma main_Success_witness :
  Forall (λ q, valid_query q ∧ ToLower (Loader.DataField q) = Loader.DataField q)
         (from_Success (Config.newConfig, []) (Loader.main flags0)).2.
Proof.
  refine (proj2 (proj2 (proj2 (proj2 (proj2 (proj2
    (main_Success flags0 (from_Success (Config.newConfig, []) (Loader.main flags0)).1
       (from_Success (Config.newConfig, []) (Loader.main flags0)).2 _))))))).
  rewrite <-surjective_pairing. apply outcome_Success_eta. vm_compute. reflexivity.
Defined.

Lemma main_queries_and_queryDir_witness :
  Loader.main flagsBoth = Failure "Error: You can specify either -queries or -queryDir".
Proof.
  refine (proj1 (main_queries_and_queryDir flagsBoth _ _) _ _); discriminate.
Defined.


Lemma Start_registry_witness :
  wg (value_of (NewWorker query0) (Start EmptyString events0 (NewWorker query0))) = 1.
Proof.
  refine (proj1 (proj2 (Start_registry EmptyString events0 query0
                          (value_of (NewWorker query0)
                             (Start EmptyString events0 (NewWorker query0))) _))).
  apply returned_eta. vm_compute. reflexivity.
Defined.

Lemma Start_negative_interval_witness : Loader.validateQuery queryNeg = None.
Proof.
  refine (proj1 (Start_negative_interval queryNeg _ _ _ _ _)); try discriminate.
  reflexivity.
Defined.

